(** * Platooning verification system: safe distance, controllers, simulation

    A shallow embedding of the decision core of the platooning simulator:
    - [src/core/verified_controller.py]   (module [FormalPlatooningController])
    - [src/core/safety_monitor.py]        (module [SafetyMonitor])
    - [src/simulation/enhanced_environment.py]
        (modules [EnhancedVehicle], [EnhancedPlatooningController],
         [EnhancedPlatooningSimulation])

    Python floats are idealised as exact rationals ([Q]); comparisons are the
    boolean comparisons of the source.  A Python [dict] that is iterated is a
    list in insertion order; the per-tick action map, which is only looked up
    by key, is a [gmap]. *)

From Stdlib Require Import QArith Qminmax Qabs Qround Lqa Lia String List Bool.
From Stdlib Require Import DecimalString DecimalNat.
From Stdlib Require OrderedTypeEx.
From stdpp Require Import base option list gmap strings sorting.

Open Scope Q_scope.

(** ** Numeric helpers *)

(** [a < b] on floats, as a boolean. *)
Definition Qlt_bool (a b : Q) : bool := negb (Qle_bool b a).

Infix "<?" := Qlt_bool (at level 70, no associativity) : Q_scope.
Infix "<=?" := Qle_bool (at level 70, no associativity) : Q_scope.

(** [np.clip(x, lo, hi)] is [minimum(maximum(x, lo), hi)]. *)
Definition clip (x lo hi : Q) : Q := Qmin (Qmax x lo) hi.

(** ** The [platoon_states] dict of the core modules *)

(** One value of [platoon_states]: itself a dict, of which the core modules
    read the keys ['position'], ['velocity'] and ['timestamp']; it is taken
    to carry them. *)
Record PlatoonState := mkPlatoonState {
  ps_position : Q;
  ps_velocity : Q;
  ps_timestamp : Q
}.

(** [platoon_states], as the list of its items in insertion order. *)
Definition PlatoonStates : Type := list (string * PlatoonState).

(** [platoon_states.keys()]. *)
Definition keys (platoon_states : PlatoonStates) : list string :=
  List.map fst platoon_states.

(** [platoon_states[k]]; [None] is [KeyError]. *)
Definition getitem (platoon_states : PlatoonStates) (k : string)
  : option PlatoonState :=
  snd <$> List.find (fun e => String.eqb (fst e) k) platoon_states.

(** The order of [str]: lexicographic on the code points, which is the
    lexicographic order on the bytes of the UTF-8 encoding. *)
Definition str_le (a b : string) : Prop := String.leb a b = true.

Definition str_lt (a b : string) : Prop := String.ltb a b = true.

#[global] Instance str_le_dec : RelDecision str_le :=
  fun a b => decide (String.leb a b = true).

(** [sorted(keys)].  The sorted list of a list of strings is unique, so any
    sorting algorithm gives the list Python's gives. *)
Definition sorted (l : list string) : list string := merge_sort str_le l.

(** [l.index(x)]; [None] is [ValueError]. *)
Fixpoint index (l : list string) (x : string) : option nat :=
  match l with
  | [] => None
  | y :: rest => if String.eqb y x then Some 0%nat else S <$> index rest x
  end.

(** ** The formally verified controller ([verified_controller.py]) *)

Module FormalPlatooningController.

(** [@dataclass SafetyParameters] with its defaults. *)
Record SafetyParameters := mkSafetyParameters {
  max_deceleration : Q;
  max_acceleration : Q;
  min_safe_distance : Q;
  reaction_time : Q;
  sensor_error_bound : Q;
  communication_delay : Q
}.

(** [SafetyParameters()], what [__init__] stores in [self.safety_params]. *)
Definition default_params : SafetyParameters :=
  {| max_deceleration := 4;
     max_acceleration := 2;
     min_safe_distance := 3;
     reaction_time := 0.2;
     sensor_error_bound := 0.1;
     communication_delay := 0.1 |}.

(** [_calculate_safe_distance].  A float division by zero raises
    [ZeroDivisionError]; that is the [None] result. *)
Definition _calculate_safe_distance (p : SafetyParameters) (v_ego v_pred : Q)
  : option Q :=
  let d_reaction := v_ego * reaction_time p in
  if Qeq_bool (2 * max_deceleration p) 0 then None
  else
    let d_stop_ego := (v_ego * v_ego) / (2 * max_deceleration p) in
    let d_stop_pred := (v_pred * v_pred) / (2 * max_deceleration p) in
    let d_stopping := Qmax 0 (d_stop_ego - d_stop_pred) in
    Some (d_reaction + d_stopping + min_safe_distance p).

End FormalPlatooningController.

(** The data classes and the other methods of [verified_controller.py]. *)

Module VerifiedController.

Import FormalPlatooningController.

Inductive VehicleRole := LEADER | FOLLOWER.

(** [@dataclass VehicleState]. *)
Record VehicleState := mkVehicleState {
  position : Q;
  velocity : Q;
  acceleration : Q;
  timestamp : Q;
  state_role : VehicleRole
}.

(** The four f-strings that fill [ControlAction.reason], by their kind and
    the values they format. *)
Inductive Reason :=
| ReasonEmergencyGap (current_gap safe_distance : Q)
| ReasonNormal (current_gap safe_distance : Q)
| ReasonLeader (target_velocity : Q)
| ReasonEmergency (reason : string).

(** [@dataclass ControlAction]. *)
Record ControlAction := mkControlAction {
  action_acceleration : Q;
  safety_verified : bool;
  emergency : bool;
  reason : Reason
}.

(** The attributes of a controller. *)
Record t := mk {
  vehicle_id : string;
  role : VehicleRole;
  safety_params : SafetyParameters;
  state : VehicleState;
  safety_violations : Z;
  emergency_events : Z
}.

(** [__init__]. *)
Definition init (vehicle_id : string) (role : VehicleRole) : t :=
  {| vehicle_id := vehicle_id;
     role := role;
     safety_params := default_params;
     state := mkVehicleState 0 0 0 0 role;
     safety_violations := 0;
     emergency_events := 0 |}.

(** [self.state.timestamp = current_time]. *)
Definition set_timestamp (self : t) (current_time : Q) : t :=
  {| vehicle_id := vehicle_id self;
     role := role self;
     safety_params := safety_params self;
     state := {| position := position (state self);
                 velocity := velocity (state self);
                 acceleration := acceleration (state self);
                 timestamp := current_time;
                 state_role := state_role (state self) |};
     safety_violations := safety_violations self;
     emergency_events := emergency_events self |}.

(** [_control_law]. *)
Definition _control_law (current_gap safe_gap v_ego v_pred : Q) : Q :=
  let gap_error := current_gap - safe_gap in
  let vel_error := v_pred - v_ego in
  0.3 * gap_error + 0.5 * vel_error.

(** [_apply_bounds]. *)
Definition _apply_bounds (self : t) (acceleration : Q) : Q :=
  clip acceleration
       (- max_deceleration (safety_params self))
       (max_acceleration (safety_params self)).

(** [_compute_leader_action]. *)
Definition _compute_leader_action (self : t) : ControlAction :=
  let target_velocity := 20 in
  let velocity_error := target_velocity - velocity (state self) in
  let acceleration := velocity_error * 0.5 in
  let acceleration := _apply_bounds self acceleration in
  {| action_acceleration := acceleration;
     safety_verified := true;
     emergency := false;
     reason := ReasonLeader target_velocity |}.

(** [_verify_assumptions]. *)
Definition _verify_assumptions (self : t) (platoon_states : PlatoonStates)
  : bool :=
  forallb (fun e =>
             negb (communication_delay (safety_params self)
                   <? timestamp (state self) - ps_timestamp (snd e)))
          platoon_states.

(** [_find_predecessor].  The two subscripts cannot fail: the index is
    within the sorted key list, whose members are keys of the dict. *)
Definition _find_predecessor (self : t) (platoon_states : PlatoonStates)
  : option PlatoonState :=
  match role self with
  | LEADER => None
  | FOLLOWER =>
      let vehicle_ids := sorted (keys platoon_states) in
      match index vehicle_ids (vehicle_id self) with
      | Some my_index =>
          if (0 <? my_index)%nat then
            match vehicle_ids !! (my_index - 1)%nat with
            | Some k => getitem platoon_states k
            | None => None
            end
          else None
      | None => None
      end
  end.

(** [_emergency_safe_action]: the action, and the controller with one more
    safety violation counted. *)
Definition _emergency_safe_action (self : t) (reason : string)
  : ControlAction * t :=
  ({| action_acceleration := - max_deceleration (safety_params self) * 0.5;
      safety_verified := true;
      emergency := true;
      reason := ReasonEmergency reason |},
   {| vehicle_id := vehicle_id self;
      role := role self;
      safety_params := safety_params self;
      state := state self;
      safety_violations := safety_violations self + 1;
      emergency_events := emergency_events self |}).

(** [_compute_follower_action]; [None] is the [ZeroDivisionError] of
    [_calculate_safe_distance]. *)
Definition _compute_follower_action (self : t)
    (platoon_states : PlatoonStates) : option (ControlAction * t) :=
  match _find_predecessor self platoon_states with
  | None => Some (_emergency_safe_action self "No predecessor")
  | Some predecessor =>
      let v_ego := velocity (state self) in
      let v_pred := ps_velocity predecessor in
      let current_gap := ps_position predecessor - position (state self) in
      match _calculate_safe_distance (safety_params self) v_ego v_pred with
      | None => None
      | Some safe_distance =>
          if current_gap <? safe_distance then
            Some ({| action_acceleration :=
                       - max_deceleration (safety_params self);
                     safety_verified := true;
                     emergency := true;
                     reason := ReasonEmergencyGap current_gap safe_distance |},
                  {| vehicle_id := vehicle_id self;
                     role := role self;
                     safety_params := safety_params self;
                     state := state self;
                     safety_violations := safety_violations self;
                     emergency_events := emergency_events self + 1 |})
          else
            let acceleration :=
              _control_law current_gap safe_distance v_ego v_pred in
            let acceleration := _apply_bounds self acceleration in
            Some ({| action_acceleration := acceleration;
                     safety_verified := true;
                     emergency := false;
                     reason := ReasonNormal current_gap safe_distance |},
                  self)
      end
  end.

(** [compute_verified_action]. *)
Definition compute_verified_action (self : t)
    (platoon_states : PlatoonStates) (current_time : Q)
  : option (ControlAction * t) :=
  let self := set_timestamp self current_time in
  if negb (_verify_assumptions self platoon_states) then
    Some (_emergency_safe_action self "Assumptions violated")
  else
    match role self with
    | LEADER => Some (_compute_leader_action self, self)
    | FOLLOWER => _compute_follower_action self platoon_states
    end.

(** [update_state]. *)
Definition update_state (self : t) (position velocity acceleration : Q) : t :=
  {| vehicle_id := vehicle_id self;
     role := role self;
     safety_params := safety_params self;
     state := {| position := position;
                 velocity := velocity;
                 acceleration := acceleration;
                 timestamp := timestamp (state self);
                 state_role := state_role (state self) |};
     safety_violations := safety_violations self;
     emergency_events := emergency_events self |}.

(** [get_metrics]: [(safety_violations, emergency_events)]. *)
Definition get_metrics (self : t) : Z * Z :=
  (safety_violations self, emergency_events self).

End VerifiedController.

Module FC := VerifiedController.

(** ** The runtime safety monitor ([safety_monitor.py]) *)

Module SafetyMonitor.

(** [_calculate_safe_distance], with its three local constants. *)
Definition _calculate_safe_distance (v_ego v_pred : Q) : Q :=
  let reaction_time := 0.2 in
  let max_decel := 4 in
  let min_distance := 3 in
  let d_reaction := v_ego * reaction_time in
  let d_stop_ego := (v_ego * v_ego) / (2 * max_decel) in
  let d_stop_pred := (v_pred * v_pred) / (2 * max_decel) in
  let d_stopping := Qmax 0 (d_stop_ego - d_stop_pred) in
  d_reaction + d_stopping + min_distance.

(** One entry of the violation list.  Its ['timestamp'] is the wall clock
    ([time.time()]) and is left out. *)
Inductive Violation :=
| SAFE_DISTANCE_VIOLATION (vehicles : string * string)
    (actual_gap safe_gap : Q)
| NEGATIVE_VELOCITY (vehicle : string) (velocity : Q).

(** The attribute [verify_safety] writes; [assumption_checks] is created
    empty and used nowhere. *)
Record t := mk {
  violation_history : list Violation
}.

(** [__init__]. *)
Definition init : t := {| violation_history := [] |}.

(** The first loop of [verify_safety], over the consecutive pairs of the
    sorted ids; [None] is [KeyError]. *)
Fixpoint check_safe_distances (platoon_states : PlatoonStates)
    (vehicle_ids : list string) : option (list Violation) :=
  match vehicle_ids with
  | front_id :: ((rear_id :: _) as rest) =>
      match getitem platoon_states front_id,
            getitem platoon_states rear_id with
      | Some front, Some rear =>
          let actual_gap := ps_position front - ps_position rear in
          let safe_gap :=
            _calculate_safe_distance (ps_velocity rear) (ps_velocity front) in
          match check_safe_distances platoon_states rest with
          | Some violations =>
              Some (if actual_gap <? safe_gap
                    then SAFE_DISTANCE_VIOLATION (front_id, rear_id)
                           actual_gap safe_gap :: violations
                    else violations)
          | None => None
          end
      | _, _ => None
      end
  | _ => Some []
  end.

(** The second loop of [verify_safety], over the items in insertion
    order. *)
Definition check_velocity_bounds (platoon_states : PlatoonStates)
  : list Violation :=
  flat_map (fun e => if ps_velocity (snd e) <? 0
                     then [NEGATIVE_VELOCITY (fst e) (ps_velocity (snd e))]
                     else [])
           platoon_states.

(** [verify_safety]: the violations returned, and the monitor with its
    history extended. *)
Definition verify_safety (self : t) (platoon_states : PlatoonStates)
  : option (list Violation * t) :=
  let vehicle_ids := sorted (keys platoon_states) in
  match check_safe_distances platoon_states vehicle_ids with
  | Some distance =>
      let violations := distance ++ check_velocity_bounds platoon_states in
      Some (violations,
            {| violation_history := violation_history self ++ violations |})
  | None => None
  end.

Definition is_distance_violation (v : Violation) : bool :=
  match v with SAFE_DISTANCE_VIOLATION _ _ _ => true | _ => false end.

(** The dict [get_safety_stats] returns. *)
Record SafetyStats := mkSafetyStats {
  total_violations : nat;
  distance_violations : nat;
  last_violation : option Violation
}.

(** [get_safety_stats]. *)
Definition get_safety_stats (self : t) : SafetyStats :=
  {| total_violations := List.length (violation_history self);
     distance_violations :=
       List.length (List.filter is_distance_violation
                      (violation_history self));
     last_violation := List.last (List.map Some (violation_history self))
                         None |}.

End SafetyMonitor.

(** ** Enumerations of [enhanced_environment.py] *)

Inductive VehicleRole := LEADER | FOLLOWER | PRIORITY.

Inductive Lane := RIGHT | MIDDLE | LEFT.

Inductive VehicleType := NORMAL | AMBULANCE | EMERGENCY.

Definition VehicleRole_eqb (a b : VehicleRole) : bool :=
  match a, b with
  | LEADER, LEADER | FOLLOWER, FOLLOWER | PRIORITY, PRIORITY => true
  | _, _ => false
  end.

Definition Lane_eqb (a b : Lane) : bool :=
  match a, b with
  | RIGHT, RIGHT | MIDDLE, MIDDLE | LEFT, LEFT => true
  | _, _ => false
  end.

(** [Lane.value].  The value is used only as a sort key; in a condition a
    member of a plain [Enum] is true whatever its value. *)
Definition Lane_value (l : Lane) : Z :=
  match l with RIGHT => 0%Z | MIDDLE => 1%Z | LEFT => 2%Z end.

(** [lane_centers[lane]], the table of both [_get_lane_center_y] methods. *)
Definition _get_lane_center_y (lane : Lane) : Q :=
  match lane with RIGHT => -4 | MIDDLE => 0 | LEFT => 4 end.

(** [@dataclass EnhancedVehicleAction]. *)
Record EnhancedVehicleAction := mkAction {
  act_acceleration : Q;
  act_target_lane : option Lane;
  act_emergency : bool;
  act_reason : string;
  act_priority_override : bool
}.

(** ** [class EnhancedVehicle] *)

Module EnhancedVehicle.

(** The attributes [__init__] creates.  [length], [width] and
    [lane_change_speed] are assigned there once and written nowhere else in
    the repository, so they are the constants below. *)
Record t := mk {
  id : string;
  role : VehicleRole;
  vehicle_type : VehicleType;
  lane : Lane;
  lane_target_y : Q;
  x : Q;
  y : Q;
  velocity : Q;
  acceleration : Q;
  color : string;
  symbol : string;
  is_changing_lane : bool;
  lane_change_progress : Q;
  previous_lane : Lane;
  emergency_braking : bool;
  emergency_start_time : Q
}.

Definition length : Q := 4.5.
Definition width : Q := 1.8.
Definition lane_change_speed : Q := 2.

(** The key [f"vehicle_{i}"] that [_initialize_vehicles] builds. *)
Definition vehicle_key (i : nat) : string :=
  ("vehicle_" ++ NilEmpty.string_of_uint (Nat.to_uint i))%string.

(** [__init__], called only on the ids [vehicle_key i]; the index [i] stands
    for [int(vehicle_id.split('_')[1])]. *)
Definition init (i : nat) (role0 : VehicleRole) (vehicle_type0 : VehicleType)
    (initial_lane : Lane) : t :=
  let lane_target_y0 := _get_lane_center_y initial_lane in
  let color0 :=
    match vehicle_type0 with
    | AMBULANCE => "#FF0000"
    | EMERGENCY => "#FFA500"
    | NORMAL => match role0 with LEADER => "#FF6B6B" | _ => "#4FC3F7" end
    end%string in
  let symbol0 :=
    match vehicle_type0 with
    | AMBULANCE => "🚑"
    | EMERGENCY => "🚨"
    | NORMAL => "🚗"
    end%string in
  {| id := vehicle_key i;
     role := role0;
     vehicle_type := vehicle_type0;
     lane := initial_lane;
     lane_target_y := lane_target_y0;
     x := match role0 with
          | LEADER => 50
          | _ => 50 - inject_Z (Z.of_nat i) * 25
          end;
     y := lane_target_y0;
     velocity := 20;
     acceleration := 0;
     color := color0;
     symbol := symbol0;
     is_changing_lane := false;
     lane_change_progress := 0;
     previous_lane := initial_lane;
     emergency_braking := false;
     emergency_start_time := 0 |}.

(** [update_position]: velocity integration with the clamp to [0, 30],
    position integration, then the lane-change progress. *)
Definition update_position (self : t) (dt : Q) : t :=
  let velocity1 := velocity self + acceleration self * dt in
  let velocity2 := Qmax 0 (Qmin velocity1 30) in
  let x1 := x self + velocity2 * dt in
  if is_changing_lane self then
    let progress1 := lane_change_progress self + lane_change_speed * dt in
    if 1 <=? progress1 then
      {| id := id self; role := role self; vehicle_type := vehicle_type self;
         lane := lane self; lane_target_y := lane_target_y self;
         x := x1; y := lane_target_y self;
         velocity := velocity2; acceleration := acceleration self;
         color := color self; symbol := symbol self;
         is_changing_lane := false;
         lane_change_progress := 0;
         previous_lane := previous_lane self;
         emergency_braking := emergency_braking self;
         emergency_start_time := emergency_start_time self |}
    else
      let start_y := _get_lane_center_y (previous_lane self) in
      {| id := id self; role := role self; vehicle_type := vehicle_type self;
         lane := lane self; lane_target_y := lane_target_y self;
         x := x1;
         y := start_y + (lane_target_y self - start_y) * progress1;
         velocity := velocity2; acceleration := acceleration self;
         color := color self; symbol := symbol self;
         is_changing_lane := true;
         lane_change_progress := progress1;
         previous_lane := previous_lane self;
         emergency_braking := emergency_braking self;
         emergency_start_time := emergency_start_time self |}
  else
    {| id := id self; role := role self; vehicle_type := vehicle_type self;
       lane := lane self; lane_target_y := lane_target_y self;
       x := x1; y := y self;
       velocity := velocity2; acceleration := acceleration self;
       color := color self; symbol := symbol self;
       is_changing_lane := false;
       lane_change_progress := lane_change_progress self;
       previous_lane := previous_lane self;
       emergency_braking := emergency_braking self;
       emergency_start_time := emergency_start_time self |}.

(** [initiate_lane_change]. *)
Definition initiate_lane_change (self : t) (target_lane : Lane) : t :=
  if negb (is_changing_lane self) && negb (Lane_eqb target_lane (lane self))
  then
    {| id := id self; role := role self; vehicle_type := vehicle_type self;
       lane := target_lane;
       lane_target_y := _get_lane_center_y target_lane;
       x := x self; y := y self;
       velocity := velocity self; acceleration := acceleration self;
       color := color self; symbol := symbol self;
       is_changing_lane := true;
       lane_change_progress := 0;
       previous_lane := lane self;
       emergency_braking := emergency_braking self;
       emergency_start_time := emergency_start_time self |}
  else self.

(** [trigger_emergency_braking]. *)
Definition trigger_emergency_braking (self : t) (current_time : Q) : t :=
  {| id := id self; role := role self; vehicle_type := vehicle_type self;
     lane := lane self; lane_target_y := lane_target_y self;
     x := x self; y := y self;
     velocity := velocity self; acceleration := -8;
     color := color self; symbol := symbol self;
     is_changing_lane := is_changing_lane self;
     lane_change_progress := lane_change_progress self;
     previous_lane := previous_lane self;
     emergency_braking := true;
     emergency_start_time := current_time |}.

(** [get_bounding_box]: [(x_min, x_max, y_min, y_max)]. *)
Definition get_bounding_box (self : t) : Q * Q * Q * Q :=
  (x self - length / 2, x self + length / 2,
   y self - width / 2, y self + width / 2).

(** [vehicle.acceleration = a], the assignment [step] makes. *)
Definition set_acceleration (self : t) (a : Q) : t :=
  {| id := id self; role := role self; vehicle_type := vehicle_type self;
     lane := lane self; lane_target_y := lane_target_y self;
     x := x self; y := y self;
     velocity := velocity self; acceleration := a;
     color := color self; symbol := symbol self;
     is_changing_lane := is_changing_lane self;
     lane_change_progress := lane_change_progress self;
     previous_lane := previous_lane self;
     emergency_braking := emergency_braking self;
     emergency_start_time := emergency_start_time self |}.

(** The four assignments of [set_priority_vehicle] on the vehicle. *)
Definition make_priority (self : t) : t :=
  {| id := id self; role := PRIORITY; vehicle_type := AMBULANCE;
     lane := lane self; lane_target_y := lane_target_y self;
     x := x self; y := y self;
     velocity := velocity self; acceleration := acceleration self;
     color := "#FF0000"; symbol := "🚑";
     is_changing_lane := is_changing_lane self;
     lane_change_progress := lane_change_progress self;
     previous_lane := previous_lane self;
     emergency_braking := emergency_braking self;
     emergency_start_time := emergency_start_time self |}.

End EnhancedVehicle.

Module V := EnhancedVehicle.

(** ** [class EnhancedPlatooningController]

    A controller holds a reference to its vehicle and four constants.  Every
    method reads the other vehicles through [state['object']], the live
    vehicle objects; [vehicle_states] below is the list of those objects in
    the order of the dictionary, as they are at the time of the call. *)

Module EnhancedPlatooningController.

Definition safe_time_gap : Q := 2.5.
Definition min_distance : Q := 10.
Definition max_acceleration : Q := 2.
Definition max_braking : Q := -6.

Section Controller.

Variable self_vehicle : V.t.
Variable vehicle_states : list V.t.

(** [vehicle_obj.id == self.vehicle.id]. *)
Definition is_self (vehicle_obj : V.t) : bool :=
  String.eqb (V.id vehicle_obj) (V.id self_vehicle).

(** [_calculate_safe_distance]: the argument is not used. *)
Definition _calculate_safe_distance (relative_velocity : Q) : Q :=
  min_distance + Qmax 0 (V.velocity self_vehicle) * safe_time_gap.

(** [_get_adjacent_lanes]. *)
Definition _get_adjacent_lanes (current_lane : Lane) : list Lane :=
  match current_lane with
  | RIGHT => [MIDDLE]
  | MIDDLE => [LEFT; RIGHT]
  | LEFT => [MIDDLE]
  end.

(** One iteration of the loop of [_find_closest_vehicle].  The three
    results are assigned together; [None] is the initial
    [(None, inf, 0.0)]. *)
Definition closest_step (acc : option (V.t * Q * Q)) (vehicle_obj : V.t)
  : option (V.t * Q * Q) :=
  if is_self vehicle_obj then acc
  else
    let distance := V.x vehicle_obj - V.x self_vehicle - V.length in
    let lateral_distance := Qabs (V.y vehicle_obj - V.y self_vehicle) in
    if (lateral_distance <? 4) && (0 <? distance)
       && match acc with
          | None => true
          | Some (_, min_dist, _) => distance <? min_dist
          end
    then Some (vehicle_obj, distance,
               V.velocity vehicle_obj - V.velocity self_vehicle)
    else acc.

(** [_find_closest_vehicle]. *)
Definition _find_closest_vehicle : option (V.t * Q * Q) :=
  fold_left closest_step vehicle_states None.

(** [_is_lane_clear_for_emergency]: no other vehicle within 2.5 m
    laterally of the lane centre and 20 m longitudinally. *)
Definition _is_lane_clear_for_emergency (target_lane : Lane) : bool :=
  let target_y := _get_lane_center_y target_lane in
  forallb (fun vehicle_obj =>
    is_self vehicle_obj
    || negb ((Qabs (V.y vehicle_obj - target_y) <? 2.5)
             && (Qabs (V.x vehicle_obj - V.x self_vehicle) <? 20)))
    vehicle_states.

(** [_evaluate_emergency_lane_change]. *)
Definition _evaluate_emergency_lane_change
    (current_distance safe_distance : Q) : option Lane :=
  if V.is_changing_lane self_vehicle then None
  else
    List.find _is_lane_clear_for_emergency
      (_get_adjacent_lanes (V.lane self_vehicle)).

(** [_check_emergency_ahead]. *)
Definition _check_emergency_ahead (current_time : Q)
  : option EnhancedVehicleAction :=
  match _find_closest_vehicle with
  | Some (closest_vehicle, distance, relative_velocity) =>
      if V.emergency_braking closest_vehicle then
        let safe_distance := _calculate_safe_distance relative_velocity in
        let time_since_emergency :=
          current_time - V.emergency_start_time closest_vehicle in
        let reaction_multiplier :=
          if time_since_emergency <? 1 then 2 else 1 in
        if distance <? safe_distance * 1.5 then
          match _evaluate_emergency_lane_change distance safe_distance with
          | Some target_lane =>
              Some {| act_acceleration := -4;
                      act_target_lane := Some target_lane;
                      act_emergency := true;
                      act_reason :=
                        ("Emergency lane change! "
                         ++ V.id closest_vehicle ++ " braking")%string;
                      act_priority_override := false |}
          | None =>
              let required_braking :=
                Qmin max_braking (-6 * reaction_multiplier) in
              Some {| act_acceleration := required_braking;
                      act_target_lane := None;
                      act_emergency := true;
                      act_reason :=
                        ("🚨 EMERGENCY! "
                         ++ V.id closest_vehicle ++ " braking hard!")%string;
                      act_priority_override := false |}
          end
        else None
      else None
  | None => None
  end.

(** [_is_lane_clear]. *)
Definition _is_lane_clear (target_lane : Lane) : bool :=
  let target_y := _get_lane_center_y target_lane in
  forallb (fun vehicle_obj =>
    is_self vehicle_obj
    || negb ((Qabs (V.y vehicle_obj - target_y) <? 2.2)
             && (let longitudinal_distance :=
                   V.x vehicle_obj - V.x self_vehicle in
                 let safe_distance :=
                   _calculate_safe_distance
                     (V.velocity vehicle_obj - V.velocity self_vehicle) in
                 Qabs longitudinal_distance <? safe_distance * 1.8)))
    vehicle_states.

(** [_evaluate_lane_change]. *)
Definition _evaluate_lane_change (current_distance safe_distance : Q)
  : option Lane :=
  if V.is_changing_lane self_vehicle
     || (safe_distance * 0.8 <? current_distance)
  then None
  else List.find _is_lane_clear (_get_adjacent_lanes (V.lane self_vehicle)).

(** [_compute_priority_action]. *)
Definition _compute_priority_action : EnhancedVehicleAction :=
  let target_velocity := 25 in
  let current_velocity := V.velocity self_vehicle in
  let maintain :=
    let velocity_error := target_velocity - current_velocity in
    {| act_acceleration := clip (velocity_error * 0.3) (-1.5) 1.5;
       act_target_lane := None;
       act_emergency := false;
       act_reason := "Priority vehicle maintaining speed";
       act_priority_override := false |} in
  match _find_closest_vehicle with
  | Some (closest_vehicle, distance, relative_velocity) =>
      let safe_distance := _calculate_safe_distance relative_velocity in
      if distance <? safe_distance * 1.2 then
        match _evaluate_lane_change distance safe_distance with
        | Some target_lane =>
            {| act_acceleration := 1;
               act_target_lane := Some target_lane;
               act_emergency := false;
               act_reason := ("Overtaking " ++ V.id closest_vehicle)%string;
               act_priority_override := false |}
        | None =>
            {| act_acceleration :=
                 clip ((distance - safe_distance) * 0.1) (-2) 0;
               act_target_lane := None;
               act_emergency := false;
               act_reason := ("Following " ++ V.id closest_vehicle)%string;
               act_priority_override := false |}
        end
      else maintain
  | None => maintain
  end.

(** [_find_priority_vehicle]. *)
Definition _find_priority_vehicle : option V.t :=
  List.find (fun vehicle_obj =>
    VehicleRole_eqb (V.role vehicle_obj) PRIORITY
    && negb (is_self vehicle_obj)) vehicle_states.

(** [_is_lane_clear_for_yield]: asymmetric margins, 25 m ahead and 15 m
    behind. *)
Definition _is_lane_clear_for_yield (target_lane : Lane) : bool :=
  let target_y := _get_lane_center_y target_lane in
  forallb (fun vehicle_obj =>
    is_self vehicle_obj
    || negb ((Qabs (V.y vehicle_obj - target_y) <? 2.8)
             && (let longitudinal_distance :=
                   V.x vehicle_obj - V.x self_vehicle in
                 ((0 <? longitudinal_distance)
                    && (longitudinal_distance <? 25))
                 || ((longitudinal_distance <? 0)
                       && (Qabs longitudinal_distance <? 15)))))
    vehicle_states.

(** [list.sort(key=...)]: a stable sort in ascending order of the key. *)
Fixpoint insert_by_key {A : Type} (key : A -> Z) (a : A) (l : list A)
  : list A :=
  match l with
  | [] => [a]
  | b :: l' =>
      if (key a <=? key b)%Z then a :: b :: l'
      else b :: insert_by_key key a l'
  end.

Fixpoint sort_by_key {A : Type} (key : A -> Z) (l : list A) : list A :=
  match l with
  | [] => []
  | a :: l' => insert_by_key key a (sort_by_key key l')
  end.

(** [_find_yield_lane].  The adjacent lanes are sorted by their distance
    to the lane the priority vehicle object has at the time of the call. *)
Definition _find_yield_lane : option Lane :=
  let current_lane := V.lane self_vehicle in
  let adjacent_lanes := _get_adjacent_lanes current_lane in
  let adjacent_lanes :=
    match _find_priority_vehicle with
    | Some priority_vehicle =>
        let priority_lane := V.lane priority_vehicle in
        sort_by_key
          (fun lane => Z.abs (Lane_value lane - Lane_value priority_lane))
          adjacent_lanes
    | None => adjacent_lanes
    end in
  List.find _is_lane_clear_for_yield adjacent_lanes.

(** The test of [_check_priority_yield] on one vehicle: a priority
    vehicle other than ourselves that is behind, within 50 m, laterally
    within 3.5 m, and faster. *)
Definition must_yield_to (vehicle_obj : V.t) : bool :=
  negb (is_self vehicle_obj
        || negb (VehicleRole_eqb (V.role vehicle_obj) PRIORITY))
  && (let lateral_distance := Qabs (V.y vehicle_obj - V.y self_vehicle) in
      let longitudinal_distance := V.x self_vehicle - V.x vehicle_obj in
      (0 <? longitudinal_distance)
      && (longitudinal_distance <? 50)
      && (lateral_distance <? 3.5)
      && (V.velocity self_vehicle <? V.velocity vehicle_obj)).

(** [_check_priority_yield]: the loop returns at the first vehicle that
    passes the test. *)
Definition _check_priority_yield : option EnhancedVehicleAction :=
  match List.find must_yield_to vehicle_states with
  | Some vehicle_obj =>
      let make_space :=
        {| act_acceleration := -3;
           act_target_lane := None;
           act_emergency := false;
           act_reason :=
             ("Making space for priority vehicle "
              ++ V.id vehicle_obj)%string;
           act_priority_override := true |} in
      match _find_yield_lane with
      | Some target_lane =>
          if negb (Lane_eqb target_lane (V.lane self_vehicle)) then
            Some {| act_acceleration := -1;
                    act_target_lane := Some target_lane;
                    act_emergency := false;
                    act_reason :=
                      ("Yielding to priority vehicle "
                       ++ V.id vehicle_obj)%string;
                    act_priority_override := true |}
          else Some make_space
      | None => Some make_space
      end
  | None => None
  end.

(** [_compute_leader_action]. *)
Definition _compute_leader_action : EnhancedVehicleAction :=
  let target_velocity := 20 in
  let current_velocity := V.velocity self_vehicle in
  let velocity_error := target_velocity - current_velocity in
  {| act_acceleration := clip (velocity_error * 0.2) (-1) 1;
     act_target_lane := None;
     act_emergency := false;
     act_reason := "Leader maintaining speed";
     act_priority_override := false |}.

(** [_compute_follower_action]: the yield check again, then the
    following law on the closest vehicle ahead. *)
Definition _compute_follower_action : EnhancedVehicleAction :=
  match _check_priority_yield with
  | Some yield_action => yield_action
  | None =>
      match _find_closest_vehicle with
      | None =>
          {| act_acceleration := 0;
             act_target_lane := None;
             act_emergency := false;
             act_reason := "No vehicle ahead";
             act_priority_override := false |}
      | Some (closest_vehicle, distance, relative_velocity) =>
          let safe_distance :=
            _calculate_safe_distance relative_velocity in
          let '(acceleration, reason) :=
            if distance <? safe_distance * 0.9 then
              let gap_error := distance - safe_distance in
              (clip (gap_error * 0.3) max_braking 0,
               ("Maintaining distance to "
                ++ V.id closest_vehicle)%string)
            else if safe_distance * 1.3 <? distance then
              let gap_error := distance - safe_distance in
              (clip (gap_error * 0.05) 0 max_acceleration,
               ("Closing gap to " ++ V.id closest_vehicle)%string)
            else
              (0, ("Maintaining distance to "
                   ++ V.id closest_vehicle)%string)
          in
          {| act_acceleration := acceleration;
             act_target_lane := None;
             act_emergency := false;
             act_reason := reason;
             act_priority_override := false |}
      end
  end.

(** [compute_action]. *)
Definition compute_action (current_time : Q) : EnhancedVehicleAction :=
  match _check_emergency_ahead current_time with
  | Some emergency_action => emergency_action
  | None =>
      if VehicleRole_eqb (V.role self_vehicle) PRIORITY then
        _compute_priority_action
      else
        match _check_priority_yield with
        | Some yield_action => yield_action
        | None =>
            if VehicleRole_eqb (V.role self_vehicle) LEADER then
              _compute_leader_action
            else _compute_follower_action
        end
  end.

End Controller.

End EnhancedPlatooningController.

Module C := EnhancedPlatooningController.

(** ** [class EnhancedPlatooningSimulation] *)

Module EnhancedPlatooningSimulation.

(** The dictionary [_get_vehicle_state] returns: copies of fourteen
    attributes. *)
Record VehicleStateDict := mkVehicleStateDict {
  sd_id : string;
  sd_role : VehicleRole;
  sd_vehicle_type : VehicleType;
  sd_x : Q;
  sd_y : Q;
  sd_velocity : Q;
  sd_acceleration : Q;
  sd_lane : Lane;
  sd_is_changing_lane : bool;
  sd_length : Q;
  sd_width : Q;
  sd_color : string;
  sd_symbol : string;
  sd_emergency_braking : bool
}.

(** One value of the dictionary [_get_vehicle_states] returns:
    [{'object': vehicle, **state}].  ['object'] is a reference to the
    vehicle, here its position in [self.vehicles]; the rest is copied. *)
Record VehicleStateEntry := mkVehicleStateEntry {
  st_object : nat;
  st_state : VehicleStateDict
}.

(** One entry of [self.history].  [actions[vid]] holds the action twice, as
    the object and as [to_dict()] of it; one copy is kept here. *)
Record StepRecord := mkStepRecord {
  rec_time : Q;
  rec_vehicles : list (string * VehicleStateDict);
  rec_actions : gmap string EnhancedVehicleAction;
  rec_collisions : list (string * string)
}.

(** The attributes of the simulation.  [vehicles] is the dictionary
    [self.vehicles] in insertion order, each vehicle stored under its own
    [id].  [self.controllers] has the same keys in the same order, and the
    controller under a key holds the vehicle under that key, so it needs no
    field of its own. *)
Record t := mk {
  dt : Q;
  time : Q;
  vehicles : list V.t;
  history : list StepRecord;
  scenario : string;
  emergency_vehicle : option string;
  priority_vehicle : option string;
  emergency_triggered : bool;
  priority_added : bool
}.

(** [vehicle_id in self.vehicles]. *)
Definition has_key (vehicle_id : string) (vs : list V.t) : bool :=
  existsb (fun v => String.eqb (V.id v) vehicle_id) vs.

(** The effect of [vehicle = self.vehicles[vehicle_id]] followed by
    assignments [f] to attributes of [vehicle]. *)
Fixpoint alter_key (f : V.t -> V.t) (vehicle_id : string) (vs : list V.t)
  : list V.t :=
  match vs with
  | [] => []
  | v :: vs' =>
      if String.eqb (V.id v) vehicle_id then f v :: vs'
      else v :: alter_key f vehicle_id vs'
  end.

(** [_initialize_vehicles]. *)
Definition _initialize_vehicles (num_vehicles : nat) : list V.t :=
  let lanes := [RIGHT; MIDDLE; LEFT] in
  List.map (fun i =>
    match i with
    | O => V.init i LEADER NORMAL MIDDLE
    | _ => V.init i FOLLOWER NORMAL
             (List.nth (i mod 3) lanes MIDDLE)
    end) (seq 0 num_vehicles).

(** [__init__]. *)
Definition init (num_vehicles : nat) (dt0 : Q) (scenario0 : string) : t :=
  {| dt := dt0; time := 0;
     vehicles := _initialize_vehicles num_vehicles;
     history := [];
     scenario := scenario0;
     emergency_vehicle := None;
     priority_vehicle := None;
     emergency_triggered := false;
     priority_added := false |}.

(** [set_emergency_vehicle]. *)
Definition set_emergency_vehicle (self : t) (vehicle_id : string) : t :=
  if has_key vehicle_id (vehicles self) then
    {| dt := dt self; time := time self; vehicles := vehicles self;
       history := history self; scenario := scenario self;
       emergency_vehicle := Some vehicle_id;
       priority_vehicle := priority_vehicle self;
       emergency_triggered := emergency_triggered self;
       priority_added := priority_added self |}
  else self.

(** [set_priority_vehicle]. *)
Definition set_priority_vehicle (self : t) (vehicle_id : string) : t :=
  if has_key vehicle_id (vehicles self) && negb (priority_added self) then
    {| dt := dt self; time := time self;
       vehicles := alter_key V.make_priority vehicle_id (vehicles self);
       history := history self; scenario := scenario self;
       emergency_vehicle := emergency_vehicle self;
       priority_vehicle := Some vehicle_id;
       emergency_triggered := emergency_triggered self;
       priority_added := true |}
  else self.

(** Truth value of [self.emergency_vehicle]: [None] and the empty string
    are false. *)
Definition truthy (o : option string) : bool :=
  match o with
  | None => false
  | Some s => negb (String.eqb s "")
  end.

(** [trigger_emergency]: the returned flag and the new state; [None] is the
    [KeyError] of [self.vehicles[self.emergency_vehicle]].  The [print] is
    left out. *)
Definition trigger_emergency (self : t) : option (bool * t) :=
  match emergency_vehicle self with
  | Some ev =>
      if truthy (Some ev) && negb (emergency_triggered self) then
        if has_key ev (vehicles self) then
          Some (true,
                {| dt := dt self; time := time self;
                   vehicles :=
                     alter_key
                       (fun vehicle =>
                          V.trigger_emergency_braking vehicle (time self))
                       ev (vehicles self);
                   history := history self; scenario := scenario self;
                   emergency_vehicle := emergency_vehicle self;
                   priority_vehicle := priority_vehicle self;
                   emergency_triggered := true;
                   priority_added := priority_added self |})
        else None
      else Some (false, self)
  | None => Some (false, self)
  end.

(** [_get_vehicle_state], on the vehicle found under the key. *)
Definition _get_vehicle_state (vehicle : V.t) : VehicleStateDict :=
  {| sd_id := V.id vehicle;
     sd_role := V.role vehicle;
     sd_vehicle_type := V.vehicle_type vehicle;
     sd_x := V.x vehicle;
     sd_y := V.y vehicle;
     sd_velocity := V.velocity vehicle;
     sd_acceleration := V.acceleration vehicle;
     sd_lane := V.lane vehicle;
     sd_is_changing_lane := V.is_changing_lane vehicle;
     sd_length := V.length;
     sd_width := V.width;
     sd_color := V.color vehicle;
     sd_symbol := V.symbol vehicle;
     sd_emergency_braking := V.emergency_braking vehicle |}.

(** [_get_vehicle_states]. *)
Definition _get_vehicle_states (vs : list V.t)
  : list (string * VehicleStateEntry) :=
  imap (fun i vehicle =>
          (V.id vehicle,
           {| st_object := i; st_state := _get_vehicle_state vehicle |})) vs.

(** What the controllers see through [state['object']] when the vehicles
    are [heap]: the objects the entries refer to, in dictionary order. *)
Definition objects (heap : list V.t)
    (vehicle_states : list (string * VehicleStateEntry)) : list V.t :=
  omap (fun e => heap !! st_object (snd e)) vehicle_states.

(** The overlap test of [_check_collisions] on one pair. *)
Definition boxes_overlap (v1 v2 : V.t) : bool :=
  let '(x1_min, x1_max, y1_min, y1_max) := V.get_bounding_box v1 in
  let '(x2_min, x2_max, y2_min, y2_max) := V.get_bounding_box v2 in
  let margin := 0.3 in
  let x_overlap :=
    (x1_min - margin <? x2_max + margin)
    && (x2_min - margin <? x1_max + margin) in
  let y_overlap :=
    (y1_min - margin <? y2_max + margin)
    && (y2_min - margin <? y1_max + margin) in
  x_overlap && y_overlap.

(** [_check_collisions]: the pairs [(i, j)], [i < j], in loop order. *)
Fixpoint _check_collisions (vs : list V.t) : list (string * string) :=
  match vs with
  | [] => []
  | v1 :: rest =>
      List.map (fun v2 => (V.id v1, V.id v2))
               (List.filter (boxes_overlap v1) rest)
      ++ _check_collisions rest
  end.

(** The two statements of the first loop of [step] that write to the
    controller's vehicle: the acceleration, and the lane change when the
    action names a lane other than the current one.  ([Lane] is a plain
    [Enum], so every member is true in [if action.target_lane and ...],
    [RIGHT] with value 0 too.) *)
Definition apply_action (vehicle : V.t) (action : EnhancedVehicleAction)
  : V.t :=
  let vehicle := V.set_acceleration vehicle (act_acceleration action) in
  match act_target_lane action with
  | Some target_lane =>
      if negb (Lane_eqb target_lane (V.lane vehicle))
      then V.initiate_lane_change vehicle target_lane
      else vehicle
  | None => vehicle
  end.

(** The body of the first loop of [step] for the controller at position
    [i]: compute the action on the live objects, record it under the
    vehicle's key, and write to the vehicle. *)
Definition control (vehicle_states : list (string * VehicleStateEntry))
    (current_time : Q)
    (st : list V.t * gmap string EnhancedVehicleAction) (i : nat)
  : list V.t * gmap string EnhancedVehicleAction :=
  match fst st !! i with
  | Some vehicle =>
      let action :=
        C.compute_action vehicle (objects (fst st) vehicle_states)
          current_time in
      (<[i := apply_action vehicle action]> (fst st),
       <[V.id vehicle := action]> (snd st))
  | None => st
  end.

(** [step], with the controllers visited in the order [order]. *)
Definition step_in_order (order : list nat) (self : t) : t :=
  let vehicle_states := _get_vehicle_states (vehicles self) in
  let '(heap, actions) :=
    fold_left (control vehicle_states (time self)) order
              (vehicles self, ∅) in
  let heap := List.map (fun vehicle => V.update_position vehicle (dt self))
                       heap in
  let collisions := _check_collisions heap in
  {| dt := dt self;
     time := time self + dt self;
     vehicles := heap;
     history :=
       history self ++
       [ {| rec_time := time self;
            rec_vehicles :=
              List.map (fun v => (V.id v, _get_vehicle_state v)) heap;
            rec_actions := actions;
            rec_collisions := collisions |} ];
     scenario := scenario self;
     emergency_vehicle := emergency_vehicle self;
     priority_vehicle := priority_vehicle self;
     emergency_triggered := emergency_triggered self;
     priority_added := priority_added self |}.

(** [step]: [self.controllers.items()] is visited in insertion order. *)
Definition step (self : t) : t :=
  step_in_order (seq 0 (List.length (vehicles self))) self.

(** [reset]. *)
Definition reset (self : t) : t :=
  {| dt := dt self; time := 0;
     vehicles := _initialize_vehicles 4;
     history := [];
     scenario := scenario self;
     emergency_vehicle := None;
     priority_vehicle := None;
     emergency_triggered := false;
     priority_added := false |}.

(** The dictionary [get_safety_stats] returns.  The percentage is the float
    [100.0] for an empty history and an [int] otherwise; both are the
    integer here. *)
Record SafetyStats := mkSafetyStats {
  safety_percentage : Z;
  total_collisions : Z;
  emergency_events : Z
}.

(** [any(action_data['object'].emergency for ... in step['actions'].values())]. *)
Definition any_emergency (r : StepRecord) : bool :=
  existsb (fun kv => act_emergency (snd kv)) (map_to_list (rec_actions r)).

(** [get_safety_stats]. *)
Definition get_safety_stats (self : t) : SafetyStats :=
  match history self with
  | [] =>
      {| safety_percentage := 100; total_collisions := 0;
         emergency_events := 0 |}
  | _ =>
      let total_collisions0 :=
        fold_left Z.add
          (List.map (fun r => Z.of_nat (List.length (rec_collisions r)))
             (history self)) 0%Z in
      let emergency_events0 :=
        fold_left Z.add
          (List.map (fun _ => 1%Z) (List.filter any_emergency (history self)))
          0%Z in
      {| safety_percentage := Z.max 0 (100 - total_collisions0 * 20);
         total_collisions := total_collisions0;
         emergency_events := emergency_events0 |}
  end.

(** The body of the loop of [run] for the index [step]: one tick, then the
    scenario's automatic trigger.  [None] is the [KeyError] that
    [trigger_emergency] can raise. *)
Definition run_iteration (self : t) (step_index : nat) : option t :=
  let self := step self in
  if String.eqb (scenario self) "emergency" && Nat.eqb step_index 30
     && truthy (emergency_vehicle self) && negb (emergency_triggered self)
  then
    match trigger_emergency self with
    | Some (_, self') => Some self'
    | None => None
    end
  else if String.eqb (scenario self) "priority" && Nat.eqb step_index 20
          && truthy (priority_vehicle self) && negb (priority_added self)
  then
    match priority_vehicle self with
    | Some vehicle_id => Some (set_priority_vehicle self vehicle_id)
    | None => Some self
    end
  else Some self.

(** The loop of [run] over [range(total_steps)]. *)
Definition run_iterations (total_steps : nat) (self : t) : option t :=
  fold_left (fun acc step_index =>
               match acc with
               | Some s => run_iteration s step_index
               | None => None
               end)
    (seq 0 total_steps) (Some self).

(** [run].  [total_steps = int(duration / self.dt)], with the quotient taken
    exactly; a zero [dt] raises [ZeroDivisionError] ([None]), and a negative
    quotient gives an empty range. *)
Definition run (self : t) (duration : Q) : option t :=
  if Qeq_bool (dt self) 0 then None
  else run_iterations (Z.to_nat (Qfloor (duration / dt self))) self.

End EnhancedPlatooningSimulation.

Module Sim := EnhancedPlatooningSimulation.

(** * Vocabulary of the properties *)

(** A vehicle in the middle of lane [l] at abscissa [x0] that drives at
    [v0], not changing lane and not braking; for the examples. *)
Definition vehicle_at (i : nat) (r : VehicleRole) (l : Lane) (x0 v0 : Q)
  : V.t :=
  {| V.id := V.vehicle_key i; V.role := r; V.vehicle_type := NORMAL;
     V.lane := l; V.lane_target_y := _get_lane_center_y l;
     V.x := x0; V.y := _get_lane_center_y l;
     V.velocity := v0; V.acceleration := 0;
     V.color := "#4FC3F7"; V.symbol := "🚗";
     V.is_changing_lane := false; V.lane_change_progress := 0;
     V.previous_lane := l;
     V.emergency_braking := false; V.emergency_start_time := 0 |}.

(** ** The lane-change state machine of a vehicle *)

(** The two operations that touch the lane-change attributes. *)
Inductive lane_op :=
| Initiate (target_lane : Lane)
| Tick (dt : Q).

Definition apply_lane_op (v : V.t) (op : lane_op) : V.t :=
  match op with
  | Initiate target_lane => V.initiate_lane_change v target_lane
  | Tick dt => V.update_position v dt
  end.

Definition run_lane_ops (ops : list lane_op) (v : V.t) : V.t :=
  fold_left apply_lane_op ops v.

(** A time step is not negative. *)
Definition lane_op_ok (op : lane_op) : Prop :=
  match op with
  | Initiate _ => True
  | Tick dt => 0 <= dt
  end.

(** What [__init__] establishes and both operations keep: the target ordinate
    is the centre of [lane], and the progress is in [0, 1), and 0 when no
    change is in flight. *)
Definition lane_inv (v : V.t) : Prop :=
  V.lane_target_y v = _get_lane_center_y (V.lane v)
  /\ 0 <= V.lane_change_progress v
  /\ V.lane_change_progress v < 1
  /\ (V.is_changing_lane v = false -> V.lane_change_progress v = 0).

(** ** Vocabulary for the claims about the controller *)

(** The longitudinal gap [_find_closest_vehicle] measures to [vehicle_obj]. *)
Definition gap_to (self_vehicle vehicle_obj : V.t) : Q :=
  V.x vehicle_obj - V.x self_vehicle - V.length.

(** [vehicle_obj] is another vehicle, laterally within 4 m and ahead by more
    than one vehicle length: a candidate predecessor. *)
Definition ahead_candidate (self_vehicle vehicle_obj : V.t) : bool :=
  negb (C.is_self self_vehicle vehicle_obj)
  && (Qabs (V.y vehicle_obj - V.y self_vehicle) <? 4)
  && (0 <? gap_to self_vehicle vehicle_obj).

(** An accumulator of the search loop is empty or holds a candidate with its
    gap and relative velocity. *)
Definition closest_acc_ok (self_vehicle : V.t)
    (acc : option (V.t * Q * Q)) : Prop :=
  match acc with
  | None => True
  | Some (c, d, rv) =>
      d = gap_to self_vehicle c
      /\ rv = V.velocity c - V.velocity self_vehicle
      /\ ahead_candidate self_vehicle c = true
  end.

(** The platoon [__init__] builds for three vehicles. *)
Definition platoon3 : list V.t := Sim._initialize_vehicles 3.

(** ** Vocabulary for the claims about the simulation *)

(** The attributes of a vehicle that the first loop of [step] never writes. *)
Definition same_frame (v v' : V.t) : Prop :=
  V.id v' = V.id v
  /\ V.role v' = V.role v
  /\ V.vehicle_type v' = V.vehicle_type v
  /\ V.x v' = V.x v
  /\ V.y v' = V.y v
  /\ V.velocity v' = V.velocity v
  /\ V.emergency_braking v' = V.emergency_braking v
  /\ V.emergency_start_time v' = V.emergency_start_time v.

(** Same vehicle, same emergency state. *)
Definition same_emergency (v v' : V.t) : Prop :=
  V.id v' = V.id v
  /\ V.emergency_braking v' = V.emergency_braking v
  /\ V.emergency_start_time v' = V.emergency_start_time v.

(** The commands of the simulation other than [reset]. *)
Inductive sim_op :=
| OpStep
| OpSetEmergencyVehicle (vehicle_id : string)
| OpSetPriorityVehicle (vehicle_id : string)
| OpTriggerEmergency.

(** A [KeyError] leaves the simulation as it was. *)
Definition exec_op (s : Sim.t) (op : sim_op) : Sim.t :=
  match op with
  | OpStep => Sim.step s
  | OpSetEmergencyVehicle vehicle_id => Sim.set_emergency_vehicle s vehicle_id
  | OpSetPriorityVehicle vehicle_id => Sim.set_priority_vehicle s vehicle_id
  | OpTriggerEmergency =>
      match Sim.trigger_emergency s with
      | Some (_, s') => s'
      | None => s
      end
  end.

Definition run_ops (ops : list sim_op) (s : Sim.t) : Sim.t :=
  fold_left exec_op ops s.

(** The collision list of the record the last [step] appended. *)
Definition last_collisions (s : Sim.t) : option (list (string * string)) :=
  match last (Sim.history s) with
  | Some r => Some (Sim.rec_collisions r)
  | None => None
  end.

(** The action map of the record the last [step] appended. *)
Definition last_actions (s : Sim.t) : gmap string EnhancedVehicleAction :=
  match last (Sim.history s) with
  | Some r => Sim.rec_actions r
  | None => ∅
  end.

(** The safe gap between two vehicles holds: the one behind is the ego, and
    the gap from it to the one ahead is at least the safe distance of the
    safe-distance model. *)
Definition gap_maintained (a b : V.t) : Prop :=
  (V.x a <= V.x b ->
     SafetyMonitor._calculate_safe_distance (V.velocity a) (V.velocity b)
     <= gap_to a b)
  /\ (V.x b <= V.x a ->
        SafetyMonitor._calculate_safe_distance (V.velocity b) (V.velocity a)
        <= gap_to b a).

(** A simulation around a list of vehicles, nothing designated. *)
Definition sim_of (dt0 : Q) (vs : list V.t) : Sim.t :=
  {| Sim.dt := dt0; Sim.time := 0; Sim.vehicles := vs; Sim.history := [];
     Sim.scenario := "basic";
     Sim.emergency_vehicle := None; Sim.priority_vehicle := None;
     Sim.emergency_triggered := false; Sim.priority_added := false |}.

(** Three vehicles with the first designated for emergency braking, and the
    state after the trigger. *)
Definition emergency_armed : Sim.t :=
  Sim.set_emergency_vehicle (Sim.init 3 0.1 "emergency") "vehicle_0".

Definition emergency_fired : Sim.t :=
  match Sim.trigger_emergency emergency_armed with
  | Some (_, s1) => s1
  | None => emergency_armed
  end.

(** Leader ahead at rest, follower 122.5 m behind at 30 m/s, both in the
    middle lane, with a time step of 5 s. *)
Definition coarse_tick_state : Sim.t :=
  sim_of 5 [vehicle_at 0 LEADER MIDDLE 127 0;
            vehicle_at 1 FOLLOWER MIDDLE 0 30].

(** The default platoon of three, all 20.5 m apart, time step 0.1 s. *)
Definition platoon3_state : Sim.t := Sim.init 3 0.1 "basic".

(** A priority vehicle (key [vehicle_0]) at 22 m/s in the middle lane, a
    follower (key [vehicle_1]) 10 m ahead of it in the same lane at 20 m/s,
    and a follower (key [vehicle_2]) in the left lane 40 m ahead of the
    priority vehicle. *)
Definition yield_state : Sim.t :=
  {| Sim.dt := 0.1; Sim.time := 0;
     Sim.vehicles := [vehicle_at 0 PRIORITY MIDDLE 0 22;
                      vehicle_at 1 FOLLOWER MIDDLE 10 20;
                      vehicle_at 2 FOLLOWER LEFT 40 20];
     Sim.history := [];
     Sim.scenario := "priority";
     Sim.emergency_vehicle := None;
     Sim.priority_vehicle := Some "vehicle_0"%string;
     Sim.emergency_triggered := false;
     Sim.priority_added := true |}.

(** What the first loop leaves of a vehicle, as far as the kinematic update
    is concerned. *)
Definition commanded (v v' : V.t) : Prop :=
  V.x v' = V.x v /\ V.velocity v' = V.velocity v
  /\ V.acceleration v' <= C.max_acceleration.

(** Boolean versions, to check the hypotheses on a given state. *)
Definition gap_maintainedb (a b : V.t) : bool :=
  (if V.x a <=? V.x b
   then SafetyMonitor._calculate_safe_distance (V.velocity a) (V.velocity b)
        <=? gap_to a b
   else true)
  && (if V.x b <=? V.x a
      then SafetyMonitor._calculate_safe_distance (V.velocity b) (V.velocity a)
           <=? gap_to b a
      else true).

Fixpoint all_pairsb (R : V.t -> V.t -> bool) (l : list V.t) : bool :=
  match l with
  | [] => true
  | a :: l' => forallb (R a) l' && all_pairsb R l'
  end.

(** ** Vocabulary for the further properties *)

(** Neighbouring lanes: RIGHT and MIDDLE, MIDDLE and LEFT. *)
Definition adjacent (a b : Lane) : bool :=
  (Z.abs (Lane_value a - Lane_value b) =? 1)%Z.

(** The lateral position is where the lane-change state says: at the centre
    of [lane] when no change is in flight, and otherwise on the segment from
    the centre of [previous_lane] to the centre of [lane], at the fraction
    [lane_change_progress]. *)
Definition lateral_inv (v : V.t) : Prop :=
  if V.is_changing_lane v then
    V.y v == _get_lane_center_y (V.previous_lane v)
             + (_get_lane_center_y (V.lane v)
                - _get_lane_center_y (V.previous_lane v))
               * V.lane_change_progress v
  else V.y v = _get_lane_center_y (V.lane v).

(** The keys of the dictionary of vehicles are pairwise different: two
    positions with the same [id] are the same position. *)
Definition distinct_ids (vs : list V.t) : Prop :=
  forall (i j : nat) (a b : V.t),
    vs !! i = Some a -> vs !! j = Some b -> V.id a = V.id b -> i = j.

(** The attributes of a vehicle that no tick changes. *)
Definition same_identity (v v' : V.t) : Prop :=
  V.id v' = V.id v
  /\ V.role v' = V.role v
  /\ V.vehicle_type v' = V.vehicle_type v
  /\ V.emergency_braking v' = V.emergency_braking v
  /\ V.emergency_start_time v' = V.emergency_start_time v.

(** Commands of the simulation, [reset] included. *)
Inductive sim_cmd :=
| Cmd (op : sim_op)
| CmdReset.

Definition exec_cmd (s : Sim.t) (c : sim_cmd) : Sim.t :=
  match c with
  | Cmd op => exec_op s op
  | CmdReset => Sim.reset s
  end.

Definition run_cmds (cmds : list sim_cmd) (s : Sim.t) : Sim.t :=
  fold_left exec_cmd cmds s.

(** At most one vehicle has role [r]. *)
Definition unique_role (r : VehicleRole) (vs : list V.t) : Prop :=
  forall (i j : nat) (a b : V.t),
    vs !! i = Some a -> vs !! j = Some b ->
    V.role a = r -> V.role b = r -> i = j.

(** A vehicle in a state the constructor and the operations keep. *)
Definition vehicle_wf (v : V.t) : Prop :=
  V.id v <> ""%string
  /\ (0 <= V.velocity v <= 30)
  /\ lane_inv v
  /\ lateral_inv v.

(** A simulation in a state that the constructor establishes and every
    command keeps. *)
Definition sim_wf (s : Sim.t) : Prop :=
  0 <= Sim.dt s
  /\ distinct_ids (Sim.vehicles s)
  /\ Forall vehicle_wf (Sim.vehicles s)
  /\ unique_role LEADER (Sim.vehicles s)
  /\ unique_role PRIORITY (Sim.vehicles s)
  /\ match Sim.emergency_vehicle s with
     | Some ev => Sim.has_key ev (Sim.vehicles s) = true
     | None => True
     end
  /\ (if Sim.priority_added s
      then exists p, Sim.priority_vehicle s = Some p
                     /\ Exists (fun v => V.id v = p /\ V.role v = PRIORITY)
                          (Sim.vehicles s)
      else Sim.priority_vehicle s = None
           /\ Forall (fun v => V.role v <> PRIORITY) (Sim.vehicles s))
  /\ (Sim.emergency_triggered s = false ->
      Forall (fun v => V.emergency_braking v = false) (Sim.vehicles s)).

(** [n] ticks in a row. *)
Definition steps (n : nat) (s : Sim.t) : Sim.t :=
  run_ops (repeat OpStep n) s.

(** The sums [get_safety_stats] takes over a history. *)
Definition collisions_in (h : list Sim.StepRecord) : Z :=
  fold_left Z.add
    (List.map (fun r => Z.of_nat (List.length (Sim.rec_collisions r))) h) 0%Z.

Definition emergencies_in (h : list Sim.StepRecord) : Z :=
  fold_left Z.add
    (List.map (fun _ => 1%Z) (List.filter Sim.any_emergency h)) 0%Z.

(** ** Vocabulary for the properties of the core modules *)

(** [platoon_states] with the position and the velocity stored under key
    [k] replaced. *)
Definition replace_entry (platoon_states : PlatoonStates) (k : string)
    (position velocity : Q) : PlatoonStates :=
  List.map (fun e =>
              if String.eqb (fst e) k
              then (fst e, {| ps_position := position;
                              ps_velocity := velocity;
                              ps_timestamp := ps_timestamp (snd e) |})
              else e)
           platoon_states.

(** Some state of [platoon_states] is older than the communication delay
    allows at time [t]. *)
Definition stale (p : FormalPlatooningController.SafetyParameters)
    (platoon_states : PlatoonStates) (t : Q) : Prop :=
  exists k e, In (k, e) platoon_states
              /\ FormalPlatooningController.communication_delay p
                 < t - ps_timestamp e.

(** A follower two vehicles behind a leader, as the simulation of
    [environment.py] lays its platoon out. *)
Definition platoon_line : PlatoonStates :=
  [("vehicle_0"%string, mkPlatoonState 50 20 0);
   ("vehicle_1"%string, mkPlatoonState 35 18 0);
   ("vehicle_2"%string, mkPlatoonState 20 18 0)].

Definition follower_1 : FC.t :=
  FC.update_state (FC.init "vehicle_1" FC.FOLLOWER) 35 18 0.

(** * Properties *)

(** ** Numeric helpers *)

Lemma Qlt_bool_iff (a b : Q) : (a <? b) = true <-> a < b.
Proof.
  unfold Qlt_bool. rewrite negb_true_iff.
  destruct (Qle_bool b a) eqn:E.
  - apply Qle_bool_iff in E. split; [discriminate | intros H; lra].
  - split; [intros _ | reflexivity].
    destruct (Qlt_le_dec a b) as [Hlt | Hle]; [exact Hlt |].
    apply Qle_bool_iff in Hle. congruence.
Qed.

Lemma Qlt_bool_false_iff (a b : Q) : (a <? b) = false <-> b <= a.
Proof.
  unfold Qlt_bool. rewrite negb_false_iff. apply Qle_bool_iff.
Qed.

Lemma Qmax_zero_nonneg (x : Q) : 0 <= Qmax 0 x.
Proof. apply Q.le_max_l. Qed.

Lemma clip_le_hi (x lo hi : Q) : clip x lo hi <= hi.
Proof. unfold clip. apply Q.le_min_r. Qed.

Lemma clip_ge_lo (x lo hi : Q) : lo <= hi -> lo <= clip x lo hi.
Proof.
  intros H. unfold clip. apply Q.min_glb; [apply Q.le_max_r | exact H].
Qed.

Lemma Lane_eqb_eq (a b : Lane) : Lane_eqb a b = true <-> a = b.
Proof. destruct a, b; simpl; split; congruence. Qed.

Lemma Lane_eqb_refl (a : Lane) : Lane_eqb a a = true.
Proof. destruct a; reflexivity. Qed.

(** ** The safe-distance model *)

Section SafeDistance.

Import FormalPlatooningController.

(** For any parameter record with a non-zero maximum deceleration the
    controller's function returns the sum the formula names. *)
Lemma calculate_safe_distance_general (p : SafetyParameters)
    (v_ego v_pred : Q) :
  ~ max_deceleration p == 0 ->
  _calculate_safe_distance p v_ego v_pred =
    Some (v_ego * reaction_time p
          + Qmax 0 ((v_ego * v_ego) / (2 * max_deceleration p)
                    - (v_pred * v_pred) / (2 * max_deceleration p))
          + min_safe_distance p).
Proof.
  intros Hd. unfold _calculate_safe_distance.
  destruct (Qeq_bool (2 * max_deceleration p) 0) eqn:E; [| reflexivity].
  apply Qeq_bool_iff in E. exfalso. apply Hd. lra.
Qed.

(** C1.  For non-negative velocities the safe-distance function, both in the
    verified controller (which holds the default [SafetyParameters]) and in
    the safety monitor, returns [d_reaction + d_stopping +
    min_safe_distance] with [d_reaction = v_ego * reaction_time],
    [d_stop = v^2 / (2 * max_decel)] and [d_stopping = max(0, d_stop_ego -
    d_stop_pred)]; the result is at least [min_safe_distance]. *)
Theorem safe_distance_formula (v_ego v_pred : Q) :
  0 <= v_ego -> 0 <= v_pred ->
  let p := default_params in
  let d_reaction := v_ego * reaction_time p in
  let d_stop_ego := (v_ego * v_ego) / (2 * max_deceleration p) in
  let d_stop_pred := (v_pred * v_pred) / (2 * max_deceleration p) in
  let d_stopping := Qmax 0 (d_stop_ego - d_stop_pred) in
  _calculate_safe_distance p v_ego v_pred
    = Some (d_reaction + d_stopping + min_safe_distance p)
  /\ SafetyMonitor._calculate_safe_distance v_ego v_pred
    = d_reaction + d_stopping + min_safe_distance p
  /\ min_safe_distance p <= d_reaction + d_stopping + min_safe_distance p.
Proof.
  intros He Hp. cbv zeta. split; [| split].
  - apply calculate_safe_distance_general. simpl. lra.
  - reflexivity.
  - pose proof (Qmax_zero_nonneg
      ((v_ego * v_ego) / (2 * max_deceleration default_params)
       - (v_pred * v_pred) / (2 * max_deceleration default_params))) as Hm.
    simpl in *. lra.
Qed.

Lemma safe_distance_formula_witness :
  _calculate_safe_distance default_params 20 15 = Some (20 * 0.2
    + Qmax 0 ((20 * 20) / (2 * 4) - (15 * 15) / (2 * 4)) + 3)
  /\ SafetyMonitor._calculate_safe_distance 20 15 = 20 * 0.2
    + Qmax 0 ((20 * 20) / (2 * 4) - (15 * 15) / (2 * 4)) + 3
  /\ 3 <= 20 * 0.2 + Qmax 0 ((20 * 20) / (2 * 4) - (15 * 15) / (2 * 4)) + 3.
Proof.
  apply (safe_distance_formula 20 15); lra.
Defined.

(** C2, as stated, fails: at 20 m/s behind a vehicle at 20 m/s the
    simulation's controller asks for 60 m, the verified controller and the
    monitor for 7 m. *)
Lemma safe_distance_not_shared :
  let ego := vehicle_at 1 FOLLOWER MIDDLE 0 20 in
  C._calculate_safe_distance ego (20 - 20) == 60
  /\ SafetyMonitor._calculate_safe_distance 20 20 == 7
  /\ ~ (forall (self_vehicle : V.t) (v_pred : Q),
          C._calculate_safe_distance self_vehicle
            (v_pred - V.velocity self_vehicle)
          == SafetyMonitor._calculate_safe_distance
               (V.velocity self_vehicle) v_pred).
Proof.
  cbv zeta. split; [reflexivity | split; [reflexivity |]].
  intros H. specialize (H (vehicle_at 1 FOLLOWER MIDDLE 0 20) 20).
  vm_compute in H. discriminate H.
Qed.

(** C2, amended.  The verified controller (with the default parameters it
    is built with) and the safety monitor compute the same value on every
    pair of velocities; the simulation's controller computes
    [min_distance + max(0, v_ego) * safe_time_gap], whatever its argument. *)
Theorem safe_distance_shared_by_core (v_ego v_pred : Q) :
  _calculate_safe_distance default_params v_ego v_pred
    = Some (SafetyMonitor._calculate_safe_distance v_ego v_pred)
  /\ forall (self_vehicle : V.t) (relative_velocity : Q),
       C._calculate_safe_distance self_vehicle relative_velocity
       = 10 + Qmax 0 (V.velocity self_vehicle) * 2.5.
Proof.
  split; [reflexivity | intros; reflexivity].
Qed.

End SafeDistance.

(** ** Kinematic update and the lane-change state machine *)

Lemma update_position_velocity (v : V.t) (dt : Q) :
  V.velocity (V.update_position v dt)
  = Qmax 0 (Qmin (V.velocity v + V.acceleration v * dt) 30).
Proof.
  unfold V.update_position.
  destruct (V.is_changing_lane v); [| reflexivity].
  destruct (1 <=? _); reflexivity.
Qed.

Lemma update_position_x (v : V.t) (dt : Q) :
  V.x (V.update_position v dt)
  = V.x v + V.velocity (V.update_position v dt) * dt.
Proof.
  unfold V.update_position.
  destruct (V.is_changing_lane v); [| reflexivity].
  destruct (1 <=? _); reflexivity.
Qed.

Lemma update_position_velocity_bounds (v : V.t) (dt : Q) :
  0 <= V.velocity (V.update_position v dt) <= 30.
Proof.
  rewrite update_position_velocity. split.
  - apply Q.le_max_l.
  - apply Q.max_lub; [lra | apply Q.le_min_r].
Qed.

Lemma lane_inv_init (i : nat) (r : VehicleRole) (ty : VehicleType) (l : Lane) :
  lane_inv (V.init i r ty l).
Proof.
  unfold lane_inv, V.init; simpl. repeat split; try reflexivity; lra.
Qed.

Lemma lane_inv_initiate (v : V.t) (target_lane : Lane) :
  lane_inv v -> lane_inv (V.initiate_lane_change v target_lane).
Proof.
  intros Hinv. unfold V.initiate_lane_change.
  destruct (negb (V.is_changing_lane v) && negb (Lane_eqb target_lane (V.lane v)));
    [| exact Hinv].
  unfold lane_inv; simpl. repeat split; try reflexivity; lra.
Qed.

Lemma lane_inv_update (v : V.t) (dt : Q) :
  0 <= dt -> lane_inv v -> lane_inv (V.update_position v dt).
Proof.
  intros Hdt (Hy & H0 & H1 & Hs). unfold V.update_position.
  destruct (V.is_changing_lane v) eqn:Hc.
  - destruct (1 <=? _) eqn:Hp; unfold lane_inv; simpl.
    + repeat split; try assumption; try reflexivity; lra.
    + assert (V.lane_change_progress v + V.lane_change_speed * dt < 1) as Hlt.
      { destruct (Qlt_le_dec (V.lane_change_progress v + V.lane_change_speed * dt) 1)
          as [Hlt | Hle]; [exact Hlt |].
        apply Qle_bool_iff in Hle. congruence. }
      unfold V.lane_change_speed in *.
      repeat split; try assumption; try lra; try discriminate.
  - unfold lane_inv; simpl. repeat split; assumption.
Qed.

Lemma lane_inv_run (ops : list lane_op) (v : V.t) :
  Forall lane_op_ok ops -> lane_inv v -> lane_inv (run_lane_ops ops v).
Proof.
  intros Hok. revert v. induction Hok as [| op ops Hop _ IH]; intros v Hinv.
  - exact Hinv.
  - simpl. apply IH. destruct op as [l | dt]; simpl.
    + apply lane_inv_initiate, Hinv.
    + apply lane_inv_update; assumption.
Qed.

(** C7.  From any vehicle as constructed (any state satisfying [lane_inv]),
    after any sequence of lane-change requests and ticks: a request made
    while a change is in flight changes nothing; a tick during a change adds
    [lane_change_speed * dt] to the progress, which does not decrease; the
    change ends exactly when the new progress is at least 1, and then the
    flag is cleared, the progress is 0 and the vehicle sits at the centre of
    its lane, the lane that was requested; a tick outside a change leaves
    flag, progress and lane alone. *)
Theorem lane_change_state_machine (ops : list lane_op) (v0 : V.t) :
  lane_inv v0 -> Forall lane_op_ok ops ->
  let v := run_lane_ops ops v0 in
  lane_inv v
  /\ (forall target_lane,
        (V.is_changing_lane v = true ->
           V.initiate_lane_change v target_lane = v)
        /\ (V.is_changing_lane v = false -> target_lane <> V.lane v ->
              let v' := V.initiate_lane_change v target_lane in
              V.is_changing_lane v' = true
              /\ V.lane_change_progress v' = 0
              /\ V.lane v' = target_lane
              /\ V.previous_lane v' = V.lane v
              /\ V.lane_target_y v' = _get_lane_center_y target_lane))
  /\ (forall dt, 0 <= dt ->
        let v' := V.update_position v dt in
        let progress := V.lane_change_progress v + V.lane_change_speed * dt in
        V.lane v' = V.lane v
        /\ (V.is_changing_lane v = true ->
              V.lane_change_progress v <= progress
              /\ (progress < 1 ->
                    V.is_changing_lane v' = true
                    /\ V.lane_change_progress v' = progress)
              /\ (1 <= progress ->
                    V.is_changing_lane v' = false
                    /\ V.lane_change_progress v' = 0
                    /\ V.y v' = _get_lane_center_y (V.lane v)))
        /\ (V.is_changing_lane v = false ->
              V.is_changing_lane v' = false
              /\ V.lane_change_progress v' = 0
              /\ V.y v' = V.y v)).
Proof.
  intros Hinv Hok v.
  assert (lane_inv v) as Hv by (apply lane_inv_run; assumption).
  clearbody v. clear Hinv Hok v0 ops.
  split; [exact Hv |]. destruct Hv as (Hy & H0 & H1 & Hs). split.
  - intros target_lane. split.
    + intros Hc. unfold V.initiate_lane_change. rewrite Hc. reflexivity.
    + intros Hc Hne. unfold V.initiate_lane_change. rewrite Hc.
      destruct (Lane_eqb target_lane (V.lane v)) eqn:E.
      * apply Lane_eqb_eq in E. contradiction.
      * simpl. repeat split.
  - intros dt Hdt. cbv zeta. unfold V.update_position.
    destruct (V.is_changing_lane v) eqn:Hc.
    + destruct (1 <=? _) eqn:Hp; simpl.
      * apply Qle_bool_iff in Hp.
        split; [reflexivity |]. split; [| discriminate].
        intros _. unfold V.lane_change_speed in *.
        split; [lra |]. split; [intros Hlt; lra |].
        intros _. rewrite Hy. repeat split.
      * assert (V.lane_change_progress v + V.lane_change_speed * dt < 1) as Hlt.
        { apply Qlt_bool_iff. unfold Qlt_bool. rewrite Hp. reflexivity. }
        split; [reflexivity |]. split; [| discriminate].
        intros _. unfold V.lane_change_speed in *.
        split; [lra |]. split; [intros _; split; reflexivity |].
        intros Hge. lra.
    + simpl. split; [reflexivity |]. split; [discriminate |].
      intros _. rewrite (Hs eq_refl). repeat split.
Qed.

Lemma lane_change_state_machine_witness :
  let v := run_lane_ops [Initiate LEFT; Tick 0.1; Initiate RIGHT; Tick 0.1]
             (V.init 1 FOLLOWER NORMAL MIDDLE) in
  V.is_changing_lane v = true
  /\ V.lane v = LEFT
  /\ V.initiate_lane_change v RIGHT = v
  /\ V.lane_change_progress (V.update_position v 0.1)
     = V.lane_change_progress v + V.lane_change_speed * 0.1.
Proof.
  cbv zeta.
  destruct (lane_change_state_machine
              [Initiate LEFT; Tick 0.1; Initiate RIGHT; Tick 0.1]
              (V.init 1 FOLLOWER NORMAL MIDDLE)) as (_ & Hi & Ht).
  - apply lane_inv_init.
  - repeat constructor; simpl; lra.
  - split; [reflexivity |]. split; [reflexivity |]. split.
    + apply (Hi RIGHT). reflexivity.
    + destruct (Ht 0.1) as (_ & Hc & _); [lra |].
      destruct (Hc eq_refl) as (_ & Hlt & _).
      apply Hlt. vm_compute. reflexivity.
Defined.

(** ** Precedence of the branches of [compute_action] *)

Lemma check_emergency_ahead_flag (self_vehicle : V.t) (vs : list V.t)
    (t : Q) (a : EnhancedVehicleAction) :
  C._check_emergency_ahead self_vehicle vs t = Some a -> act_emergency a = true.
Proof.
  unfold C._check_emergency_ahead.
  destruct (C._find_closest_vehicle self_vehicle vs) as [[[c d] rv] |];
    [| discriminate].
  destruct (V.emergency_braking c); [| discriminate].
  destruct (d <? _); [| discriminate].
  destruct (C._evaluate_emergency_lane_change _ _ _ _);
    intros H; injection H as <-; reflexivity.
Qed.

Lemma check_priority_yield_flag (self_vehicle : V.t) (vs : list V.t)
    (a : EnhancedVehicleAction) :
  C._check_priority_yield self_vehicle vs = Some a ->
  act_priority_override a = true.
Proof.
  unfold C._check_priority_yield.
  destruct (List.find _ vs) as [p |]; [| discriminate].
  destruct (C._find_yield_lane self_vehicle vs) as [l |].
  - destruct (negb _); intros H; injection H as <-; reflexivity.
  - intros H; injection H as <-; reflexivity.
Qed.

(** C5.  [compute_action] returns the result of the first branch that
    applies: the emergency-ahead action (whose [emergency] flag is set) if
    that check yields one; otherwise the priority self-action if the role is
    Priority; otherwise the yield action (whose [priority_override] flag is
    set) if that check yields one; otherwise the leader action for a Leader
    and the follower action for a Follower. *)
Theorem compute_action_precedence (self_vehicle : V.t) (vs : list V.t) (t : Q) :
  match C._check_emergency_ahead self_vehicle vs t with
  | Some emergency_action =>
      C.compute_action self_vehicle vs t = emergency_action
      /\ act_emergency emergency_action = true
  | None =>
      match V.role self_vehicle with
      | PRIORITY =>
          C.compute_action self_vehicle vs t
          = C._compute_priority_action self_vehicle vs
      | r =>
          match C._check_priority_yield self_vehicle vs with
          | Some yield_action =>
              C.compute_action self_vehicle vs t = yield_action
              /\ act_priority_override yield_action = true
          | None =>
              C.compute_action self_vehicle vs t
              = match r with
                | LEADER => C._compute_leader_action self_vehicle
                | _ => C._compute_follower_action self_vehicle vs
                end
          end
      end
  end.
Proof.
  unfold C.compute_action.
  destruct (C._check_emergency_ahead self_vehicle vs t) as [ea |] eqn:He.
  - split; [reflexivity | eapply check_emergency_ahead_flag; eassumption].
  - destruct (V.role self_vehicle) eqn:Hr; simpl.
    + destruct (C._check_priority_yield self_vehicle vs) as [ya |] eqn:Hy.
      * split; [reflexivity | eapply check_priority_yield_flag; eassumption].
      * reflexivity.
    + destruct (C._check_priority_yield self_vehicle vs) as [ya |] eqn:Hy.
      * split; [reflexivity | eapply check_priority_yield_flag; eassumption].
      * reflexivity.
    + reflexivity.
Qed.

(** ** The follower control law *)

Section ClosestVehicle.

Variable self_vehicle : V.t.

Lemma closest_step_spec (acc : option (V.t * Q * Q)) (o : V.t) :
  closest_acc_ok self_vehicle acc ->
  let r := C.closest_step self_vehicle acc o in
  closest_acc_ok self_vehicle r
  /\ match r with
     | None => acc = None /\ ahead_candidate self_vehicle o = false
     | Some (c, d, rv) =>
         (c = o \/ acc = Some (c, d, rv))
         /\ (ahead_candidate self_vehicle o = true -> d <= gap_to self_vehicle o)
         /\ (forall c0 d0 r0, acc = Some (c0, d0, r0) -> d <= d0)
     end.
Proof.
  intros Hacc. cbv zeta.
  assert (ahead_candidate self_vehicle o = false ->
          closest_acc_ok self_vehicle acc
          /\ match acc with
             | None => acc = None /\ ahead_candidate self_vehicle o = false
             | Some (c, d, rv) =>
                 (c = o \/ acc = Some (c, d, rv))
                 /\ (ahead_candidate self_vehicle o = true ->
                     d <= gap_to self_vehicle o)
                 /\ (forall c0 d0 r0, acc = Some (c0, d0, r0) -> d <= d0)
             end) as Hkeep.
  { intros Hno. split; [exact Hacc |]. destruct acc as [[[c d] rv] |].
    - split; [right; reflexivity |]. split; [rewrite Hno; discriminate |].
      intros c0 d0 r0 H. injection H as _ <- _. lra.
    - split; [reflexivity | exact Hno]. }
  unfold C.closest_step. fold (gap_to self_vehicle o).
  destruct (C.is_self self_vehicle o) eqn:Hs.
  { apply Hkeep. unfold ahead_candidate. rewrite Hs. reflexivity. }
  destruct (Qabs (V.y o - V.y self_vehicle) <? 4) eqn:Hl.
  2:{ apply Hkeep. unfold ahead_candidate. rewrite Hs, Hl. reflexivity. }
  destruct (0 <? gap_to self_vehicle o) eqn:Hg.
  2:{ apply Hkeep. unfold ahead_candidate. rewrite Hs, Hl, Hg. reflexivity. }
  clear Hkeep. cbn [andb negb].
  assert (ahead_candidate self_vehicle o = true) as Hcand.
  { unfold ahead_candidate. rewrite Hs, Hl, Hg. reflexivity. }
  destruct acc as [[[c d] rv] |].
  - destruct (gap_to self_vehicle o <? d) eqn:Hd.
    + apply Qlt_bool_iff in Hd. split.
      * repeat split. exact Hcand.
      * split; [left; reflexivity |]. split; [intros _; lra |].
        intros c0 d0 r0 H. injection H as _ <- _. lra.
    + apply Qlt_bool_false_iff in Hd. split; [exact Hacc |].
      split; [right; reflexivity |]. split; [intros _; exact Hd |].
      intros c0 d0 r0 H. injection H as _ <- _. lra.
  - split.
    + repeat split. exact Hcand.
    + split; [left; reflexivity |]. split; [intros _; lra |]. discriminate.
Qed.

Lemma closest_fold_spec (vs : list V.t) (acc : option (V.t * Q * Q)) :
  closest_acc_ok self_vehicle acc ->
  let r := fold_left (C.closest_step self_vehicle) vs acc in
  closest_acc_ok self_vehicle r
  /\ match r with
     | None =>
         acc = None /\ Forall (fun o => ahead_candidate self_vehicle o = false) vs
     | Some (c, d, rv) =>
         (In c vs \/ acc = Some (c, d, rv))
         /\ Forall (fun o => ahead_candidate self_vehicle o = true ->
                             d <= gap_to self_vehicle o) vs
         /\ (forall c0 d0 r0, acc = Some (c0, d0, r0) -> d <= d0)
     end.
Proof.
  revert acc. induction vs as [| o vs IH]; intros acc Hacc; cbv zeta.
  - simpl. split; [exact Hacc |]. destruct acc as [[[c d] rv] |].
    + split; [right; reflexivity |]. split; [constructor |].
      intros c0 d0 r0 H. injection H as _ <- _. lra.
    + split; [reflexivity | constructor].
  - simpl fold_left.
    destruct (closest_step_spec acc o Hacc) as [Hok1 Hstep].
    destruct (IH _ Hok1) as [Hok Hrest]. split; [exact Hok |].
    destruct (fold_left _ vs _) as [[[c d] rv] |].
    + destruct Hrest as (Hin & Hall & Hle).
      destruct (C.closest_step self_vehicle acc o) as [[[c1 d1] rv1] |] eqn:E1.
      * destruct Hstep as (Hor & Ho & Hacc0).
        specialize (Hle _ _ _ eq_refl).
        split; [| split].
        -- destruct Hin as [Hin | Heq]; [left; right; exact Hin |].
           injection Heq as -> -> ->.
           destruct Hor as [-> | ->]; [left; left; reflexivity | right; reflexivity].
        -- constructor; [intros Hc; specialize (Ho Hc); lra | exact Hall].
        -- intros c0 d0 r0 H. specialize (Hacc0 _ _ _ H). lra.
      * destruct Hstep as [-> Ho]. split; [| split].
        -- destruct Hin as [Hin | Heq]; [left; right; exact Hin | discriminate].
        -- constructor; [rewrite Ho; discriminate | exact Hall].
        -- discriminate.
    + destruct Hrest as [E1 Hall]. rewrite E1 in Hstep.
      destruct Hstep as [-> Ho]. split; [reflexivity |].
      constructor; assumption.
Qed.

Lemma find_closest_vehicle_spec (vs : list V.t) :
  match C._find_closest_vehicle self_vehicle vs with
  | None => Forall (fun o => ahead_candidate self_vehicle o = false) vs
  | Some (c, d, rv) =>
      In c vs
      /\ ahead_candidate self_vehicle c = true
      /\ d = gap_to self_vehicle c
      /\ rv = V.velocity c - V.velocity self_vehicle
      /\ Forall (fun o => ahead_candidate self_vehicle o = true ->
                          d <= gap_to self_vehicle o) vs
  end.
Proof.
  unfold C._find_closest_vehicle.
  destruct (closest_fold_spec vs None I) as [Hok H].
  destruct (fold_left _ vs None) as [[[c d] rv] |].
  - destruct H as (Hin & Hall & _). destruct Hok as (Hd & Hrv & Hc).
    destruct Hin as [Hin | Heq]; [| discriminate].
    repeat split; assumption.
  - apply H.
Qed.

End ClosestVehicle.

(** C6.  When the follower action is reached (the yield check does not
    apply): if no other vehicle is laterally within the threshold and ahead,
    the action is acceleration 0 with reason "No vehicle ahead"; otherwise
    the gap is the one to the nearest such vehicle, and with [safe] the safe
    distance the acceleration is [clip((gap - safe) * 0.3, max_braking, 0)]
    if [gap < 0.9 * safe], [clip((gap - safe) * 0.05, 0, max_acceleration)]
    if [gap > 1.3 * safe], and 0 in between.  [compute_action] returns this
    action for a Follower when no emergency action applies. *)
Theorem follower_hysteresis (self_vehicle : V.t) (vs : list V.t) :
  C._check_priority_yield self_vehicle vs = None ->
  let a := C._compute_follower_action self_vehicle vs in
  match C._find_closest_vehicle self_vehicle vs with
  | None =>
      Forall (fun o => ahead_candidate self_vehicle o = false) vs
      /\ a = {| act_acceleration := 0; act_target_lane := None;
                act_emergency := false; act_reason := "No vehicle ahead";
                act_priority_override := false |}
  | Some (pred, gap, rv) =>
      In pred vs
      /\ ahead_candidate self_vehicle pred = true
      /\ gap = gap_to self_vehicle pred
      /\ Forall (fun o => ahead_candidate self_vehicle o = true ->
                          gap <= gap_to self_vehicle o) vs
      /\ let safe := C._calculate_safe_distance self_vehicle rv in
         act_target_lane a = None
         /\ act_emergency a = false
         /\ (gap < 0.9 * safe ->
               act_acceleration a = clip ((gap - safe) * 0.3) C.max_braking 0
               /\ C.max_braking <= act_acceleration a <= 0)
         /\ (1.3 * safe < gap ->
               act_acceleration a
               = clip ((gap - safe) * 0.05) 0 C.max_acceleration
               /\ 0 <= act_acceleration a <= C.max_acceleration)
         /\ (0.9 * safe <= gap <= 1.3 * safe -> act_acceleration a = 0)
  end
  /\ (forall t, C._check_emergency_ahead self_vehicle vs t = None ->
                V.role self_vehicle = FOLLOWER ->
                C.compute_action self_vehicle vs t = a).
Proof.
  intros Hy. cbv zeta. split.
  - pose proof (find_closest_vehicle_spec self_vehicle vs) as Hspec.
    unfold C._compute_follower_action. rewrite Hy.
    destruct (C._find_closest_vehicle self_vehicle vs) as [[[pred gap] rv] |].
    + destruct Hspec as (Hin & Hc & Hd & Hrv & Hall).
      repeat (split; [assumption |]).
      assert (10 <= C._calculate_safe_distance self_vehicle rv) as Hsafe.
      { unfold C._calculate_safe_distance, C.min_distance, C.safe_time_gap.
        pose proof (Qmax_zero_nonneg (V.velocity self_vehicle)). lra. }
      set (safe := C._calculate_safe_distance self_vehicle rv) in *.
      destruct (gap <? safe * 0.9) eqn:E1.
      * apply Qlt_bool_iff in E1.
        cbn [act_acceleration act_target_lane act_emergency].
        split; [reflexivity |]. split; [reflexivity |]. split; [| split].
        -- intros _. split; [reflexivity |]. split.
           ++ apply clip_ge_lo. unfold C.max_braking. lra.
           ++ apply clip_le_hi.
        -- intros H. lra.
        -- intros H. lra.
      * apply Qlt_bool_false_iff in E1.
        destruct (safe * 1.3 <? gap) eqn:E2.
        -- apply Qlt_bool_iff in E2.
           cbn [act_acceleration act_target_lane act_emergency].
           split; [reflexivity |]. split; [reflexivity |]. split; [| split].
           ++ intros H. lra.
           ++ intros _. split; [reflexivity |]. split.
              ** apply clip_ge_lo. unfold C.max_acceleration. lra.
              ** apply clip_le_hi.
           ++ intros H. lra.
        -- apply Qlt_bool_false_iff in E2.
           cbn [act_acceleration act_target_lane act_emergency].
           split; [reflexivity |]. split; [reflexivity |]. split; [| split].
           ++ intros H. lra.
           ++ intros H. lra.
           ++ intros _. reflexivity.
    + split; [exact Hspec | reflexivity].
  - intros t He Hr. unfold C.compute_action. rewrite He, Hr, Hy. reflexivity.
Qed.

Lemma follower_hysteresis_witness :
  let self_vehicle := vehicle_at 1 FOLLOWER MIDDLE 25 20 in
  C._check_priority_yield self_vehicle platoon3 = None
  /\ act_acceleration (C._compute_follower_action self_vehicle platoon3)
     = clip ((gap_to self_vehicle (V.init 0 LEADER NORMAL MIDDLE)
              - C._calculate_safe_distance self_vehicle 0) * 0.3)
            C.max_braking 0.
Proof.
  cbv zeta. split; [reflexivity |].
  pose proof (follower_hysteresis (vehicle_at 1 FOLLOWER MIDDLE 25 20)
                platoon3 eq_refl) as [H _].
  change (C._find_closest_vehicle (vehicle_at 1 FOLLOWER MIDDLE 25 20) platoon3)
    with (Some (V.init 0 LEADER NORMAL MIDDLE,
                gap_to (vehicle_at 1 FOLLOWER MIDDLE 25 20)
                       (V.init 0 LEADER NORMAL MIDDLE),
                V.velocity (V.init 0 LEADER NORMAL MIDDLE)
                - V.velocity (vehicle_at 1 FOLLOWER MIDDLE 25 20))) in H.
  destruct H as (_ & _ & _ & _ & _ & _ & Hb & _).
  apply Hb. vm_compute. reflexivity.
Defined.

(** ** External triggers *)

Lemma alter_key_has_key (f : V.t -> V.t) (k k' : string) (vs : list V.t) :
  (forall v, V.id (f v) = V.id v) ->
  Sim.has_key k' (Sim.alter_key f k vs) = Sim.has_key k' vs.
Proof.
  intros Hf. induction vs as [| v vs IH]; [reflexivity |].
  simpl. destruct (String.eqb (V.id v) k); simpl.
  - rewrite Hf. reflexivity.
  - rewrite IH. reflexivity.
Qed.

(** C9.  A call of [trigger_emergency] that follows a successful one returns
    [False] and leaves the simulation as it was; so does every later call.
    Once a priority vehicle has been assigned, [set_priority_vehicle] changes
    nothing, whatever its argument; in particular a second assignment after a
    first one that took effect is a no-op. *)
Theorem external_triggers_idempotent :
  (forall s s1, Sim.trigger_emergency s = Some (true, s1) ->
     Sim.emergency_triggered s1 = true
     /\ Sim.trigger_emergency s1 = Some (false, s1))
  /\ (forall s vehicle_id, Sim.priority_added s = true ->
        Sim.set_priority_vehicle s vehicle_id = s)
  /\ (forall s first second,
        Sim.has_key first (Sim.vehicles s) = true ->
        Sim.priority_added s = false ->
        let s1 := Sim.set_priority_vehicle s first in
        Sim.priority_added s1 = true
        /\ Sim.priority_vehicle s1 = Some first
        /\ Sim.set_priority_vehicle s1 second = s1).
Proof.
  split; [| split].
  - intros s s1 H. unfold Sim.trigger_emergency in H.
    destruct (Sim.emergency_vehicle s) as [ev |] eqn:Hev; [| discriminate].
    destruct (Sim.truthy (Some ev) && negb (Sim.emergency_triggered s)) eqn:Hc;
      [| discriminate].
    destruct (Sim.has_key ev (Sim.vehicles s)); [| discriminate].
    injection H as <-. split; [reflexivity |].
    unfold Sim.trigger_emergency; simpl.
    rewrite andb_false_r. reflexivity.
  - intros s vehicle_id Hp. unfold Sim.set_priority_vehicle.
    rewrite Hp, andb_false_r. reflexivity.
  - intros s first second Hk Hp. cbv zeta.
    unfold Sim.set_priority_vehicle at 1 2 4. rewrite Hk, Hp. simpl.
    split; [reflexivity |]. split; [reflexivity |].
    unfold Sim.set_priority_vehicle. rewrite Hk, Hp. simpl.
    rewrite andb_false_r. reflexivity.
Qed.

Lemma external_triggers_idempotent_witness :
  Sim.trigger_emergency emergency_fired = Some (false, emergency_fired)
  /\ Sim.set_priority_vehicle
       (Sim.set_priority_vehicle platoon3_state "vehicle_1") "vehicle_2"
     = Sim.set_priority_vehicle platoon3_state "vehicle_1".
Proof.
  destruct external_triggers_idempotent as (Ht & _ & Hp). split.
  - apply (Ht emergency_armed emergency_fired). reflexivity.
  - apply (Hp platoon3_state "vehicle_1"%string "vehicle_2"%string);
      reflexivity.
Defined.

(** ** The first loop of [step] *)

Lemma same_frame_refl (v : V.t) : same_frame v v.
Proof. repeat split. Qed.

Lemma same_frame_trans (a b c : V.t) :
  same_frame a b -> same_frame b c -> same_frame a c.
Proof.
  unfold same_frame. intros H1 H2.
  destruct H1 as (?&?&?&?&?&?&?&?), H2 as (?&?&?&?&?&?&?&?).
  repeat split; congruence.
Qed.

Lemma Forall2_rel_trans {A : Type} (R : A -> A -> Prop) (l1 l2 l3 : list A) :
  (forall a b c, R a b -> R b c -> R a c) ->
  Forall2 R l1 l2 -> Forall2 R l2 l3 -> Forall2 R l1 l3.
Proof.
  intros HR H12. revert l3.
  induction H12 as [| a b l1 l2 Hab _ IH]; intros l3 H23;
    inversion H23; subst; constructor; eauto.
Qed.

Lemma Forall2_rel_refl {A : Type} (R : A -> A -> Prop) (l : list A) :
  (forall a, R a a) -> Forall2 R l l.
Proof. intros HR. induction l; constructor; auto. Qed.

Lemma apply_action_frame (v : V.t) (a : EnhancedVehicleAction) :
  same_frame v (Sim.apply_action v a).
Proof.
  unfold Sim.apply_action.
  destruct (act_target_lane a) as [l |]; [| repeat split].
  destruct (negb _); [| repeat split].
  unfold V.initiate_lane_change.
  destruct (_ && _); repeat split.
Qed.

Lemma apply_action_acceleration (v : V.t) (a : EnhancedVehicleAction) :
  V.acceleration (Sim.apply_action v a) = act_acceleration a.
Proof.
  unfold Sim.apply_action.
  destruct (act_target_lane a) as [l |]; [| reflexivity].
  destruct (negb _); [| reflexivity].
  unfold V.initiate_lane_change.
  destruct (_ && _); reflexivity.
Qed.

Section Loop.

Variable vehicle_states : list (string * Sim.VehicleStateEntry).
Variable current_time : Q.

Abbreviation loop := (fold_left (Sim.control vehicle_states current_time)).

Lemma control_lookup_ne (st : list V.t * gmap string EnhancedVehicleAction)
    (i k : nat) :
  i <> k ->
  fst (Sim.control vehicle_states current_time st i) !! k = fst st !! k.
Proof.
  intros Hne. unfold Sim.control.
  destruct (fst st !! i) as [v |]; [| reflexivity].
  simpl. apply list_lookup_insert_ne. exact Hne.
Qed.

Lemma control_lookup_eq (st : list V.t * gmap string EnhancedVehicleAction)
    (i : nat) (v : V.t) :
  fst st !! i = Some v ->
  fst (Sim.control vehicle_states current_time st i) !! i
  = Some (Sim.apply_action v
            (C.compute_action v (Sim.objects (fst st) vehicle_states)
               current_time)).
Proof.
  intros Hv. unfold Sim.control. rewrite Hv. simpl.
  apply list_lookup_insert_eq. eapply lookup_lt_Some. exact Hv.
Qed.

Lemma control_frame (st : list V.t * gmap string EnhancedVehicleAction)
    (i : nat) :
  Forall2 same_frame (fst st)
    (fst (Sim.control vehicle_states current_time st i)).
Proof.
  apply Forall2_same_length_lookup_2.
  - unfold Sim.control. destruct (fst st !! i); [| reflexivity].
    simpl. rewrite length_insert. reflexivity.
  - intros k a b Ha Hb. destruct (decide (i = k)) as [-> | Hne].
    + rewrite (control_lookup_eq _ _ _ Ha) in Hb. injection Hb as <-.
      apply apply_action_frame.
    + rewrite (control_lookup_ne _ _ _ Hne) in Hb.
      rewrite Ha in Hb. injection Hb as <-. apply same_frame_refl.
Qed.

Lemma loop_frame (order : list nat)
    (st : list V.t * gmap string EnhancedVehicleAction) :
  Forall2 same_frame (fst st) (fst (loop order st)).
Proof.
  revert st. induction order as [| i order IH]; intros st; simpl.
  - apply Forall2_rel_refl, same_frame_refl.
  - eapply Forall2_rel_trans; [| apply control_frame | apply IH].
    intros a b c. apply same_frame_trans.
Qed.

Lemma loop_lookup_notin (order : list nat)
    (st : list V.t * gmap string EnhancedVehicleAction) (k : nat) :
  ~ In k order -> fst (loop order st) !! k = fst st !! k.
Proof.
  revert st. induction order as [| i order IH]; intros st Hk; simpl.
  - reflexivity.
  - rewrite IH by (intros H; apply Hk; right; exact H).
    apply control_lookup_ne. intros ->. apply Hk. left. reflexivity.
Qed.

(** A property that every write of the loop establishes holds, after the
    loop, of every vehicle whose controller was visited. *)
Lemma loop_establishes (P : V.t -> Prop) (order : list nat)
    (st : list V.t * gmap string EnhancedVehicleAction) (k : nat) (v' : V.t) :
  (forall v objs, P (Sim.apply_action v
                       (C.compute_action v objs current_time))) ->
  In k order -> fst (loop order st) !! k = Some v' -> P v'.
Proof.
  intros HP. revert st. induction order as [| i order IH]; intros st Hin Hv'.
  - destruct Hin.
  - simpl in Hv'. destruct (in_dec Nat.eq_dec k order) as [Hk | Hk].
    + eapply IH; eassumption.
    + destruct Hin as [-> | Hin]; [| contradiction].
      rewrite (loop_lookup_notin _ _ _ Hk) in Hv'.
      destruct (fst st !! k) as [v |] eqn:Hv.
      * rewrite (control_lookup_eq _ _ _ Hv) in Hv'. injection Hv' as <-.
        apply HP.
      * unfold Sim.control in Hv'. rewrite Hv in Hv'. congruence.
Qed.

End Loop.

(** During a tick the controllers see, through the entries of the snapshot,
    the vehicles as they are now, not as they were when it was taken. *)
Lemma objects_are_live (heap0 heap : list V.t) :
  List.length heap = List.length heap0 ->
  Sim.objects heap (Sim._get_vehicle_states heap0) = heap.
Proof.
  intros Hlen. unfold Sim.objects, Sim._get_vehicle_states.
  assert (forall (l0 : list V.t) (k : nat),
            omap (fun e => heap !! Sim.st_object (snd e))
              (imap (fun i vehicle =>
                       (V.id vehicle,
                        {| Sim.st_object := k + i;
                           Sim.st_state := Sim._get_vehicle_state vehicle |}))
                 l0)
            = take (List.length l0) (drop k heap)
            \/ (List.length heap < k + List.length l0)%nat) as H.
  { induction l0 as [| v0 l0 IH]; intros k; [left; reflexivity |].
    destruct (le_lt_dec (k + List.length (v0 :: l0)) (List.length heap))
      as [Hle | Hgt]; [left | right; exact Hgt].
    simpl in Hle. simpl. rewrite Nat.add_0_r.
    destruct (heap !! k) as [v |] eqn:Hv.
    2:{ apply lookup_ge_None in Hv. lia. }
    rewrite (drop_S _ _ _ Hv). simpl. f_equal.
    destruct (IH (S k)) as [IH' | IH']; [| simpl in *; lia].
    rewrite <- IH'. f_equal. apply imap_ext. intros i x _. simpl.
    repeat f_equal. lia. }
  destruct (H heap0 0%nat) as [H0 | H0]; [| simpl in H0; lia].
  simpl in H0. rewrite H0, drop_0, <- Hlen. apply firstn_all.
Qed.

(** ** One tick *)

Lemma step_in_order_vehicles (order : list nat) (s : Sim.t) :
  Sim.vehicles (Sim.step_in_order order s)
  = List.map (fun v => V.update_position v (Sim.dt s))
      (fst (fold_left
              (Sim.control (Sim._get_vehicle_states (Sim.vehicles s))
                 (Sim.time s))
              order (Sim.vehicles s, ∅))).
Proof.
  unfold Sim.step_in_order. destruct (fold_left _ order _). reflexivity.
Qed.

Lemma step_in_order_collisions (order : list nat) (s : Sim.t) :
  last_collisions (Sim.step_in_order order s)
  = Some (Sim._check_collisions (Sim.vehicles (Sim.step_in_order order s))).
Proof.
  unfold last_collisions, Sim.step_in_order.
  destruct (fold_left _ order _). simpl. rewrite last_snoc. reflexivity.
Qed.

Lemma step_in_order_flags (order : list nat) (s : Sim.t) :
  Sim.emergency_triggered (Sim.step_in_order order s)
  = Sim.emergency_triggered s.
Proof.
  unfold Sim.step_in_order. destruct (fold_left _ order _). reflexivity.
Qed.

Lemma update_position_emergency (v : V.t) (dt : Q) :
  same_emergency v (V.update_position v dt).
Proof.
  unfold V.update_position.
  destruct (V.is_changing_lane v); [destruct (1 <=? _) |]; repeat split.
Qed.

Lemma same_emergency_trans (a b c : V.t) :
  same_emergency a b -> same_emergency b c -> same_emergency a c.
Proof.
  unfold same_emergency. intros (?&?&?) (?&?&?). repeat split; congruence.
Qed.

Lemma step_same_emergency (order : list nat) (s : Sim.t) :
  Forall2 same_emergency (Sim.vehicles s)
    (Sim.vehicles (Sim.step_in_order order s)).
Proof.
  rewrite step_in_order_vehicles.
  pose proof (loop_frame (Sim._get_vehicle_states (Sim.vehicles s))
                (Sim.time s) order (Sim.vehicles s, ∅)) as Hf.
  simpl in Hf. revert Hf.
  generalize (fst (fold_left
    (Sim.control (Sim._get_vehicle_states (Sim.vehicles s)) (Sim.time s))
    order (Sim.vehicles s, ∅))).
  generalize (Sim.vehicles s).
  intros l l' Hf. induction Hf as [| a b l l' Hab _ IH]; simpl; constructor.
  - destruct Hab as (Hid & _ & _ & _ & _ & _ & Hb & Ht).
    eapply same_emergency_trans; [| apply update_position_emergency].
    repeat split; assumption.
  - exact IH.
Qed.

(** C8.  Whatever the acceleration and the time step, the velocity after
    [update_position] is in [0, 30]; hence every vehicle has a velocity in
    [0, 30] after [step]. *)
Theorem velocity_bounds :
  (forall (v : V.t) (dt : Q), 0 <= V.velocity (V.update_position v dt) <= 30)
  /\ (forall s : Sim.t,
        Forall (fun v => 0 <= V.velocity v <= 30)
          (Sim.vehicles (Sim.step s))).
Proof.
  split; [apply update_position_velocity_bounds |].
  intros s. unfold Sim.step. rewrite step_in_order_vehicles.
  apply List.Forall_map. apply List.Forall_forall. intros v _.
  apply update_position_velocity_bounds.
Qed.

(** ** Permanence of the emergency flag *)

Lemma alter_key_same_emergency (f : V.t -> V.t) (k : string) (vs : list V.t) :
  (forall v, same_emergency v (f v)) ->
  Forall2 same_emergency vs (Sim.alter_key f k vs).
Proof.
  intros Hf. induction vs as [| v vs IH]; simpl; [constructor |].
  destruct (String.eqb (V.id v) k).
  - constructor; [apply Hf |]. apply Forall2_rel_refl. repeat split.
  - constructor; [repeat split | exact IH].
Qed.

Lemma exec_op_same_emergency (s : Sim.t) (op : sim_op) :
  Sim.emergency_triggered s = true ->
  Sim.emergency_triggered (exec_op s op) = true
  /\ Forall2 same_emergency (Sim.vehicles s) (Sim.vehicles (exec_op s op)).
Proof.
  intros Ht. destruct op as [| k | k |]; simpl.
  - unfold Sim.step. rewrite step_in_order_flags.
    split; [exact Ht | apply step_same_emergency].
  - unfold Sim.set_emergency_vehicle. destruct (Sim.has_key _ _); simpl;
      (split; [exact Ht | apply Forall2_rel_refl; repeat split]).
  - unfold Sim.set_priority_vehicle. destruct (_ && _); simpl.
    + split; [exact Ht |]. apply alter_key_same_emergency.
      intros v. repeat split.
    + split; [exact Ht | apply Forall2_rel_refl; repeat split].
  - unfold Sim.trigger_emergency. rewrite Ht.
    destruct (Sim.emergency_vehicle s) as [ev |]; simpl;
      rewrite ?andb_false_r;
      (split; [exact Ht | apply Forall2_rel_refl; repeat split]).
Qed.

Lemma trigger_sets_flag (ev : string) (t : Q) (vs : list V.t) :
  Sim.has_key ev vs = true ->
  Exists (fun v => V.id v = ev /\ V.emergency_braking v = true
                   /\ V.emergency_start_time v = t)
    (Sim.alter_key (fun v => V.trigger_emergency_braking v t) ev vs).
Proof.
  induction vs as [| v vs IH]; simpl; [discriminate |].
  destruct (String.eqb (V.id v) ev) eqn:E; simpl.
  - intros _. apply Exists_cons_hd. apply String.eqb_eq in E. repeat split.
    exact E.
  - intros H. apply Exists_cons_tl. apply IH. exact H.
Qed.

Lemma run_ops_same_emergency (ops : list sim_op) (s : Sim.t) :
  Sim.emergency_triggered s = true ->
  Sim.emergency_triggered (run_ops ops s) = true
  /\ Forall2 same_emergency (Sim.vehicles s) (Sim.vehicles (run_ops ops s)).
Proof.
  revert s. induction ops as [| op ops IH]; intros s Ht; simpl.
  - split; [exact Ht | apply Forall2_rel_refl; repeat split].
  - destruct (exec_op_same_emergency s op Ht) as [Ht1 Hf1].
    destruct (IH _ Ht1) as [Ht2 Hf2]. split; [exact Ht2 |].
    eapply Forall2_rel_trans; [| exact Hf1 | exact Hf2].
    intros a b c. apply same_emergency_trans.
Qed.

Lemma trigger_emergency_success (s s1 : Sim.t) :
  Sim.trigger_emergency s = Some (true, s1) ->
  exists ev,
    Sim.emergency_vehicle s = Some ev
    /\ Sim.has_key ev (Sim.vehicles s) = true
    /\ Sim.vehicles s1
       = Sim.alter_key
           (fun v => V.trigger_emergency_braking v (Sim.time s)) ev
           (Sim.vehicles s)
    /\ Sim.emergency_triggered s1 = true.
Proof.
  intros H. unfold Sim.trigger_emergency in H.
  destruct (Sim.emergency_vehicle s) as [ev |] eqn:Hev; [| discriminate].
  destruct (Sim.truthy (Some ev) && negb (Sim.emergency_triggered s));
    [| discriminate].
  destruct (Sim.has_key ev (Sim.vehicles s)) eqn:Hk; [| discriminate].
  injection H as <-. exists ev. simpl. auto.
Qed.

Lemma reset_clears_emergency (s : Sim.t) :
  Forall (fun v => V.emergency_braking v = false) (Sim.vehicles (Sim.reset s)).
Proof. unfold Sim.reset; simpl. repeat constructor. Qed.

(** C10.  After a successful [trigger_emergency] the designated vehicle has
    its [emergency_braking] flag set and its [emergency_start_time] at the
    time of the call; and after any further sequence of [step],
    [set_emergency_vehicle], [set_priority_vehicle] and [trigger_emergency]
    every vehicle still has the flag and the start time it had right after
    the trigger.  A [reset] after that leaves no vehicle with the flag. *)
Theorem emergency_flag_permanent (s s1 : Sim.t) (ops : list sim_op) :
  Sim.trigger_emergency s = Some (true, s1) ->
  Exists (fun v => Some (V.id v) = Sim.emergency_vehicle s
                   /\ V.emergency_braking v = true
                   /\ V.emergency_start_time v = Sim.time s)
    (Sim.vehicles s1)
  /\ Forall (fun v => V.emergency_braking v = false)
       (Sim.vehicles (Sim.reset (run_ops ops s1)))
  /\ Sim.emergency_triggered (run_ops ops s1) = true
  /\ Forall2 same_emergency (Sim.vehicles s1) (Sim.vehicles (run_ops ops s1)).
Proof.
  intros H.
  destruct (trigger_emergency_success s s1 H) as (ev & Hev & Hk & Hvs & Ht).
  split; [| split; [apply reset_clears_emergency |]].
  - rewrite Hev, Hvs.
    eapply List.Exists_impl; [| apply trigger_sets_flag; exact Hk].
    intros v (-> & Hb & Hst). repeat split; assumption.
  - apply run_ops_same_emergency. exact Ht.
Qed.

Lemma emergency_flag_permanent_witness :
  Sim.trigger_emergency emergency_armed = Some (true, emergency_fired)
  /\ Sim.emergency_triggered
       (run_ops [OpStep; OpTriggerEmergency; OpSetEmergencyVehicle "vehicle_1";
                 OpTriggerEmergency; OpStep] emergency_fired) = true
  /\ Forall2 same_emergency (Sim.vehicles emergency_fired)
       (Sim.vehicles
          (run_ops [OpStep; OpTriggerEmergency;
                    OpSetEmergencyVehicle "vehicle_1";
                    OpTriggerEmergency; OpStep] emergency_fired)).
Proof.
  split; [reflexivity |].
  apply (emergency_flag_permanent emergency_armed emergency_fired). reflexivity.
Defined.

(** ** Commanded accelerations never exceed [max_acceleration] *)

Lemma check_emergency_ahead_acceleration (self_vehicle : V.t) (vs : list V.t)
    (t : Q) (a : EnhancedVehicleAction) :
  C._check_emergency_ahead self_vehicle vs t = Some a ->
  act_acceleration a <= -4.
Proof.
  unfold C._check_emergency_ahead.
  destruct (C._find_closest_vehicle self_vehicle vs) as [[[c d] rv] |];
    [| discriminate].
  destruct (V.emergency_braking c); [| discriminate].
  destruct (d <? _); [| discriminate].
  destruct (C._evaluate_emergency_lane_change _ _ _ _);
    intros H; injection H as <-; cbn [act_acceleration].
  - lra.
  - pose proof (Q.le_min_l C.max_braking
                  (-6 * (if t - V.emergency_start_time c <? 1 then 2 else 1)))
      as Hm.
    unfold C.max_braking in *. lra.
Qed.

Lemma check_priority_yield_acceleration (self_vehicle : V.t) (vs : list V.t)
    (a : EnhancedVehicleAction) :
  C._check_priority_yield self_vehicle vs = Some a ->
  act_acceleration a <= -1.
Proof.
  unfold C._check_priority_yield.
  destruct (List.find _ vs) as [p |]; [| discriminate].
  destruct (C._find_yield_lane self_vehicle vs) as [l |].
  - destruct (negb _); intros H; injection H as <-; cbn [act_acceleration]; lra.
  - intros H; injection H as <-; cbn [act_acceleration]; lra.
Qed.

Lemma compute_priority_action_acceleration (self_vehicle : V.t)
    (vs : list V.t) :
  act_acceleration (C._compute_priority_action self_vehicle vs) <= 1.5.
Proof.
  unfold C._compute_priority_action.
  destruct (C._find_closest_vehicle self_vehicle vs) as [[[c d] rv] |].
  - destruct (d <? _).
    + destruct (C._evaluate_lane_change _ _ _ _); cbn [act_acceleration].
      * lra.
      * pose proof (clip_le_hi
          ((d - C._calculate_safe_distance self_vehicle rv) * 0.1) (-2) 0).
        lra.
    + cbn [act_acceleration]. apply clip_le_hi.
  - cbn [act_acceleration]. apply clip_le_hi.
Qed.

Lemma compute_follower_action_acceleration (self_vehicle : V.t)
    (vs : list V.t) :
  act_acceleration (C._compute_follower_action self_vehicle vs)
  <= C.max_acceleration.
Proof.
  unfold C._compute_follower_action, C.max_acceleration.
  destruct (C._check_priority_yield self_vehicle vs) as [ya |] eqn:Hy.
  - apply check_priority_yield_acceleration in Hy. lra.
  - destruct (C._find_closest_vehicle self_vehicle vs) as [[[c d] rv] |];
      [| cbn [act_acceleration]; lra].
    destruct (d <? _).
    + cbn [act_acceleration].
      pose proof (clip_le_hi
        ((d - C._calculate_safe_distance self_vehicle rv) * 0.3)
        C.max_braking 0). lra.
    + destruct (_ <? d); cbn [act_acceleration]; [apply clip_le_hi | lra].
Qed.

Lemma compute_action_acceleration (self_vehicle : V.t) (vs : list V.t)
    (t : Q) :
  act_acceleration (C.compute_action self_vehicle vs t) <= C.max_acceleration.
Proof.
  unfold C.compute_action.
  destruct (C._check_emergency_ahead self_vehicle vs t) as [ea |] eqn:He.
  { apply check_emergency_ahead_acceleration in He.
    unfold C.max_acceleration. lra. }
  destruct (VehicleRole_eqb (V.role self_vehicle) PRIORITY).
  { pose proof (compute_priority_action_acceleration self_vehicle vs).
    unfold C.max_acceleration. lra. }
  destruct (C._check_priority_yield self_vehicle vs) as [ya |] eqn:Hy.
  { apply check_priority_yield_acceleration in Hy.
    unfold C.max_acceleration. lra. }
  destruct (VehicleRole_eqb (V.role self_vehicle) LEADER).
  - unfold C._compute_leader_action. cbn [act_acceleration].
    pose proof (clip_le_hi ((20 - V.velocity self_vehicle) * 0.2) (-1) 1).
    unfold C.max_acceleration. lra.
  - apply compute_follower_action_acceleration.
Qed.

(** ** One-step collision freedom *)

Lemma loop_commanded (s : Sim.t) :
  Forall2 commanded (Sim.vehicles s)
    (fst (fold_left
            (Sim.control (Sim._get_vehicle_states (Sim.vehicles s))
               (Sim.time s))
            (seq 0 (List.length (Sim.vehicles s))) (Sim.vehicles s, ∅))).
Proof.
  pose proof (loop_frame (Sim._get_vehicle_states (Sim.vehicles s))
                (Sim.time s) (seq 0 (List.length (Sim.vehicles s)))
                (Sim.vehicles s, ∅)) as Hf.
  simpl fst in Hf.
  apply Forall2_same_length_lookup_2.
  - eapply Forall2_length. exact Hf.
  - intros k v v' Hv Hv'.
    pose proof (Forall2_lookup_lr _ _ _ _ _ _ Hf Hv Hv')
      as (_ & _ & _ & Hx & _ & Hvel & _).
    split; [exact Hx |]. split; [exact Hvel |].
    eapply (loop_establishes _ _
              (fun w => V.acceleration w <= C.max_acceleration));
      [| | exact Hv'].
    + intros w objs. rewrite apply_action_acceleration.
      apply compute_action_acceleration.
    + apply in_seq. apply lookup_lt_Some in Hv. lia.
Qed.

Lemma updated_velocity_le (v : V.t) (dt : Q) :
  0 <= dt -> 0 <= V.velocity v -> V.acceleration v <= C.max_acceleration ->
  V.velocity (V.update_position v dt) <= V.velocity v + 2 * dt.
Proof.
  intros Hdt Hv Ha. rewrite update_position_velocity.
  unfold C.max_acceleration in Ha.
  assert (V.acceleration v * dt <= 2 * dt) as Hm
    by (apply Qmult_le_compat_r; assumption).
  apply Q.max_lub; [lra |].
  eapply Qle_trans; [apply Q.le_min_l | lra].
Qed.

Lemma safe_distance_lower_bound (v_ego v_pred : Q) :
  v_ego * 0.2 + 3 <= SafetyMonitor._calculate_safe_distance v_ego v_pred.
Proof.
  unfold SafetyMonitor._calculate_safe_distance. cbv zeta.
  pose proof (Qmax_zero_nonneg
    ((v_ego * v_ego) / (2 * 4) - (v_pred * v_pred) / (2 * 4))). lra.
Qed.

(** The rear vehicle of a pair closes in by less than the margin. *)
Lemma gap_after_update (ego pred ego' pred' : V.t) (dt : Q) :
  0 <= dt -> dt <= 0.2 -> 0 <= V.velocity ego ->
  commanded ego ego' -> commanded pred pred' ->
  SafetyMonitor._calculate_safe_distance (V.velocity ego) (V.velocity pred)
  <= gap_to ego pred ->
  V.length + 0.6
  <= V.x (V.update_position pred' dt) - V.x (V.update_position ego' dt).
Proof.
  intros Hdt Hdt2 Hv (Hx & Hvel & Hacc) (Hxp & _ & _) Hgap.
  pose proof (safe_distance_lower_bound (V.velocity ego) (V.velocity pred))
    as Hlow.
  rewrite !update_position_x, Hx, Hxp.
  pose proof (update_position_velocity_bounds pred' dt) as [Hp0 _].
  pose proof (update_position_velocity_bounds ego' dt) as [He0 _].
  pose proof (updated_velocity_le ego' dt Hdt) as Hle.
  rewrite Hvel in Hle. specialize (Hle Hv Hacc).
  set (ve := V.velocity (V.update_position ego' dt)) in *.
  set (vp := V.velocity (V.update_position pred' dt)) in *.
  assert (0 <= vp * dt) as Hpd by (apply Qmult_le_0_compat; assumption).
  assert (ve * dt <= ve * 0.2) as Hed.
  { rewrite (Qmult_comm ve dt), (Qmult_comm ve 0.2).
    apply Qmult_le_compat_r; assumption. }
  unfold gap_to, V.length in *. lra.
Qed.

Lemma no_overlap_after_update (a b a' b' : V.t) (dt : Q) :
  0 <= dt -> dt <= 0.2 -> 0 <= V.velocity a -> 0 <= V.velocity b ->
  commanded a a' -> commanded b b' -> gap_maintained a b ->
  Sim.boxes_overlap (V.update_position a' dt) (V.update_position b' dt)
  = false.
Proof.
  intros Hdt Hdt2 Hva Hvb Ha Hb [Hab Hba].
  unfold Sim.boxes_overlap, V.get_bounding_box. cbv beta iota zeta.
  destruct (Qlt_le_dec (V.x b) (V.x a)) as [Hlt | Hle].
  - pose proof (gap_after_update b a b' a' dt Hdt Hdt2 Hvb Hb Ha
                  (Hba (Qlt_le_weak _ _ Hlt))) as Hg.
    apply andb_false_iff. left. apply andb_false_iff. left.
    apply Qlt_bool_false_iff. unfold V.length in *.
    assert (4.5 / 2 == 2.25) as Hh by reflexivity. rewrite Hh. lra.
  - pose proof (gap_after_update a b a' b' dt Hdt Hdt2 Hva Ha Hb (Hab Hle))
      as Hg.
    apply andb_false_iff. left. apply andb_false_iff. right.
    apply Qlt_bool_false_iff. unfold V.length in *.
    assert (4.5 / 2 == 2.25) as Hh by reflexivity. rewrite Hh. lra.
Qed.

Lemma check_collisions_nil (vs : list V.t) :
  ForallOrdPairs (fun a b => Sim.boxes_overlap a b = false) vs ->
  Sim._check_collisions vs = [].
Proof.
  induction 1 as [| a l Ha _ IH]; simpl; [reflexivity |].
  rewrite IH, app_nil_r. clear IH.
  replace (List.filter (Sim.boxes_overlap a) l) with (@nil V.t);
    [reflexivity |].
  induction Ha as [| b l Hb _ IHl]; simpl; [reflexivity |].
  rewrite Hb. exact IHl.
Qed.

Lemma head_after_update (dt : Q) (a a' : V.t) (l l' : list V.t) :
  0 <= dt -> dt <= 0.2 -> 0 <= V.velocity a -> commanded a a' ->
  Forall2 commanded l l' ->
  Forall (fun v => 0 <= V.velocity v) l ->
  Forall (gap_maintained a) l ->
  Forall (fun b => Sim.boxes_overlap (V.update_position a' dt) b = false)
    (List.map (fun v => V.update_position v dt) l').
Proof.
  intros Hdt Hdt2 Hva Ha Hl.
  induction Hl as [| b b' l l' Hb _ IHl]; intros Hvl Hhead; simpl;
    [constructor |].
  inversion Hvl; subst. inversion Hhead; subst.
  constructor; [| apply IHl; assumption].
  apply (no_overlap_after_update a b a' b' dt); assumption.
Qed.

Lemma pairs_after_update (dt : Q) (l l' : list V.t) :
  0 <= dt -> dt <= 0.2 ->
  Forall2 commanded l l' ->
  Forall (fun v => 0 <= V.velocity v) l ->
  ForallOrdPairs gap_maintained l ->
  ForallOrdPairs (fun a b => Sim.boxes_overlap a b = false)
    (List.map (fun v => V.update_position v dt) l').
Proof.
  intros Hdt Hdt2 Hc. induction Hc as [| a a' l l' Ha Hl IH];
    intros Hvel Hpairs; simpl; [constructor |].
  inversion Hvel as [| ? ? Hva Hvl]; subst.
  inversion Hpairs as [| ? ? Hhead Htail]; subst.
  constructor; [| apply IH; assumption].
  eapply head_after_update; eassumption.
Qed.

Lemma gap_maintainedb_sound (a b : V.t) :
  gap_maintainedb a b = true -> gap_maintained a b.
Proof.
  unfold gap_maintainedb, gap_maintained. intros H.
  apply andb_true_iff in H as [H1 H2]. split; intros Hx.
  - apply Qle_bool_iff in Hx. rewrite Hx in H1.
    apply Qle_bool_iff. exact H1.
  - apply Qle_bool_iff in Hx. rewrite Hx in H2.
    apply Qle_bool_iff. exact H2.
Qed.

Lemma all_pairsb_sound (l : list V.t) :
  all_pairsb gap_maintainedb l = true -> ForallOrdPairs gap_maintained l.
Proof.
  induction l as [| a l IH]; simpl; intros H; [constructor |].
  apply andb_true_iff in H as [H1 H2].
  constructor; [| apply IH; exact H2].
  apply List.Forall_forall. intros b Hb.
  apply gap_maintainedb_sound.
  rewrite forallb_forall in H1. apply H1. exact Hb.
Qed.

Lemma velocities_nonneg_sound (l : list V.t) :
  forallb (fun v => 0 <=? V.velocity v) l = true ->
  Forall (fun v => 0 <= V.velocity v) l.
Proof.
  intros H. apply List.Forall_forall. intros v Hv.
  rewrite forallb_forall in H. apply Qle_bool_iff. apply H. exact Hv.
Qed.

(** C4, as stated, fails when the time step is coarse.  With a 5 s step, a
    follower at 30 m/s that is 122.5 m behind a leader at rest keeps a gap
    above the safe distance of 121.5 m, both stored accelerations are 0, and
    the next record reports the two vehicles as colliding. *)
Lemma coarse_tick_collision :
  ForallOrdPairs gap_maintained (Sim.vehicles coarse_tick_state)
  /\ Forall (fun v => 0 <= V.velocity v) (Sim.vehicles coarse_tick_state)
  /\ Forall (fun v => V.acceleration v = 0) (Sim.vehicles coarse_tick_state)
  /\ last_collisions (Sim.step coarse_tick_state)
     = Some [("vehicle_0", "vehicle_1")%string].
Proof.
  split; [| split; [| split]].
  - apply all_pairsb_sound. vm_compute. reflexivity.
  - apply velocities_nonneg_sound. vm_compute. reflexivity.
  - repeat constructor.
  - vm_compute. reflexivity.
Qed.

(** C4, amended.  If the time step is between 0 and 0.2 s, every velocity
    is non-negative, and for every pair of vehicles the gap from the one
    behind to the one ahead is at least the safe distance of their
    velocities, then the record appended by the next [step] has an empty
    collision list. *)
Theorem collision_free_step (s : Sim.t) :
  0 <= Sim.dt s -> Sim.dt s <= 0.2 ->
  Forall (fun v => 0 <= V.velocity v) (Sim.vehicles s) ->
  ForallOrdPairs gap_maintained (Sim.vehicles s) ->
  last_collisions (Sim.step s) = Some [].
Proof.
  intros Hdt Hdt2 Hvel Hgaps. unfold Sim.step.
  rewrite step_in_order_collisions, step_in_order_vehicles.
  f_equal. apply check_collisions_nil.
  eapply pairs_after_update; try eassumption.
  apply loop_commanded.
Qed.

Lemma collision_free_step_witness :
  last_collisions (Sim.step platoon3_state) = Some [].
Proof.
  apply collision_free_step.
  - apply Qle_bool_iff. vm_compute. reflexivity.
  - apply Qle_bool_iff. vm_compute. reflexivity.
  - apply velocities_nonneg_sound. vm_compute. reflexivity.
  - apply all_pairsb_sound. vm_compute. reflexivity.
Defined.

(** ** Order of evaluation within a tick *)

(** C3 does not hold of [step].  In [yield_state] the priority vehicle
    (first in the dictionary) decides to overtake into the right lane, and
    [step] starts that lane change at once; the follower ahead of it, visited
    next, reads the priority vehicle's lane through the live object, finds it
    already RIGHT, and yields into the right lane.  Computed from the
    pre-tick state of all vehicles, or with the controllers visited in the
    opposite order, its action is to yield into the left lane. *)
Lemma step_depends_on_order :
  let s := yield_state in
  let follower := vehicle_at 1 FOLLOWER MIDDLE 10 20 in
  let yield_to (l : Lane) :=
    {| act_acceleration := -1; act_target_lane := Some l;
       act_emergency := false;
       act_reason := "Yielding to priority vehicle vehicle_0";
       act_priority_override := true |} in
  Sim.vehicles s !! 1%nat = Some follower
  /\ C.compute_action follower (Sim.vehicles s) (Sim.time s) = yield_to LEFT
  /\ act_target_lane <$> (last_actions (Sim.step s) !! "vehicle_0"%string)
     = Some (Some RIGHT)
  /\ last_actions (Sim.step s) !! "vehicle_1"%string = Some (yield_to RIGHT)
  /\ last_actions (Sim.step_in_order [2; 1; 0]%nat s) !! "vehicle_1"%string
     = Some (yield_to LEFT)
  /\ last_actions (Sim.step s)
     <> last_actions (Sim.step_in_order [2; 1; 0]%nat s).
Proof.
  cbv zeta.
  assert (last_actions (Sim.step yield_state) !! "vehicle_1"%string
          = Some {| act_acceleration := -1; act_target_lane := Some RIGHT;
                    act_emergency := false;
                    act_reason := "Yielding to priority vehicle vehicle_0";
                    act_priority_override := true |}) as H1
    by (vm_compute; reflexivity).
  assert (last_actions (Sim.step_in_order [2; 1; 0]%nat yield_state)
            !! "vehicle_1"%string
          = Some {| act_acceleration := -1; act_target_lane := Some LEFT;
                    act_emergency := false;
                    act_reason := "Yielding to priority vehicle vehicle_0";
                    act_priority_override := true |}) as H2
    by (vm_compute; reflexivity).
  repeat split; try assumption; try (vm_compute; reflexivity).
  intros Heq. rewrite Heq, H2 in H1. discriminate H1.
Qed.

(** * Further properties *)

(** ** Motion of one vehicle *)

(** X1.  With a non-negative time step a vehicle never moves backwards, and
    it advances by at most [30 * dt]: the displacement is the clamped
    velocity times the step. *)
Theorem update_position_advances (v : V.t) (dt : Q) :
  0 <= dt ->
  V.x v <= V.x (V.update_position v dt)
  /\ V.x (V.update_position v dt) <= V.x v + 30 * dt
  /\ V.acceleration (V.update_position v dt) = V.acceleration v.
Proof.
  intros Hdt. rewrite update_position_x.
  pose proof (update_position_velocity_bounds v dt) as [H0 H30].
  set (w := V.velocity (V.update_position v dt)) in *.
  assert (0 <= w * dt) as Hlo by (apply Qmult_le_0_compat; assumption).
  assert (w * dt <= 30 * dt) as Hhi by (apply Qmult_le_compat_r; assumption).
  split; [lra |]. split; [lra |].
  unfold V.update_position.
  destruct (V.is_changing_lane v); [destruct (1 <=? _) |]; reflexivity.
Qed.

Lemma update_position_advances_witness :
  V.x (V.init 1 FOLLOWER NORMAL MIDDLE)
  <= V.x (V.update_position (V.init 1 FOLLOWER NORMAL MIDDLE) 0.1).
Proof.
  apply (update_position_advances (V.init 1 FOLLOWER NORMAL MIDDLE) 0.1).
  apply Qle_bool_iff. vm_compute. reflexivity.
Defined.

Lemma lateral_inv_init (i : nat) (r : VehicleRole) (ty : VehicleType)
    (l : Lane) :
  lateral_inv (V.init i r ty l).
Proof. reflexivity. Qed.

Lemma lateral_inv_initiate (v : V.t) (target_lane : Lane) :
  lateral_inv v -> lateral_inv (V.initiate_lane_change v target_lane).
Proof.
  unfold lateral_inv, V.initiate_lane_change. intros H.
  destruct (V.is_changing_lane v) eqn:Hc; cbn [negb andb]; [rewrite Hc; exact H |].
  destruct (Lane_eqb target_lane (V.lane v)); cbn [negb];
    [rewrite Hc; exact H |].
  cbn [V.is_changing_lane V.y V.previous_lane V.lane V.lane_change_progress].
  rewrite H. lra.
Qed.

Lemma lateral_inv_update (v : V.t) (dt : Q) :
  lane_inv v -> lateral_inv v -> lateral_inv (V.update_position v dt).
Proof.
  intros (Hy & _) H. unfold lateral_inv, V.update_position in *.
  destruct (V.is_changing_lane v) eqn:Hc.
  - destruct (1 <=? _);
      cbn [V.is_changing_lane V.y V.previous_lane V.lane
           V.lane_change_progress V.lane_target_y].
    + exact Hy.
    + rewrite Hy. reflexivity.
  - cbn [V.is_changing_lane V.y V.lane]. exact H.
Qed.

Lemma lateral_inv_range (v : V.t) :
  lane_inv v -> lateral_inv v -> -4 <= V.y v <= 4.
Proof.
  intros (_ & H0 & H1 & _) H. unfold lateral_inv in H.
  destruct (V.is_changing_lane v).
  - destruct (V.previous_lane v), (V.lane v); simpl in H; lra.
  - rewrite H. destruct (V.lane v); simpl; lra.
Qed.

(** X2.  From a vehicle as constructed, after any sequence of lane-change
    requests and ticks with non-negative steps, the lateral position is the
    linear interpolation the lane-change state describes (exactly the lane
    centre when no change is in flight), and it stays within the road, between
    the centres of the outer lanes. *)
Theorem lateral_position_interpolated (ops : list lane_op) (v0 : V.t) :
  lane_inv v0 -> lateral_inv v0 -> Forall lane_op_ok ops ->
  let v := run_lane_ops ops v0 in
  lateral_inv v /\ -4 <= V.y v <= 4.
Proof.
  intros Hinv Hlat Hok. cbv zeta.
  assert (lane_inv (run_lane_ops ops v0) /\ lateral_inv (run_lane_ops ops v0))
    as [H1 H2].
  { revert v0 Hinv Hlat. induction Hok as [| op ops Hop _ IH];
      intros v0 Hinv Hlat; [split; assumption |].
    simpl. apply IH; destruct op as [l | dt]; simpl.
    - apply lane_inv_initiate, Hinv.
    - apply lane_inv_update; assumption.
    - apply lateral_inv_initiate, Hlat.
    - apply lateral_inv_update; assumption. }
  split; [exact H2 | apply lateral_inv_range; assumption].
Qed.

Lemma lateral_position_interpolated_witness :
  let v := run_lane_ops [Initiate LEFT; Tick 0.1; Tick 0.1]
             (V.init 1 FOLLOWER NORMAL MIDDLE) in
  lateral_inv v /\ -4 <= V.y v <= 4.
Proof.
  apply lateral_position_interpolated.
  - apply lane_inv_init.
  - apply lateral_inv_init.
  - repeat constructor; simpl; apply Qle_bool_iff; vm_compute; reflexivity.
Defined.

(** ** Lane requests of the controller *)

Lemma get_adjacent_lanes_adjacent (c l : Lane) :
  In l (C._get_adjacent_lanes c) -> adjacent l c = true.
Proof.
  destruct c; simpl; intros H; repeat destruct H as [<- | H];
    try reflexivity; destruct H.
Qed.

Lemma adjacent_ne (a b : Lane) : adjacent a b = true -> a <> b.
Proof.
  destruct a, b; intros H; vm_compute in H; try discriminate H;
    intros Heq; discriminate Heq.
Qed.

Lemma In_insert_by_key {A : Type} (key : A -> Z) (a x : A) (l : list A) :
  In x (C.insert_by_key key a l) <-> x = a \/ In x l.
Proof.
  induction l as [| b l IH]; simpl.
  - intuition auto.
  - destruct (key a <=? key b)%Z; simpl; [intuition auto |].
    rewrite IH. intuition auto.
Qed.

Lemma In_sort_by_key {A : Type} (key : A -> Z) (x : A) (l : list A) :
  In x (C.sort_by_key key l) <-> In x l.
Proof.
  induction l as [| a l IH]; simpl; [tauto |].
  rewrite In_insert_by_key, IH. intuition auto.
Qed.

Lemma is_self_false (self_vehicle o : V.t) :
  C.is_self self_vehicle o = false <-> V.id o <> V.id self_vehicle.
Proof.
  unfold C.is_self. rewrite <- not_true_iff_false, String.eqb_eq. tauto.
Qed.

Section LaneRequests.

Variable self_vehicle : V.t.
Variable vs : list V.t.

Lemma find_yield_lane_spec (l : Lane) :
  C._find_yield_lane self_vehicle vs = Some l ->
  adjacent l (V.lane self_vehicle) = true
  /\ C._is_lane_clear_for_yield self_vehicle vs l = true.
Proof.
  unfold C._find_yield_lane. intros H.
  apply List.find_some in H as [Hin Hclear]. split; [| exact Hclear].
  apply get_adjacent_lanes_adjacent.
  destruct (C._find_priority_vehicle self_vehicle vs); [| exact Hin].
  apply In_sort_by_key in Hin. exact Hin.
Qed.

Lemma evaluate_lane_change_spec (d safe : Q) (l : Lane) :
  C._evaluate_lane_change self_vehicle vs d safe = Some l ->
  V.is_changing_lane self_vehicle = false
  /\ d <= safe * 0.8
  /\ adjacent l (V.lane self_vehicle) = true
  /\ C._is_lane_clear self_vehicle vs l = true.
Proof.
  unfold C._evaluate_lane_change.
  destruct (V.is_changing_lane self_vehicle); [discriminate |].
  destruct (safe * 0.8 <? d) eqn:E; [discriminate |]. simpl.
  intros H. apply List.find_some in H as [Hin Hclear].
  apply Qlt_bool_false_iff in E.
  repeat split; try assumption. apply get_adjacent_lanes_adjacent, Hin.
Qed.

Lemma evaluate_emergency_lane_change_spec (d safe : Q) (l : Lane) :
  C._evaluate_emergency_lane_change self_vehicle vs d safe = Some l ->
  V.is_changing_lane self_vehicle = false
  /\ adjacent l (V.lane self_vehicle) = true
  /\ C._is_lane_clear_for_emergency self_vehicle vs l = true.
Proof.
  unfold C._evaluate_emergency_lane_change.
  destruct (V.is_changing_lane self_vehicle); [discriminate |].
  intros H. apply List.find_some in H as [Hin Hclear].
  repeat split; try assumption. apply get_adjacent_lanes_adjacent, Hin.
Qed.

(** What the three clearance tests mean for the other vehicles. *)
Lemma is_lane_clear_for_emergency_spec (l : Lane) :
  C._is_lane_clear_for_emergency self_vehicle vs l = true <->
  Forall (fun o => V.id o <> V.id self_vehicle ->
                   ~ (Qabs (V.y o - _get_lane_center_y l) < 2.5
                      /\ Qabs (V.x o - V.x self_vehicle) < 20)) vs.
Proof.
  unfold C._is_lane_clear_for_emergency.
  rewrite forallb_forall, List.Forall_forall.
  split; intros H o Hin; specialize (H o Hin).
  - intros Hne [H1 H2]. apply is_self_false in Hne. rewrite Hne in H.
    apply Qlt_bool_iff in H1, H2. rewrite H1, H2 in H. discriminate.
  - destruct (C.is_self self_vehicle o) eqn:Hs; [reflexivity |].
    apply is_self_false in Hs. specialize (H Hs). cbn [orb]. cbv zeta.
    apply negb_true_iff, not_true_iff_false. intros Hb.
    apply andb_true_iff in Hb as [H1 H2].
    apply Qlt_bool_iff in H1, H2. tauto.
Qed.

Lemma is_lane_clear_spec (l : Lane) :
  C._is_lane_clear self_vehicle vs l = true <->
  Forall (fun o => V.id o <> V.id self_vehicle ->
            ~ (Qabs (V.y o - _get_lane_center_y l) < 2.2
               /\ Qabs (V.x o - V.x self_vehicle)
                  < C._calculate_safe_distance self_vehicle 0 * 1.8)) vs.
Proof.
  unfold C._is_lane_clear.
  rewrite forallb_forall, List.Forall_forall.
  split; intros H o Hin; specialize (H o Hin).
  - intros Hne [H1 H2]. apply is_self_false in Hne. rewrite Hne in H.
    apply Qlt_bool_iff in H1, H2. cbv zeta in H.
    unfold C._calculate_safe_distance in *. rewrite H1, H2 in H.
    discriminate.
  - destruct (C.is_self self_vehicle o) eqn:Hs; [reflexivity |].
    apply is_self_false in Hs. specialize (H Hs). cbn [orb]. cbv zeta.
    apply negb_true_iff, not_true_iff_false. intros Hb.
    apply andb_true_iff in Hb as [H1 H2].
    apply Qlt_bool_iff in H1, H2. tauto.
Qed.

Lemma is_lane_clear_for_yield_spec (l : Lane) :
  C._is_lane_clear_for_yield self_vehicle vs l = true <->
  Forall (fun o => V.id o <> V.id self_vehicle ->
            Qabs (V.y o - _get_lane_center_y l) < 2.8 ->
            let d := V.x o - V.x self_vehicle in
            ~ (0 < d /\ d < 25) /\ ~ (d < 0 /\ Qabs d < 15)) vs.
Proof.
  unfold C._is_lane_clear_for_yield.
  rewrite forallb_forall, List.Forall_forall.
  split; intros H o Hin; specialize (H o Hin).
  - intros Hne H1. apply is_self_false in Hne. rewrite Hne in H.
    apply Qlt_bool_iff in H1. cbv zeta in *. rewrite H1 in H.
    cbn [orb andb] in H.
    apply negb_true_iff, orb_false_iff in H as [Ha Hb].
    split; intros [H2 H3]; apply Qlt_bool_iff in H2, H3.
    + rewrite H2, H3 in Ha. discriminate.
    + rewrite H2, H3 in Hb. discriminate.
  - destruct (C.is_self self_vehicle o) eqn:Hs; [reflexivity |].
    apply is_self_false in Hs. specialize (H Hs). cbn [orb]. cbv zeta.
    destruct (Qabs (V.y o - _get_lane_center_y l) <? 2.8) eqn:H1;
      [| reflexivity].
    apply Qlt_bool_iff in H1. destruct (H H1) as [Ha Hb]. cbn [andb].
    apply negb_true_iff, orb_false_iff.
    split; apply not_true_iff_false; intros Hc;
      apply andb_true_iff in Hc as [H2 H3]; apply Qlt_bool_iff in H2, H3;
      tauto.
Qed.

End LaneRequests.

Lemma check_emergency_ahead_target (self_vehicle : V.t) (vs : list V.t)
    (t : Q) (a : EnhancedVehicleAction) (l : Lane) :
  C._check_emergency_ahead self_vehicle vs t = Some a ->
  act_target_lane a = Some l ->
  V.is_changing_lane self_vehicle = false
  /\ adjacent l (V.lane self_vehicle) = true
  /\ C._is_lane_clear_for_emergency self_vehicle vs l = true.
Proof.
  unfold C._check_emergency_ahead.
  destruct (C._find_closest_vehicle self_vehicle vs) as [[[c d] rv] |];
    [| discriminate].
  destruct (V.emergency_braking c); [| discriminate].
  destruct (d <? _); [| discriminate].
  destruct (C._evaluate_emergency_lane_change _ _ _ _) as [l' |] eqn:E;
    intros H; injection H as <-; cbn [act_target_lane]; [| discriminate].
  intros Hl. injection Hl as <-.
  eapply evaluate_emergency_lane_change_spec. exact E.
Qed.

Lemma check_priority_yield_target (self_vehicle : V.t) (vs : list V.t)
    (a : EnhancedVehicleAction) (l : Lane) :
  C._check_priority_yield self_vehicle vs = Some a ->
  act_target_lane a = Some l ->
  adjacent l (V.lane self_vehicle) = true
  /\ C._is_lane_clear_for_yield self_vehicle vs l = true.
Proof.
  unfold C._check_priority_yield.
  destruct (List.find _ vs) as [p |]; [| discriminate].
  destruct (C._find_yield_lane self_vehicle vs) as [l' |] eqn:E.
  - destruct (negb _); intros H; injection H as <-; cbn [act_target_lane];
      [| discriminate].
    intros Hl. injection Hl as <-. apply find_yield_lane_spec. exact E.
  - intros H; injection H as <-; discriminate.
Qed.

Lemma compute_priority_action_target (self_vehicle : V.t) (vs : list V.t)
    (l : Lane) :
  act_target_lane (C._compute_priority_action self_vehicle vs) = Some l ->
  V.is_changing_lane self_vehicle = false
  /\ adjacent l (V.lane self_vehicle) = true
  /\ C._is_lane_clear self_vehicle vs l = true.
Proof.
  unfold C._compute_priority_action.
  destruct (C._find_closest_vehicle self_vehicle vs) as [[[c d] rv] |];
    [| discriminate].
  destruct (d <? _); [| discriminate].
  destruct (C._evaluate_lane_change _ _ _ _) as [l' |] eqn:E;
    cbn [act_target_lane]; [| discriminate].
  intros Hl. injection Hl as <-.
  apply evaluate_lane_change_spec in E as (Hc & _ & Ha & Hcl). auto.
Qed.

Lemma compute_priority_action_flags (self_vehicle : V.t) (vs : list V.t) :
  act_emergency (C._compute_priority_action self_vehicle vs) = false
  /\ act_priority_override (C._compute_priority_action self_vehicle vs)
     = false.
Proof.
  unfold C._compute_priority_action.
  destruct (C._find_closest_vehicle self_vehicle vs) as [[[c d] rv] |];
    [| split; reflexivity].
  destruct (d <? _); [| split; reflexivity].
  destruct (C._evaluate_lane_change _ _ _ _); split; reflexivity.
Qed.

Lemma check_emergency_ahead_override (self_vehicle : V.t) (vs : list V.t)
    (t : Q) (a : EnhancedVehicleAction) :
  C._check_emergency_ahead self_vehicle vs t = Some a ->
  act_priority_override a = false.
Proof.
  unfold C._check_emergency_ahead.
  destruct (C._find_closest_vehicle self_vehicle vs) as [[[c d] rv] |];
    [| discriminate].
  destruct (V.emergency_braking c); [| discriminate].
  destruct (d <? _); [| discriminate].
  destruct (C._evaluate_emergency_lane_change _ _ _ _);
    intros H; injection H as <-; reflexivity.
Qed.

Lemma check_priority_yield_emergency (self_vehicle : V.t) (vs : list V.t)
    (a : EnhancedVehicleAction) :
  C._check_priority_yield self_vehicle vs = Some a ->
  act_emergency a = false /\ (act_acceleration a = -1 \/ act_acceleration a = -3).
Proof.
  unfold C._check_priority_yield.
  destruct (List.find _ vs) as [p |]; [| discriminate].
  destruct (C._find_yield_lane self_vehicle vs) as [l |].
  - destruct (negb _); intros H; injection H as <-; cbn; auto.
  - intros H; injection H as <-; cbn; auto.
Qed.

Lemma compute_follower_action_plain (self_vehicle : V.t) (vs : list V.t) :
  C._check_priority_yield self_vehicle vs = None ->
  let a := C._compute_follower_action self_vehicle vs in
  act_target_lane a = None /\ act_emergency a = false
  /\ act_priority_override a = false
  /\ C.max_braking <= act_acceleration a <= C.max_acceleration.
Proof.
  intros Hy. cbv zeta. unfold C._compute_follower_action. rewrite Hy.
  unfold C.max_braking, C.max_acceleration.
  destruct (C._find_closest_vehicle self_vehicle vs) as [[[c d] rv] |].
  2:{ cbn. repeat split; lra. }
  destruct (d <? _).
  - cbn [act_target_lane act_emergency act_priority_override
         act_acceleration].
    pose proof (clip_le_hi
      ((d - C._calculate_safe_distance self_vehicle rv) * 0.3) (-6) 0).
    pose proof (clip_ge_lo
      ((d - C._calculate_safe_distance self_vehicle rv) * 0.3) (-6) 0).
    unfold C.max_braking. repeat split; lra.
  - destruct (_ <? d);
      cbn [act_target_lane act_emergency act_priority_override
           act_acceleration].
    + pose proof (clip_le_hi
        ((d - C._calculate_safe_distance self_vehicle rv) * 0.05) 0 2).
      pose proof (clip_ge_lo
        ((d - C._calculate_safe_distance self_vehicle rv) * 0.05) 0 2).
      unfold C.max_acceleration. repeat split; lra.
    + repeat split; lra.
Qed.

Lemma compute_action_target_adjacent (self_vehicle : V.t) (vs : list V.t)
    (t : Q) (l : Lane) :
  act_target_lane (C.compute_action self_vehicle vs t) = Some l ->
  adjacent l (V.lane self_vehicle) = true.
Proof.
  unfold C.compute_action.
  destruct (C._check_emergency_ahead self_vehicle vs t) as [ea |] eqn:He.
  { intros Hl.
    destruct (check_emergency_ahead_target _ _ _ _ _ He Hl) as (_ & Ha & _).
    exact Ha. }
  destruct (VehicleRole_eqb (V.role self_vehicle) PRIORITY).
  { intros Hl.
    destruct (compute_priority_action_target _ _ _ Hl) as (_ & Ha & _).
    exact Ha. }
  destruct (C._check_priority_yield self_vehicle vs) as [ya |] eqn:Hy.
  { intros Hl. destruct (check_priority_yield_target _ _ _ _ Hy Hl) as [Ha _].
    exact Ha. }
  destruct (VehicleRole_eqb (V.role self_vehicle) LEADER).
  - discriminate.
  - intros Hl.
    destruct (compute_follower_action_plain self_vehicle vs Hy) as [Hn _].
    congruence.
Qed.

(** X3.  A lane named by an action of [compute_action] is always a
    neighbour of the vehicle's current lane (never RIGHT to LEFT or back in
    one move, never the current lane), and it has passed the clearance test
    of the branch that chose it: for an emergency lane change no other
    vehicle within 2.5 m laterally of the lane centre and 20 m
    longitudinally; for yielding none within 2.8 m laterally that is less
    than 25 m ahead or less than 15 m behind; for overtaking (Priority role
    only) none within 2.2 m laterally and 1.8 safe distances longitudinally.
    Emergency and overtaking requests are made only when no lane change is
    in flight. *)
Theorem requested_lane_adjacent_and_clear (self_vehicle : V.t)
    (vs : list V.t) (t : Q) (l : Lane) :
  act_target_lane (C.compute_action self_vehicle vs t) = Some l ->
  let a := C.compute_action self_vehicle vs t in
  adjacent l (V.lane self_vehicle) = true
  /\ l <> V.lane self_vehicle
  /\ ((act_emergency a = true
       /\ V.is_changing_lane self_vehicle = false
       /\ Forall (fun o => V.id o <> V.id self_vehicle ->
                    ~ (Qabs (V.y o - _get_lane_center_y l) < 2.5
                       /\ Qabs (V.x o - V.x self_vehicle) < 20)) vs)
      \/ (act_priority_override a = true
          /\ Forall (fun o => V.id o <> V.id self_vehicle ->
                       Qabs (V.y o - _get_lane_center_y l) < 2.8 ->
                       let d := V.x o - V.x self_vehicle in
                       ~ (0 < d /\ d < 25) /\ ~ (d < 0 /\ Qabs d < 15)) vs)
      \/ (V.role self_vehicle = PRIORITY
          /\ act_emergency a = false /\ act_priority_override a = false
          /\ V.is_changing_lane self_vehicle = false
          /\ Forall (fun o => V.id o <> V.id self_vehicle ->
                       ~ (Qabs (V.y o - _get_lane_center_y l) < 2.2
                          /\ Qabs (V.x o - V.x self_vehicle)
                             < C._calculate_safe_distance self_vehicle 0
                               * 1.8)) vs)).
Proof.
  cbv zeta. unfold C.compute_action.
  destruct (C._check_emergency_ahead self_vehicle vs t) as [ea |] eqn:He.
  { intros Hl.
    destruct (check_emergency_ahead_target _ _ _ _ _ He Hl) as (Hc & Ha & Hcl).
    split; [exact Ha |]. split; [apply adjacent_ne, Ha |]. left.
    split; [eapply check_emergency_ahead_flag; exact He |].
    split; [exact Hc |]. apply is_lane_clear_for_emergency_spec, Hcl. }
  destruct (VehicleRole_eqb (V.role self_vehicle) PRIORITY) eqn:Hr.
  { intros Hl.
    destruct (compute_priority_action_target _ _ _ Hl) as (Hc & Ha & Hcl).
    destruct (compute_priority_action_flags self_vehicle vs) as [Hf1 Hf2].
    split; [exact Ha |]. split; [apply adjacent_ne, Ha |]. right. right.
    split; [destruct (V.role self_vehicle); try discriminate Hr; reflexivity |].
    repeat (split; [assumption |]). apply is_lane_clear_spec, Hcl. }
  destruct (C._check_priority_yield self_vehicle vs) as [ya |] eqn:Hy.
  { intros Hl. destruct (check_priority_yield_target _ _ _ _ Hy Hl) as [Ha Hcl].
    split; [exact Ha |]. split; [apply adjacent_ne, Ha |]. right. left.
    split; [eapply check_priority_yield_flag; exact Hy |].
    apply is_lane_clear_for_yield_spec, Hcl. }
  destruct (VehicleRole_eqb (V.role self_vehicle) LEADER).
  - discriminate.
  - intros Hl.
    destruct (compute_follower_action_plain self_vehicle vs Hy) as [Hn _].
    congruence.
Qed.

Lemma requested_lane_adjacent_and_clear_witness :
  adjacent RIGHT MIDDLE = true
  /\ RIGHT <> V.lane (vehicle_at 0 PRIORITY MIDDLE 0 22).
Proof.
  pose proof (requested_lane_adjacent_and_clear
                (vehicle_at 0 PRIORITY MIDDLE 0 22)
                (Sim.vehicles yield_state) 0 RIGHT eq_refl) as (H1 & H2 & _).
  split; [exact H1 | exact H2].
Defined.

Lemma compute_action_lower_bound (self_vehicle : V.t) (vs : list V.t)
    (t : Q) :
  -12 <= act_acceleration (C.compute_action self_vehicle vs t).
Proof.
  unfold C.compute_action.
  destruct (C._check_emergency_ahead self_vehicle vs t) as [ea |] eqn:He.
  { revert He. unfold C._check_emergency_ahead.
    destruct (C._find_closest_vehicle self_vehicle vs) as [[[c d] rv] |];
      [| discriminate].
    destruct (V.emergency_braking c); [| discriminate].
    destruct (d <? _); [| discriminate].
    destruct (C._evaluate_emergency_lane_change _ _ _ _);
      intros H; injection H as <-; cbn [act_acceleration]; [lra |].
    unfold C.max_braking.
    destruct (t - V.emergency_start_time c <? 1); apply Q.min_glb; lra. }
  destruct (VehicleRole_eqb (V.role self_vehicle) PRIORITY).
  { unfold C._compute_priority_action.
    destruct (C._find_closest_vehicle self_vehicle vs) as [[[c d] rv] |].
    - destruct (d <? _).
      + destruct (C._evaluate_lane_change _ _ _ _); cbn [act_acceleration];
          [lra |].
        pose proof (clip_ge_lo
          ((d - C._calculate_safe_distance self_vehicle rv) * 0.1) (-2) 0).
        lra.
      + cbn [act_acceleration].
        pose proof (clip_ge_lo
          ((25 - V.velocity self_vehicle) * 0.3) (-1.5) 1.5). lra.
    - cbn [act_acceleration].
      pose proof (clip_ge_lo
        ((25 - V.velocity self_vehicle) * 0.3) (-1.5) 1.5). lra. }
  destruct (C._check_priority_yield self_vehicle vs) as [ya |] eqn:Hy.
  { apply check_priority_yield_emergency in Hy as [_ [-> | ->]]; lra. }
  destruct (VehicleRole_eqb (V.role self_vehicle) LEADER).
  - unfold C._compute_leader_action. cbn [act_acceleration].
    pose proof (clip_ge_lo ((20 - V.velocity self_vehicle) * 0.2) (-1) 1).
    lra.
  - destruct (compute_follower_action_plain self_vehicle vs Hy)
      as (_ & _ & _ & Hb & _). unfold C.max_braking in Hb. lra.
Qed.

Lemma compute_action_by_emergency_check (self_vehicle : V.t)
    (vs : list V.t) (t : Q) :
  let a := C.compute_action self_vehicle vs t in
  match C._check_emergency_ahead self_vehicle vs t with
  | Some _ =>
      act_emergency a = true /\ act_priority_override a = false
      /\ act_acceleration a <= -4
  | None =>
      act_emergency a = false
      /\ C.max_braking <= act_acceleration a
      /\ (act_priority_override a = true ->
            act_acceleration a = -1 \/ act_acceleration a = -3)
  end.
Proof.
  cbv zeta.
  unfold C.compute_action.
  destruct (C._check_emergency_ahead self_vehicle vs t) as [ea |] eqn:He.
  { split; [eapply check_emergency_ahead_flag; exact He |].
    split; [eapply check_emergency_ahead_override; exact He |].
    eapply check_emergency_ahead_acceleration; exact He. }
  unfold C.max_braking.
  destruct (VehicleRole_eqb (V.role self_vehicle) PRIORITY).
  { destruct (compute_priority_action_flags self_vehicle vs) as [Hf1 Hf2].
    split; [exact Hf1 |]. split; [| rewrite Hf2; discriminate].
    unfold C._compute_priority_action.
    destruct (C._find_closest_vehicle self_vehicle vs) as [[[c d] rv] |].
    - destruct (d <? _).
      + destruct (C._evaluate_lane_change _ _ _ _); cbn [act_acceleration];
          [lra |].
        pose proof (clip_ge_lo
          ((d - C._calculate_safe_distance self_vehicle rv) * 0.1) (-2) 0).
        lra.
      + cbn [act_acceleration].
        pose proof (clip_ge_lo
          ((25 - V.velocity self_vehicle) * 0.3) (-1.5) 1.5). lra.
    - cbn [act_acceleration].
      pose proof (clip_ge_lo
        ((25 - V.velocity self_vehicle) * 0.3) (-1.5) 1.5). lra. }
  destruct (C._check_priority_yield self_vehicle vs) as [ya |] eqn:Hy.
  { apply check_priority_yield_emergency in Hy as [Hf Hacc].
    split; [exact Hf |]. split; [destruct Hacc as [-> | ->]; lra |].
    intros _. exact Hacc. }
  destruct (VehicleRole_eqb (V.role self_vehicle) LEADER).
  - unfold C._compute_leader_action.
    cbn [act_acceleration act_emergency act_priority_override].
    pose proof (clip_ge_lo ((20 - V.velocity self_vehicle) * 0.2) (-1) 1).
    split; [reflexivity |]. split; [lra | discriminate].
  - destruct (compute_follower_action_plain self_vehicle vs Hy)
      as (_ & Hf & Ho & Hb & _). unfold C.max_braking in Hb.
    split; [exact Hf |]. split; [exact Hb |]. rewrite Ho. discriminate.
Qed.

(** X4.  The acceleration [compute_action] commands is always between -12
    and [max_acceleration] = 2.  An action carries the [emergency] flag
    exactly when the emergency-ahead check produced it, and then it brakes
    at -4 or harder and is not a yield action; a yield action
    ([priority_override]) brakes at exactly -1 or -3; every other action is
    between [max_braking] = -6 and 2. *)
Theorem compute_action_envelope (self_vehicle : V.t) (vs : list V.t) (t : Q) :
  let a := C.compute_action self_vehicle vs t in
  -12 <= act_acceleration a <= C.max_acceleration
  /\ match C._check_emergency_ahead self_vehicle vs t with
     | Some _ =>
         act_emergency a = true /\ act_priority_override a = false
         /\ act_acceleration a <= -4
     | None =>
         act_emergency a = false
         /\ C.max_braking <= act_acceleration a
         /\ (act_priority_override a = true ->
               act_acceleration a = -1 \/ act_acceleration a = -3)
     end.
Proof.
  cbv zeta. split.
  - split; [apply compute_action_lower_bound
           | apply compute_action_acceleration].
  - apply compute_action_by_emergency_check.
Qed.

(** X5.  The emergency reaction.  When the closest vehicle ahead (laterally
    within 4 m) is emergency-braking and the gap to it is below 1.5 times
    the safe distance [10 + 2.5 * max(0, v)], [compute_action] returns an
    emergency action whatever the role: a lane change with acceleration -4
    when a neighbouring lane is clear, and otherwise pure braking at -12
    during the first second after the emergency started and at -6 from then
    on.  In every other situation the action is not an emergency action. *)
Theorem emergency_reaction (self_vehicle : V.t) (vs : list V.t) (t : Q) :
  let a := C.compute_action self_vehicle vs t in
  match C._find_closest_vehicle self_vehicle vs with
  | Some (c, gap, rv) =>
      if V.emergency_braking c
         && (gap <? (10 + Qmax 0 (V.velocity self_vehicle) * 2.5) * 1.5)
      then
        act_emergency a = true
        /\ match act_target_lane a with
           | Some l => act_acceleration a = -4
           | None =>
               act_acceleration a
               == (if t - V.emergency_start_time c <? 1 then -12 else -6)
           end
      else act_emergency a = false
  | None => act_emergency a = false
  end.
Proof.
  cbv zeta.
  pose proof (compute_action_by_emergency_check self_vehicle vs t) as Henv.
  cbv zeta in Henv.
  assert (forall a, C._check_emergency_ahead self_vehicle vs t = Some a ->
                    C.compute_action self_vehicle vs t = a) as Hca.
  { intros a Ha. unfold C.compute_action. rewrite Ha. reflexivity. }
  revert Henv Hca. unfold C._check_emergency_ahead.
  destruct (C._find_closest_vehicle self_vehicle vs) as [[[c d] rv] |];
    [| intros (H & _) _; exact H].
  destruct (V.emergency_braking c); [| intros (H & _) _; exact H].
  cbn [andb]. unfold C._calculate_safe_distance, C.min_distance,
    C.safe_time_gap.
  destruct (d <? _); [| intros (H & _) _; exact H].
  destruct (C._evaluate_emergency_lane_change _ _ _ _);
    intros _ Hca; rewrite (Hca _ eq_refl);
    cbn [act_emergency act_target_lane act_acceleration].
  - split; reflexivity.
  - split; [reflexivity |].
    destruct (t - V.emergency_start_time c <? 1); reflexivity.
Qed.

(** ** One tick, vehicle by vehicle *)

Lemma apply_action_lane (v : V.t) (a : EnhancedVehicleAction) :
  (V.lane (Sim.apply_action v a) = V.lane v
   /\ V.is_changing_lane (Sim.apply_action v a) = V.is_changing_lane v)
  \/ (act_target_lane a = Some (V.lane (Sim.apply_action v a))
      /\ V.lane (Sim.apply_action v a) <> V.lane v
      /\ V.is_changing_lane v = false
      /\ V.is_changing_lane (Sim.apply_action v a) = true
      /\ V.previous_lane (Sim.apply_action v a) = V.lane v).
Proof.
  unfold Sim.apply_action.
  destruct (act_target_lane a) as [l |]; [| left; split; reflexivity].
  destruct v as [vid vrole vtype vlane ty vx vy vvel vacc vcol vsym vch vpr
                 vprev veb vest].
  unfold V.set_acceleration, V.initiate_lane_change. cbn.
  destruct (Lane_eqb l vlane) eqn:E; cbn; [left; split; reflexivity |].
  destruct vch; cbn; [left; split; reflexivity |].
  right. repeat split.
  intros Heq. apply Lane_eqb_eq in Heq. congruence.
Qed.

Lemma update_position_lane (v : V.t) (dt : Q) :
  V.lane (V.update_position v dt) = V.lane v
  /\ V.previous_lane (V.update_position v dt) = V.previous_lane v.
Proof.
  unfold V.update_position.
  destruct (V.is_changing_lane v); [destruct (1 <=? _) |]; split; reflexivity.
Qed.

Lemma control_ids (vehicle_states : list (string * Sim.VehicleStateEntry))
    (t : Q) (st : list V.t * gmap string EnhancedVehicleAction) (i : nat) :
  distinct_ids (fst st) ->
  distinct_ids (fst (Sim.control vehicle_states t st i)).
Proof.
  intros Hd i1 i2 a b Ha Hb Hid.
  pose proof (control_frame vehicle_states t st i) as Hf.
  destruct (Forall2_lookup_r _ _ _ _ _ Hf Ha) as (a0 & Ha0 & Hfa).
  destruct (Forall2_lookup_r _ _ _ _ _ Hf Hb) as (b0 & Hb0 & Hfb).
  apply (Hd i1 i2 a0 b0 Ha0 Hb0).
  destruct Hfa as (Hia & _), Hfb as (Hib & _). congruence.
Qed.

Section LoopTrace.

Variable vehicle_states : list (string * Sim.VehicleStateEntry).
Variable current_time : Q.

Abbreviation loop' := (fold_left (Sim.control vehicle_states current_time)).

Lemma loop_actions_notin (rest : list nat)
    (st : list V.t * gmap string EnhancedVehicleAction) (k : nat) (v : V.t) :
  distinct_ids (fst st) -> fst st !! k = Some v -> ~ In k rest ->
  snd (loop' rest st) !! V.id v = snd st !! V.id v.
Proof.
  revert st. induction rest as [| i rest IH]; intros st Hd Hv Hk;
    [reflexivity |].
  simpl. rewrite (IH (Sim.control vehicle_states current_time st i)).
  - unfold Sim.control. destruct (fst st !! i) as [vi |] eqn:Hvi;
      [| reflexivity].
    cbn [snd]. apply lookup_insert_ne. intros Hid.
    apply Hk. left. exact (Hd i k vi v Hvi Hv Hid).
  - apply control_ids, Hd.
  - rewrite control_lookup_ne; [exact Hv |].
    intros ->. apply Hk. left. reflexivity.
  - intros H. apply Hk. right. exact H.
Qed.

(** The vehicle at a position visited once ends the loop as its own
    controller's action left it, and that action is the one recorded under
    its key.  The controller saw the vehicles as they were at its turn:
    with the pre-loop positions, velocities, roles and emergency state. *)
Lemma loop_at (order : list nat)
    (st : list V.t * gmap string EnhancedVehicleAction) (k : nat) (v : V.t) :
  List.NoDup order -> In k order -> fst st !! k = Some v ->
  exists heap_k,
    Forall2 same_frame (fst st) heap_k
    /\ let action :=
         C.compute_action v (Sim.objects heap_k vehicle_states)
           current_time in
       fst (loop' order st) !! k = Some (Sim.apply_action v action)
       /\ (distinct_ids (fst st) ->
           snd (loop' order st) !! V.id v = Some action).
Proof.
  revert st. induction order as [| i order IH]; intros st Hnd Hin Hv;
    [destruct Hin |].
  inversion Hnd as [| ? ? Hni Hnd']; subst. simpl fold_left.
  destruct (Nat.eq_dec i k) as [-> | Hne].
  - exists (fst st). cbv zeta.
    split; [apply Forall2_rel_refl, same_frame_refl |]. split.
    + rewrite loop_lookup_notin by exact Hni.
      apply control_lookup_eq. exact Hv.
    + intros Hd.
      pose proof (control_lookup_eq vehicle_states current_time st k v Hv)
        as Hk1.
      pose proof (apply_action_frame v
        (C.compute_action v (Sim.objects (fst st) vehicle_states)
           current_time)) as (Hid & _).
      rewrite <- Hid.
      rewrite (loop_actions_notin order _ k _ (control_ids _ _ _ _ Hd) Hk1 Hni).
      rewrite Hid. unfold Sim.control. rewrite Hv. cbn [snd].
      apply lookup_insert_eq.
  - destruct Hin as [-> | Hin]; [contradiction |].
    destruct (IH (Sim.control vehicle_states current_time st i) Hnd' Hin)
      as (heap_k & Hf & Hres).
    { rewrite control_lookup_ne by exact Hne. exact Hv. }
    exists heap_k. split.
    + eapply Forall2_rel_trans; [| apply control_frame | exact Hf].
      intros a b c. apply same_frame_trans.
    + cbv zeta in *. destruct Hres as [H1 H2]. split; [exact H1 |].
      intros Hd. apply H2. apply control_ids, Hd.
Qed.

End LoopTrace.

Lemma lookup_map {A B : Type} (f : A -> B) (l : list A) (k : nat) :
  List.map f l !! k = option_map f (l !! k).
Proof.
  revert k. induction l as [| a l IH]; intros [| k]; simpl; auto.
Qed.

Lemma step_in_order_actions (order : list nat) (s : Sim.t) :
  last_actions (Sim.step_in_order order s)
  = snd (fold_left
           (Sim.control (Sim._get_vehicle_states (Sim.vehicles s))
              (Sim.time s))
           order (Sim.vehicles s, ∅)).
Proof.
  unfold last_actions, Sim.step_in_order.
  destruct (fold_left _ order _). simpl. rewrite last_snoc. reflexivity.
Qed.

(** What [step] does to the vehicle at one position. *)
Lemma step_at (s : Sim.t) (k : nat) (v : V.t) :
  Sim.vehicles s !! k = Some v ->
  exists heap_k,
    Forall2 same_frame (Sim.vehicles s) heap_k
    /\ let action := C.compute_action v heap_k (Sim.time s) in
       Sim.vehicles (Sim.step s) !! k
       = Some (V.update_position (Sim.apply_action v action) (Sim.dt s))
       /\ (distinct_ids (Sim.vehicles s) ->
           last_actions (Sim.step s) !! V.id v = Some action).
Proof.
  intros Hv. unfold Sim.step.
  destruct (loop_at (Sim._get_vehicle_states (Sim.vehicles s)) (Sim.time s)
              (seq 0 (List.length (Sim.vehicles s))) (Sim.vehicles s, ∅) k v)
    as (heap_k & Hf & Hres).
  - apply List.seq_NoDup.
  - apply in_seq. apply lookup_lt_Some in Hv. lia.
  - exact Hv.
  - exists heap_k. cbn [fst] in Hf. split; [exact Hf |].
    cbv zeta in *. cbn [fst snd] in Hres.
    rewrite objects_are_live in Hres
      by (symmetry; eapply Forall2_length; exact Hf).
    destruct Hres as [H1 H2]. split.
    + rewrite step_in_order_vehicles, lookup_map, H1. reflexivity.
    + intros Hd. rewrite step_in_order_actions. apply H2, Hd.
Qed.

(** X6.  A tick applies to every vehicle exactly the action it logs for it.
    With pairwise different vehicle ids, the vehicle at each position after
    [step] has the same id; its acceleration is the one of the action
    recorded under its id in the new history record, whatever acceleration
    was stored before, and lies in [-12, 2]; its velocity is the old velocity
    plus that acceleration times [dt], clamped to [0, 30]; its abscissa is
    the old one plus the new velocity times [dt]; and its lane is the old
    lane, or, if it was not changing lane, the neighbouring lane the
    recorded action names. *)
Theorem step_applies_logged_action (s : Sim.t) (k : nat) (v : V.t) :
  distinct_ids (Sim.vehicles s) ->
  Sim.vehicles s !! k = Some v ->
  exists (v' : V.t) (action : EnhancedVehicleAction),
    Sim.vehicles (Sim.step s) !! k = Some v'
    /\ last_actions (Sim.step s) !! V.id v = Some action
    /\ V.id v' = V.id v
    /\ V.acceleration v' = act_acceleration action
    /\ -12 <= V.acceleration v' <= 2
    /\ V.velocity v'
       = Qmax 0 (Qmin (V.velocity v + act_acceleration action * Sim.dt s) 30)
    /\ V.x v' = V.x v + V.velocity v' * Sim.dt s
    /\ (V.lane v' = V.lane v
        \/ (act_target_lane action = Some (V.lane v')
            /\ adjacent (V.lane v') (V.lane v) = true
            /\ V.is_changing_lane v = false)).
Proof.
  intros Hd Hv.
  destruct (step_at s k v Hv) as (heap_k & _ & Hres). cbv zeta in Hres.
  destruct Hres as [H1 H2]. specialize (H2 Hd).
  set (action := C.compute_action v heap_k (Sim.time s)) in *.
  exists (V.update_position (Sim.apply_action v action) (Sim.dt s)), action.
  pose proof (apply_action_frame v action)
    as (Hid & _ & _ & Hx & _ & Hvel & _).
  pose proof (apply_action_acceleration v action) as Hacc.
  pose proof (update_position_emergency (Sim.apply_action v action)
                (Sim.dt s)) as (Hid2 & _).
  assert (-12 <= act_acceleration action <= 2) as Henv
    by (split; [apply compute_action_lower_bound
               | apply compute_action_acceleration]).
  assert (V.acceleration
            (V.update_position (Sim.apply_action v action) (Sim.dt s))
          = act_acceleration action) as Hacc2.
  { rewrite <- Hacc. unfold V.update_position.
    destruct (V.is_changing_lane _); [destruct (1 <=? _) |]; reflexivity. }
  split; [exact H1 |]. split; [exact H2 |].
  split; [congruence |]. split; [exact Hacc2 |].
  split; [rewrite Hacc2; exact Henv |].
  split; [rewrite update_position_velocity, Hvel, Hacc; reflexivity |].
  split; [rewrite update_position_x, Hx; reflexivity |].
  destruct (update_position_lane (Sim.apply_action v action) (Sim.dt s))
    as [Hl _]. rewrite Hl.
  destruct (apply_action_lane v action)
    as [[Hsame _] | (Ht & Hne & Hc & _)]; [left; exact Hsame | right].
  split; [exact Ht |]. split; [| exact Hc].
  exact (compute_action_target_adjacent v heap_k (Sim.time s) _ Ht).
Qed.

(** ** The initial platoon *)

Lemma vehicle_key_inj (i j : nat) : V.vehicle_key i = V.vehicle_key j -> i = j.
Proof.
  unfold V.vehicle_key. intros H. injection H as H.
  change (NilEmpty.string_of_uint (Nat.to_uint i)
          = NilEmpty.string_of_uint (Nat.to_uint j)) in H.
  apply DecimalNat.Unsigned.to_uint_inj.
  pose proof (NilEmpty.usu (Nat.to_uint i)) as Hi.
  pose proof (NilEmpty.usu (Nat.to_uint j)) as Hj.
  rewrite H in Hi. congruence.
Qed.

Lemma initialize_vehicles_lookup (n k : nat) :
  (k < n)%nat ->
  Sim._initialize_vehicles n !! k
  = Some (match k with
          | O => V.init k LEADER NORMAL MIDDLE
          | _ => V.init k FOLLOWER NORMAL
                   (List.nth (k mod 3) [RIGHT; MIDDLE; LEFT] MIDDLE)
          end).
Proof.
  intros Hk. unfold Sim._initialize_vehicles.
  rewrite lookup_map.
  assert (seq 0 n !! k = Some k) as ->.
  { apply lookup_seq. split; [reflexivity | exact Hk]. }
  reflexivity.
Qed.

Lemma initialize_vehicles_length (n : nat) :
  List.length (Sim._initialize_vehicles n) = n.
Proof.
  unfold Sim._initialize_vehicles. rewrite List.length_map, List.length_seq.
  reflexivity.
Qed.

Lemma initialize_vehicles_lookup_inv (n k : nat) (v : V.t) :
  Sim._initialize_vehicles n !! k = Some v ->
  (k < n)%nat
  /\ v = match k with
         | O => V.init k LEADER NORMAL MIDDLE
         | _ => V.init k FOLLOWER NORMAL
                  (List.nth (k mod 3) [RIGHT; MIDDLE; LEFT] MIDDLE)
         end.
Proof.
  intros H. assert (k < n)%nat as Hk.
  { apply lookup_lt_Some in H. rewrite initialize_vehicles_length in H.
    exact H. }
  split; [exact Hk |]. rewrite (initialize_vehicles_lookup n k Hk) in H.
  congruence.
Qed.

Lemma initialize_vehicles_id (n k : nat) (v : V.t) :
  Sim._initialize_vehicles n !! k = Some v -> V.id v = V.vehicle_key k.
Proof.
  intros H. apply initialize_vehicles_lookup_inv in H as [_ ->].
  destruct k; reflexivity.
Qed.

Lemma initialize_vehicles_distinct (n : nat) :
  distinct_ids (Sim._initialize_vehicles n).
Proof.
  intros i j a b Ha Hb Hid.
  apply initialize_vehicles_id in Ha, Hb.
  apply vehicle_key_inj. congruence.
Qed.

Lemma initialize_vehicles_position (n k : nat) (v : V.t) :
  Sim._initialize_vehicles n !! k = Some v ->
  V.x v == 50 - 25 * inject_Z (Z.of_nat k) /\ V.velocity v = 20.
Proof.
  intros H. apply initialize_vehicles_lookup_inv in H as [_ ->].
  destruct k; [split; reflexivity |]. split; [| reflexivity].
  cbn [V.init V.x]. ring.
Qed.

Lemma initialize_vehicles_fields (n k : nat) (v : V.t) :
  Sim._initialize_vehicles n !! k = Some v ->
  V.id v = V.vehicle_key k
  /\ V.role v = (if Nat.eqb k 0 then LEADER else FOLLOWER)
  /\ V.x v == 50 - 25 * inject_Z (Z.of_nat k)
  /\ V.lane v = (if Nat.eqb k 0 then MIDDLE
                 else List.nth (k mod 3) [RIGHT; MIDDLE; LEFT] MIDDLE)
  /\ V.y v = _get_lane_center_y (V.lane v)
  /\ V.velocity v = 20
  /\ V.is_changing_lane v = false
  /\ V.emergency_braking v = false.
Proof.
  intros H. destruct (initialize_vehicles_position n k v H) as [Hx Hvel].
  pose proof (initialize_vehicles_id n k v H) as Hid.
  apply initialize_vehicles_lookup_inv in H as [_ ->].
  destruct k; repeat split; assumption.
Qed.

(** X7.  The platoon the constructor builds for [n] vehicles: [n] vehicles
    with pairwise different ids [vehicle_0 .. vehicle_(n-1)]; the first is
    the only Leader and sits at x = 50 in the middle lane; vehicle [k > 0] is
    a Follower 25 m behind vehicle [k - 1], in lane RIGHT, MIDDLE or LEFT as
    [k mod 3] is 0, 1 or 2; all drive at 20 m/s at their lane centre; and the
    collision detector reports nothing on it. *)
Theorem initial_platoon (n : nat) :
  List.length (Sim._initialize_vehicles n) = n
  /\ distinct_ids (Sim._initialize_vehicles n)
  /\ (forall k v, Sim._initialize_vehicles n !! k = Some v ->
        V.id v = V.vehicle_key k
        /\ V.role v = (if Nat.eqb k 0 then LEADER else FOLLOWER)
        /\ V.x v == 50 - 25 * inject_Z (Z.of_nat k)
        /\ V.lane v = (if Nat.eqb k 0 then MIDDLE
                       else List.nth (k mod 3) [RIGHT; MIDDLE; LEFT] MIDDLE)
        /\ V.y v = _get_lane_center_y (V.lane v)
        /\ V.velocity v = 20
        /\ V.is_changing_lane v = false
        /\ V.emergency_braking v = false)
  /\ Sim._check_collisions (Sim._initialize_vehicles n) = [].
Proof.
  split; [apply initialize_vehicles_length |].
  split; [apply initialize_vehicles_distinct |].
  pose proof (initialize_vehicles_position n) as Hxv.
  split.
  - apply initialize_vehicles_fields.
  - apply check_collisions_nil.
    assert (forall l : list V.t,
              (forall i j a b, (i < j)%nat -> l !! i = Some a ->
                 l !! j = Some b -> Sim.boxes_overlap a b = false) ->
              ForallOrdPairs (fun a b => Sim.boxes_overlap a b = false) l)
      as Hpairs.
    { induction l as [| a l IH]; intros H; constructor.
      - apply Forall_lookup. intros j b Hb.
        apply (H 0%nat (S j) a b); [lia | reflexivity | exact Hb].
      - apply IH. intros i j a' b' Hij Ha' Hb'.
        apply (H (S i) (S j) a' b'); [lia | exact Ha' | exact Hb']. }
    apply Hpairs. intros i j a b Hij Ha Hb.
    destruct (Hxv i a Ha) as [Hxa _], (Hxv j b Hb) as [Hxb _].
    unfold Sim.boxes_overlap, V.get_bounding_box. cbv beta iota zeta.
    apply andb_false_iff. left. apply andb_false_iff. left.
    apply Qlt_bool_false_iff. unfold V.length.
    assert (4.5 / 2 == 2.25) as Hh by reflexivity.
    rewrite Hh, Hxa, Hxb.
    assert (inject_Z (Z.of_nat i + 1) <= inject_Z (Z.of_nat j)) as Hz
      by (rewrite <- Zle_Qle; lia).
    rewrite inject_Z_plus in Hz. change (inject_Z 1) with 1 in Hz.
    lra.
Qed.

Lemma step_applies_logged_action_witness :
  exists (v' : V.t) (action : EnhancedVehicleAction),
    Sim.vehicles (Sim.step platoon3_state) !! 1%nat = Some v'
    /\ last_actions (Sim.step platoon3_state) !! "vehicle_1"%string
       = Some action
    /\ V.acceleration v' = act_acceleration action.
Proof.
  destruct (step_applies_logged_action platoon3_state 1
              (V.init 1 FOLLOWER NORMAL MIDDLE))
    as (v' & action & H1 & H2 & _ & H3 & _).
  - apply initialize_vehicles_distinct.
  - reflexivity.
  - exists v', action. auto.
Defined.

(** ** Invariants of the simulation *)

Lemma update_position_identity (v : V.t) (dt : Q) :
  same_identity v (V.update_position v dt).
Proof.
  unfold V.update_position.
  destruct (V.is_changing_lane v); [destruct (1 <=? _) |]; repeat split.
Qed.

Lemma same_identity_trans (a b c : V.t) :
  same_identity a b -> same_identity b c -> same_identity a c.
Proof.
  unfold same_identity. intros (?&?&?&?&?) (?&?&?&?&?).
  repeat split; congruence.
Qed.

Lemma step_same_identity (s : Sim.t) :
  Forall2 same_identity (Sim.vehicles s) (Sim.vehicles (Sim.step s)).
Proof.
  unfold Sim.step. rewrite step_in_order_vehicles.
  pose proof (loop_frame (Sim._get_vehicle_states (Sim.vehicles s))
                (Sim.time s) (seq 0 (List.length (Sim.vehicles s)))
                (Sim.vehicles s, ∅)) as Hf.
  simpl in Hf. revert Hf.
  generalize (fst (fold_left
    (Sim.control (Sim._get_vehicle_states (Sim.vehicles s)) (Sim.time s))
    (seq 0 (List.length (Sim.vehicles s))) (Sim.vehicles s, ∅))).
  generalize (Sim.vehicles s).
  intros l l' Hf. induction Hf as [| a b l l' Hab _ IH]; simpl; constructor.
  - destruct Hab as (Hid & Hr & Hty & _ & _ & _ & Hb & Ht).
    eapply same_identity_trans; [| apply update_position_identity].
    repeat split; assumption.
  - exact IH.
Qed.

Lemma step_fields (s : Sim.t) :
  Sim.dt (Sim.step s) = Sim.dt s
  /\ Sim.time (Sim.step s) = Sim.time s + Sim.dt s
  /\ Sim.scenario (Sim.step s) = Sim.scenario s
  /\ Sim.emergency_vehicle (Sim.step s) = Sim.emergency_vehicle s
  /\ Sim.priority_vehicle (Sim.step s) = Sim.priority_vehicle s
  /\ Sim.emergency_triggered (Sim.step s) = Sim.emergency_triggered s
  /\ Sim.priority_added (Sim.step s) = Sim.priority_added s.
Proof.
  unfold Sim.step, Sim.step_in_order. destruct (fold_left _ _ _).
  repeat split.
Qed.

Section RelTransfer.

Variable R : V.t -> V.t -> Prop.

Lemma distinct_ids_rel (vs vs' : list V.t) :
  (forall a b, R a b -> V.id b = V.id a) ->
  Forall2 R vs vs' -> distinct_ids vs -> distinct_ids vs'.
Proof.
  intros HR Hrel Hd i j a b Ha Hb Hid.
  destruct (Forall2_lookup_r _ _ _ _ _ Hrel Ha) as (a0 & Ha0 & Hra).
  destruct (Forall2_lookup_r _ _ _ _ _ Hrel Hb) as (b0 & Hb0 & Hrb).
  apply (Hd i j a0 b0 Ha0 Hb0).
  rewrite <- (HR _ _ Hra), <- (HR _ _ Hrb). exact Hid.
Qed.

Lemma unique_role_rel (r : VehicleRole) (vs vs' : list V.t) :
  (forall a b, R a b -> V.role b = r -> V.role a = r) ->
  Forall2 R vs vs' -> unique_role r vs -> unique_role r vs'.
Proof.
  intros HR Hrel Hu i j a b Ha Hb Hra Hrb.
  destruct (Forall2_lookup_r _ _ _ _ _ Hrel Ha) as (a0 & Ha0 & Hr1).
  destruct (Forall2_lookup_r _ _ _ _ _ Hrel Hb) as (b0 & Hb0 & Hr2).
  apply (Hu i j a0 b0 Ha0 Hb0); eapply HR; eassumption.
Qed.

Lemma has_key_rel (k : string) (vs vs' : list V.t) :
  (forall a b, R a b -> V.id b = V.id a) ->
  Forall2 R vs vs' -> Sim.has_key k vs' = Sim.has_key k vs.
Proof.
  intros HR. unfold Sim.has_key.
  induction 1 as [| a b l l' Hab _ IH]; [reflexivity |].
  simpl. rewrite (HR _ _ Hab), IH. reflexivity.
Qed.

Lemma Forall_rel (P P' : V.t -> Prop) (vs vs' : list V.t) :
  (forall a b, R a b -> P a -> P' b) ->
  Forall2 R vs vs' -> Forall P vs -> Forall P' vs'.
Proof.
  intros HP. induction 1 as [| a b l l' Hab _ IH]; intros H; [constructor |].
  inversion H; subst. constructor; [eapply HP; eassumption | auto].
Qed.

Lemma Exists_rel (P P' : V.t -> Prop) (vs vs' : list V.t) :
  (forall a b, R a b -> P a -> P' b) ->
  Forall2 R vs vs' -> Exists P vs -> Exists P' vs'.
Proof.
  intros HP. induction 1 as [| a b l l' Hab _ IH]; intros H;
    inversion H; subst.
  - apply Exists_cons_hd. eapply HP; eassumption.
  - apply Exists_cons_tl. auto.
Qed.

End RelTransfer.

Lemma alter_key_Forall2 (R : V.t -> V.t -> Prop) (f : V.t -> V.t)
    (k : string) (vs : list V.t) :
  (forall v, R v v) -> (forall v, V.id v = k -> R v (f v)) ->
  Forall2 R vs (Sim.alter_key f k vs).
Proof.
  intros Hr Hf. induction vs as [| v vs IH]; simpl; [constructor |].
  destruct (String.eqb (V.id v) k) eqn:E.
  - apply String.eqb_eq in E.
    constructor; [apply Hf, E | apply Forall2_rel_refl, Hr].
  - constructor; [apply Hr | exact IH].
Qed.

(** [alter_key] writes to one position, the first with the key. *)
Lemma alter_key_position (f : V.t -> V.t) (k : string) (vs : list V.t) :
  Sim.has_key k vs = true ->
  exists i v, vs !! i = Some v /\ V.id v = k
              /\ Sim.alter_key f k vs = <[i := f v]> vs.
Proof.
  induction vs as [| v vs IH]; simpl; [discriminate |].
  destruct (String.eqb (V.id v) k) eqn:E; simpl.
  - intros _. exists 0%nat, v. apply String.eqb_eq in E. auto.
  - intros H. destruct (IH H) as (i & w & Hw & Hid & Heq).
    exists (S i), w. simpl. rewrite Heq. auto.
Qed.

Lemma has_key_Exists (k : string) (vs : list V.t) :
  Sim.has_key k vs = true <-> Exists (fun v => V.id v = k) vs.
Proof.
  unfold Sim.has_key. rewrite existsb_exists, List.Exists_exists.
  split; intros (v & Hin & H); exists v; split; try assumption;
    apply String.eqb_eq; exact H.
Qed.

Lemma vehicle_key_nonempty (k : nat) : V.vehicle_key k <> ""%string.
Proof. unfold V.vehicle_key. discriminate. Qed.

Lemma vehicle_wf_init (k : nat) (r : VehicleRole) (ty : VehicleType)
    (l : Lane) :
  vehicle_wf (V.init k r ty l).
Proof.
  split; [apply vehicle_key_nonempty |].
  split; [cbn; lra |].
  split; [apply lane_inv_init | apply lateral_inv_init].
Qed.

Lemma vehicle_wf_apply_action (v : V.t) (a : EnhancedVehicleAction) :
  vehicle_wf v -> vehicle_wf (Sim.apply_action v a).
Proof.
  intros (Hid & Hvel & Hl & Hy).
  assert (vehicle_wf (V.set_acceleration v (act_acceleration a))) as H1.
  { repeat split; try apply Hvel; try apply Hl; try exact Hid. exact Hy. }
  unfold Sim.apply_action.
  destruct (act_target_lane a) as [l |]; [| exact H1].
  destruct (negb _); [| exact H1].
  set (w := V.set_acceleration v (act_acceleration a)) in *.
  destruct H1 as (Hid1 & Hvel1 & Hl1 & Hy1).
  pose proof (lane_inv_initiate w l Hl1) as Hl2.
  pose proof (lateral_inv_initiate w l Hy1) as Hy2.
  split; [| split; [| split; assumption]];
    unfold V.initiate_lane_change; destruct (_ && _); assumption.
Qed.

Lemma vehicle_wf_update (v : V.t) (dt : Q) :
  0 <= dt -> vehicle_wf v -> vehicle_wf (V.update_position v dt).
Proof.
  intros Hdt (Hid & Hvel & Hl & Hy).
  split; [| split; [apply update_position_velocity_bounds |
                    split; [apply lane_inv_update; assumption |
                            apply lateral_inv_update; assumption]]].
  destruct (update_position_identity v dt) as (-> & _). exact Hid.
Qed.

Lemma step_lookup_inv (s : Sim.t) (k : nat) (v' : V.t) :
  Sim.vehicles (Sim.step s) !! k = Some v' ->
  exists v action,
    Sim.vehicles s !! k = Some v
    /\ v' = V.update_position (Sim.apply_action v action) (Sim.dt s).
Proof.
  intros H.
  destruct (Forall2_lookup_r _ _ _ _ _ (step_same_identity s) H)
    as (v & Hv & _).
  destruct (step_at s k v Hv) as (heap_k & _ & Hres). cbv zeta in Hres.
  destruct Hres as [H1 _]. rewrite H1 in H. injection H as <-.
  eauto.
Qed.

Lemma same_identity_id (a b : V.t) : same_identity a b -> V.id b = V.id a.
Proof. intros (H & _). exact H. Qed.

Lemma same_identity_role (r : VehicleRole) (a b : V.t) :
  same_identity a b -> V.role b = r -> V.role a = r.
Proof. intros (_ & H & _) Hr. congruence. Qed.

Lemma sim_wf_init (n : nat) (dt0 : Q) (scenario0 : string) :
  0 <= dt0 -> sim_wf (Sim.init n dt0 scenario0).
Proof.
  intros Hdt. unfold sim_wf, Sim.init. cbn [Sim.dt Sim.vehicles
    Sim.emergency_vehicle Sim.priority_added Sim.priority_vehicle
    Sim.emergency_triggered].
  pose proof (initialize_vehicles_distinct n) as Hd.
  pose proof (initialize_vehicles_fields n) as Hk.
  split; [exact Hdt |]. split; [exact Hd |].
  split.
  { apply Forall_lookup. intros k v H.
    apply initialize_vehicles_lookup_inv in H as [_ ->].
    destruct k; apply vehicle_wf_init. }
  split.
  { intros i j a b Ha Hb Hra Hrb.
    destruct (Hk i a Ha) as (_ & Hr1 & _), (Hk j b Hb) as (_ & Hr2 & _).
    rewrite Hra in Hr1. rewrite Hrb in Hr2.
    destruct i, j; simpl in *; congruence. }
  split.
  { intros i j a b Ha Hb Hra Hrb.
    destruct (Hk i a Ha) as (_ & Hr1 & _). rewrite Hra in Hr1.
    destruct i; discriminate. }
  split; [exact I |]. split.
  { split; [reflexivity |]. apply Forall_lookup. intros k v H.
    destruct (Hk k v H) as (_ & Hr1 & _). rewrite Hr1.
    destruct (Nat.eqb k 0); discriminate. }
  intros _. apply Forall_lookup. intros k v H.
  destruct (Hk k v H) as (_ & _ & _ & _ & _ & _ & _ & He). exact He.
Qed.

Lemma sim_wf_step (s : Sim.t) : sim_wf s -> sim_wf (Sim.step s).
Proof.
  intros (Hdt & Hd & Hwf & Hl & Hp & He & Hpa & Het).
  pose proof (step_same_identity s) as Hrel.
  pose proof (step_fields s) as (Fdt & _ & _ & Fev & Fpv & Fet & Fpa).
  unfold sim_wf. rewrite Fdt, Fev, Fpv, Fet, Fpa.
  split; [exact Hdt |].
  split; [eapply distinct_ids_rel;
          [apply same_identity_id | exact Hrel | exact Hd] |].
  split.
  { apply Forall_lookup. intros k v' H.
    destruct (step_lookup_inv s k v' H) as (v & action & Hv & ->).
    apply vehicle_wf_update; [exact Hdt |]. apply vehicle_wf_apply_action.
    rewrite Forall_lookup in Hwf. exact (Hwf k v Hv). }
  split; [eapply unique_role_rel;
          [apply same_identity_role | exact Hrel | exact Hl] |].
  split; [eapply unique_role_rel;
          [apply same_identity_role | exact Hrel | exact Hp] |].
  split.
  { destruct (Sim.emergency_vehicle s) as [ev |]; [| exact I].
    rewrite (has_key_rel _ ev _ _ same_identity_id Hrel). exact He. }
  split.
  { destruct (Sim.priority_added s).
    - destruct Hpa as (p & Hpv & Hex). exists p. split; [exact Hpv |].
      eapply Exists_rel; [| exact Hrel | exact Hex].
      intros a b (Hid & Hr & _) [H1 H2]. split; congruence.
    - destruct Hpa as [Hpv Hno]. split; [exact Hpv |].
      eapply Forall_rel; [| exact Hrel | exact Hno].
      intros a b (_ & Hr & _) H. congruence. }
  intros Ht. eapply Forall_rel; [| exact Hrel | exact (Het Ht)].
  intros a b (_ & _ & _ & Hb & _) H. congruence.
Qed.

Lemma sim_wf_set_emergency_vehicle (s : Sim.t) (k : string) :
  sim_wf s -> sim_wf (Sim.set_emergency_vehicle s k).
Proof.
  intros Hwf. unfold Sim.set_emergency_vehicle.
  destruct (Sim.has_key k (Sim.vehicles s)) eqn:Hk; [| exact Hwf].
  destruct Hwf as (Hdt & Hd & Hv & Hl & Hp & He & Hpa & Het).
  unfold sim_wf.
  cbn [Sim.dt Sim.vehicles Sim.emergency_vehicle Sim.priority_added
       Sim.priority_vehicle Sim.emergency_triggered].
  repeat (split; [assumption |]). exact Het.
Qed.

Lemma vehicle_wf_make_priority (v : V.t) :
  vehicle_wf v -> vehicle_wf (V.make_priority v).
Proof. intros H. exact H. Qed.

Lemma vehicle_wf_trigger (v : V.t) (t : Q) :
  vehicle_wf v -> vehicle_wf (V.trigger_emergency_braking v t).
Proof. intros H. exact H. Qed.

Lemma sim_wf_set_priority_vehicle (s : Sim.t) (k : string) :
  sim_wf s -> sim_wf (Sim.set_priority_vehicle s k).
Proof.
  intros Hwf. unfold Sim.set_priority_vehicle.
  destruct (Sim.has_key k (Sim.vehicles s)) eqn:Hk; [| exact Hwf].
  destruct (Sim.priority_added s) eqn:Hadded; [exact Hwf |].
  cbn [negb andb].
  destruct Hwf as (Hdt & Hd & Hv & Hl & Hp & He & Hpa & Het).
  rewrite Hadded in Hpa. destruct Hpa as [_ Hno].
  destruct (alter_key_position V.make_priority k (Sim.vehicles s) Hk)
    as (i & w & Hw & Hid & Heq).
  pose proof (alter_key_Forall2 (fun a b => V.id b = V.id a
                                   /\ V.emergency_braking b
                                      = V.emergency_braking a
                                   /\ (vehicle_wf a -> vehicle_wf b))
                V.make_priority k (Sim.vehicles s)) as Hrel.
  specialize (Hrel (fun v => conj eq_refl (conj eq_refl (fun H => H)))).
  specialize (Hrel (fun v _ => conj eq_refl (conj eq_refl
                                 (vehicle_wf_make_priority v)))).
  unfold sim_wf.
  cbn [Sim.dt Sim.vehicles Sim.emergency_vehicle Sim.priority_added
       Sim.priority_vehicle Sim.emergency_triggered].
  split; [exact Hdt |].
  split; [eapply distinct_ids_rel; [| exact Hrel | exact Hd];
          intros a b (H & _); exact H |].
  split; [eapply Forall_rel; [| exact Hrel | exact Hv];
          intros a b (_ & _ & H); exact H |].
  assert (forall j b, Sim.alter_key V.make_priority k (Sim.vehicles s) !! j
                      = Some b ->
                      (j = i /\ V.role b = PRIORITY)
                      \/ (j <> i /\ Sim.vehicles s !! j = Some b)) as Hpos.
  { intros j b Hb. rewrite Heq in Hb.
    destruct (Nat.eq_dec j i) as [-> | Hne].
    - left. rewrite list_lookup_insert_eq in Hb
        by (eapply lookup_lt_Some; exact Hw).
      injection Hb as <-. split; reflexivity.
    - right. rewrite list_lookup_insert_ne in Hb by congruence.
      split; assumption. }
  rewrite Forall_lookup in Hno.
  split.
  { intros j1 j2 a b Ha Hb Hra Hrb.
    destruct (Hpos j1 a Ha) as [[_ Hr1] | [_ Ha0]]; [congruence |].
    destruct (Hpos j2 b Hb) as [[_ Hr2] | [_ Hb0]]; [congruence |].
    exact (Hl j1 j2 a b Ha0 Hb0 Hra Hrb). }
  split.
  { intros j1 j2 a b Ha Hb Hra Hrb.
    destruct (Hpos j1 a Ha) as [[-> _] | [_ Ha0]];
      [| exfalso; exact (Hno j1 a Ha0 Hra)].
    destruct (Hpos j2 b Hb) as [[-> _] | [_ Hb0]];
      [reflexivity | exfalso; exact (Hno j2 b Hb0 Hrb)]. }
  split.
  { destruct (Sim.emergency_vehicle s) as [ev |]; [| exact I].
    rewrite (has_key_rel _ ev _ _ (fun a b H => proj1 H) Hrel). exact He. }
  split.
  { exists k. split; [reflexivity |].
    rewrite Heq. apply List.Exists_exists. exists (V.make_priority w).
    split; [| split; [exact Hid | reflexivity]].
    apply list_elem_of_In. apply list_elem_of_lookup. exists i.
    apply list_lookup_insert_eq. eapply lookup_lt_Some. exact Hw. }
  intros Ht. eapply Forall_rel; [| exact Hrel | exact (Het Ht)].
  intros a b (_ & Hb & _) H. congruence.
Qed.

Lemma sim_wf_trigger_emergency (s : Sim.t) :
  sim_wf s -> sim_wf (exec_op s OpTriggerEmergency).
Proof.
  intros Hwf. cbn [exec_op]. unfold Sim.trigger_emergency.
  destruct (Sim.emergency_vehicle s) as [ev |] eqn:Hev; [| exact Hwf].
  destruct (Sim.truthy (Some ev) && negb (Sim.emergency_triggered s));
    [| exact Hwf].
  destruct (Sim.has_key ev (Sim.vehicles s)) eqn:Hk; [| exact Hwf].
  destruct Hwf as (Hdt & Hd & Hv & Hl & Hp & He & Hpa & Het).
  pose proof (alter_key_Forall2
                (fun a b => V.id b = V.id a /\ V.role b = V.role a
                            /\ (vehicle_wf a -> vehicle_wf b))
                (fun v => V.trigger_emergency_braking v (Sim.time s))
                ev (Sim.vehicles s)) as Hrel.
  specialize (Hrel (fun v => conj eq_refl (conj eq_refl (fun H => H)))).
  specialize (Hrel (fun v _ => conj eq_refl (conj eq_refl
                     (vehicle_wf_trigger v (Sim.time s))))).
  unfold sim_wf.
  cbn [Sim.dt Sim.vehicles Sim.emergency_vehicle Sim.priority_added
       Sim.priority_vehicle Sim.emergency_triggered].
  split; [exact Hdt |].
  split; [eapply distinct_ids_rel; [| exact Hrel | exact Hd];
          intros a b (H & _); exact H |].
  split; [eapply Forall_rel; [| exact Hrel | exact Hv];
          intros a b (_ & _ & H); exact H |].
  split; [eapply unique_role_rel; [| exact Hrel | exact Hl];
          intros a b (_ & H & _) Hr; congruence |].
  split; [eapply unique_role_rel; [| exact Hrel | exact Hp];
          intros a b (_ & H & _) Hr; congruence |].
  split.
  { rewrite (has_key_rel _ ev _ _ (fun a b H => proj1 H) Hrel). exact Hk. }
  split; [| discriminate].
  destruct (Sim.priority_added s).
  - destruct Hpa as (p & Hpv & Hex). exists p. split; [exact Hpv |].
    eapply Exists_rel; [| exact Hrel | exact Hex].
    intros a b (Hid & Hr & _) [H1 H2]. split; congruence.
  - destruct Hpa as [Hpv Hno]. split; [exact Hpv |].
    eapply Forall_rel; [| exact Hrel | exact Hno].
    intros a b (_ & Hr & _) H. congruence.
Qed.

Lemma sim_wf_reset (s : Sim.t) : sim_wf s -> sim_wf (Sim.reset s).
Proof.
  intros (Hdt & _).
  exact (sim_wf_init 4 (Sim.dt s) (Sim.scenario s) Hdt).
Qed.

Lemma sim_wf_exec_cmd (s : Sim.t) (c : sim_cmd) :
  sim_wf s -> sim_wf (exec_cmd s c).
Proof.
  intros Hwf. destruct c as [[| k | k |] |]; cbn [exec_cmd].
  - apply sim_wf_step, Hwf.
  - apply sim_wf_set_emergency_vehicle, Hwf.
  - apply sim_wf_set_priority_vehicle, Hwf.
  - apply sim_wf_trigger_emergency, Hwf.
  - apply sim_wf_reset, Hwf.
Qed.

Lemma sim_wf_run_cmds (cmds : list sim_cmd) (s : Sim.t) :
  sim_wf s -> sim_wf (run_cmds cmds s).
Proof.
  revert s. induction cmds as [| c cmds IH]; intros s Hwf; [exact Hwf |].
  simpl. apply IH, sim_wf_exec_cmd, Hwf.
Qed.

(** X8.  In every state the simulation can reach from its constructor by
    [step], [set_emergency_vehicle], [set_priority_vehicle],
    [trigger_emergency] and [reset] (time step not negative), every vehicle
    has a velocity in [0, 30], a lane-change progress in [0, 1), and a
    lateral position that is the interpolation its lane-change state
    describes, between -4 and 4. *)
Theorem reachable_vehicles_in_range (n : nat) (dt0 : Q) (scenario0 : string)
    (cmds : list sim_cmd) :
  0 <= dt0 ->
  Forall (fun v => (0 <= V.velocity v <= 30)
                   /\ (0 <= V.lane_change_progress v
                       /\ V.lane_change_progress v < 1)
                   /\ lateral_inv v
                   /\ (-4 <= V.y v <= 4))
    (Sim.vehicles (run_cmds cmds (Sim.init n dt0 scenario0))).
Proof.
  intros Hdt.
  pose proof (sim_wf_run_cmds cmds _ (sim_wf_init n dt0 scenario0 Hdt))
    as (_ & _ & Hv & _).
  eapply List.Forall_impl; [| exact Hv].
  intros v (_ & Hvel & Hl & Hy).
  split; [exact Hvel |].
  split; [destruct Hl as (_ & H0 & H1 & _); split; assumption |].
  split; [exact Hy |].
  apply lateral_inv_range; assumption.
Qed.

Lemma reachable_vehicles_in_range_witness :
  Forall (fun v => (0 <= V.velocity v <= 30)
                   /\ (0 <= V.lane_change_progress v
                       /\ V.lane_change_progress v < 1)
                   /\ lateral_inv v
                   /\ (-4 <= V.y v <= 4))
    (Sim.vehicles
       (run_cmds [Cmd OpStep; Cmd (OpSetPriorityVehicle "vehicle_2");
                  Cmd OpStep; CmdReset; Cmd OpStep]
          (Sim.init 3 0.1 "priority"))).
Proof.
  apply reachable_vehicles_in_range.
  apply Qle_bool_iff. vm_compute. reflexivity.
Defined.

(** X9.  In every reachable state the vehicle ids are pairwise different, at
    most one vehicle is Leader and at most one is Priority.  As long as
    [priority_added] is unset no vehicle has role Priority and
    [priority_vehicle] is [None]; once it is set, [priority_vehicle] names a
    vehicle that has role Priority. *)
Theorem reachable_roles (n : nat) (dt0 : Q) (scenario0 : string)
    (cmds : list sim_cmd) :
  0 <= dt0 ->
  let s := run_cmds cmds (Sim.init n dt0 scenario0) in
  distinct_ids (Sim.vehicles s)
  /\ unique_role LEADER (Sim.vehicles s)
  /\ unique_role PRIORITY (Sim.vehicles s)
  /\ (if Sim.priority_added s
      then exists p, Sim.priority_vehicle s = Some p
                     /\ Exists (fun v => V.id v = p /\ V.role v = PRIORITY)
                          (Sim.vehicles s)
      else Sim.priority_vehicle s = None
           /\ Forall (fun v => V.role v <> PRIORITY) (Sim.vehicles s)).
Proof.
  intros Hdt. cbv zeta.
  pose proof (sim_wf_run_cmds cmds _ (sim_wf_init n dt0 scenario0 Hdt))
    as (_ & Hd & _ & Hl & Hp & _ & Hpa & _).
  auto.
Qed.

Lemma reachable_roles_witness :
  unique_role PRIORITY
    (Sim.vehicles
       (run_cmds [Cmd (OpSetPriorityVehicle "vehicle_2"); Cmd OpStep;
                  Cmd (OpSetPriorityVehicle "vehicle_1")]
          (Sim.init 3 0.1 "priority"))).
Proof.
  apply (reachable_roles 3 0.1 "priority").
  apply Qle_bool_iff. vm_compute. reflexivity.
Defined.

(** X10.  In every reachable state [trigger_emergency] returns without a
    [KeyError]; it returns [True] exactly when an emergency vehicle is
    designated and the emergency has not been triggered yet, and on [False]
    the simulation is unchanged.  Before the first successful trigger no
    vehicle carries the [emergency_braking] flag. *)
Theorem trigger_emergency_total (n : nat) (dt0 : Q) (scenario0 : string)
    (cmds : list sim_cmd) :
  0 <= dt0 ->
  let s := run_cmds cmds (Sim.init n dt0 scenario0) in
  (exists (b : bool) (s' : Sim.t),
     Sim.trigger_emergency s = Some (b, s')
     /\ b = (match Sim.emergency_vehicle s with
             | Some _ => negb (Sim.emergency_triggered s)
             | None => false
             end)
     /\ (b = false -> s' = s)
     /\ (b = true -> Sim.emergency_triggered s' = true))
  /\ (Sim.emergency_triggered s = false ->
      Forall (fun v => V.emergency_braking v = false) (Sim.vehicles s)).
Proof.
  intros Hdt. cbv zeta.
  pose proof (sim_wf_run_cmds cmds _ (sim_wf_init n dt0 scenario0 Hdt))
    as (_ & _ & Hv & _ & _ & He & _ & Het).
  split; [| exact Het].
  unfold Sim.trigger_emergency.
  destruct (Sim.emergency_vehicle _) as [ev |];
    [| exists false; eexists; split; [reflexivity |];
       split; [reflexivity | split; [reflexivity | discriminate]]].
  rewrite He.
  assert (Sim.truthy (Some ev) = true) as ->.
  { apply has_key_Exists in He. apply List.Exists_exists in He
      as (v & Hin & Hid).
    rewrite List.Forall_forall in Hv. destruct (Hv v Hin) as (Hne & _).
    cbn [Sim.truthy]. apply negb_true_iff, not_true_iff_false.
    rewrite String.eqb_eq. congruence. }
  cbn [andb].
  destruct (Sim.emergency_triggered _) eqn:Et; cbn [negb].
  - exists false. eexists. split; [reflexivity |].
    split; [reflexivity | split; [reflexivity | discriminate]].
  - exists true. eexists. split; [reflexivity |].
    split; [reflexivity |]. split; [discriminate | reflexivity].
Qed.

Lemma trigger_emergency_total_witness :
  exists (b : bool) (s' : Sim.t),
    Sim.trigger_emergency
      (run_cmds [Cmd (OpSetEmergencyVehicle "vehicle_1"); Cmd OpStep]
         (Sim.init 3 0.1 "emergency")) = Some (b, s').
Proof.
  destruct (trigger_emergency_total 3 0.1 "emergency"
              [Cmd (OpSetEmergencyVehicle "vehicle_1"); Cmd OpStep])
    as [(b & s' & H & _) _].
  - apply Qle_bool_iff. vm_compute. reflexivity.
  - exists b, s'. exact H.
Defined.

(** X11.  References to unknown vehicles are ignored: [set_emergency_vehicle]
    and [set_priority_vehicle] with an id that is no key of the vehicles
    leave the simulation as it is, and [trigger_emergency] with no
    designated vehicle returns [False] and leaves it as it is.  The first
    [set_priority_vehicle] with a known id writes to exactly one vehicle, the
    one with that id: it becomes a Priority ambulance, keeps everything else
    (position, velocity, lane, emergency state), and no other vehicle is
    touched. *)
Theorem unknown_reference_ignored (s : Sim.t) (vehicle_id : string) :
  (Sim.has_key vehicle_id (Sim.vehicles s) = false ->
     Sim.set_emergency_vehicle s vehicle_id = s
     /\ Sim.set_priority_vehicle s vehicle_id = s)
  /\ (Sim.emergency_vehicle s = None ->
        Sim.trigger_emergency s = Some (false, s))
  /\ (Sim.has_key vehicle_id (Sim.vehicles s) = true ->
      Sim.priority_added s = false ->
      exists i v,
        Sim.vehicles s !! i = Some v /\ V.id v = vehicle_id
        /\ Sim.vehicles (Sim.set_priority_vehicle s vehicle_id)
           = <[i := V.make_priority v]> (Sim.vehicles s)
        /\ V.role (V.make_priority v) = PRIORITY
        /\ V.vehicle_type (V.make_priority v) = AMBULANCE
        /\ V.x (V.make_priority v) = V.x v
        /\ V.y (V.make_priority v) = V.y v
        /\ V.velocity (V.make_priority v) = V.velocity v
        /\ V.acceleration (V.make_priority v) = V.acceleration v
        /\ V.lane (V.make_priority v) = V.lane v
        /\ V.is_changing_lane (V.make_priority v) = V.is_changing_lane v
        /\ V.emergency_braking (V.make_priority v) = V.emergency_braking v).
Proof.
  split; [| split].
  - intros Hk. unfold Sim.set_emergency_vehicle, Sim.set_priority_vehicle.
    rewrite Hk. split; reflexivity.
  - intros He. unfold Sim.trigger_emergency. rewrite He. reflexivity.
  - intros Hk Hp.
    destruct (alter_key_position V.make_priority vehicle_id _ Hk)
      as (i & v & Hv & Hid & Heq).
    exists i, v. unfold Sim.set_priority_vehicle. rewrite Hk, Hp.
    cbn [negb andb Sim.vehicles]. rewrite Heq.
    repeat split; try assumption.
Qed.

Lemma unknown_reference_ignored_witness :
  Sim.set_emergency_vehicle platoon3_state "vehicle_7" = platoon3_state
  /\ Sim.set_priority_vehicle platoon3_state "vehicle_7" = platoon3_state
  /\ Sim.trigger_emergency platoon3_state = Some (false, platoon3_state).
Proof.
  destruct (unknown_reference_ignored platoon3_state "vehicle_7")
    as (H1 & H2 & _).
  split; [apply H1; reflexivity |].
  split; [apply H1; reflexivity | apply H2; reflexivity].
Defined.

(** ** Statistics over the log *)

Lemma fold_add_snoc (l : list Z) (x a : Z) :
  fold_left Z.add (l ++ [x]) a = (fold_left Z.add l a + x)%Z.
Proof. rewrite fold_left_app. reflexivity. Qed.

Lemma fold_add_nonneg (l : list Z) (a : Z) :
  Forall (fun x => (0 <= x)%Z) l -> (a <= fold_left Z.add l a)%Z.
Proof.
  revert a. induction l as [| x l IH]; intros a H; simpl; [lia |].
  inversion H; subst. specialize (IH (a + x)%Z ltac:(assumption)). lia.
Qed.

Lemma collisions_in_nonneg (h : list Sim.StepRecord) :
  (0 <= collisions_in h)%Z.
Proof.
  unfold collisions_in. apply fold_add_nonneg.
  apply List.Forall_forall. intros x Hx. apply in_map_iff in Hx as (r & <- & _).
  lia.
Qed.

Lemma collisions_in_snoc (h : list Sim.StepRecord) (r : Sim.StepRecord) :
  collisions_in (h ++ [r])
  = (collisions_in h + Z.of_nat (List.length (Sim.rec_collisions r)))%Z.
Proof.
  unfold collisions_in. rewrite List.map_app. cbn [List.map].
  apply fold_add_snoc.
Qed.

Lemma emergencies_in_length (h : list Sim.StepRecord) :
  emergencies_in h = Z.of_nat (List.length (List.filter Sim.any_emergency h)).
Proof.
  unfold emergencies_in.
  assert (forall (l : list Sim.StepRecord) (a : Z),
            fold_left Z.add (List.map (fun _ => 1%Z) l) a
            = (a + Z.of_nat (List.length l))%Z) as H.
  { induction l as [| r l IH]; intros a; simpl length; simpl fold_left;
      [lia |]. rewrite IH. lia. }
  rewrite H. lia.
Qed.

Lemma get_safety_stats_formula (s : Sim.t) :
  Sim.get_safety_stats s
  = {| Sim.safety_percentage :=
         Z.max 0 (100 - collisions_in (Sim.history s) * 20);
       Sim.total_collisions := collisions_in (Sim.history s);
       Sim.emergency_events := emergencies_in (Sim.history s) |}.
Proof.
  unfold Sim.get_safety_stats. destruct (Sim.history s); reflexivity.
Qed.

(** X12.  The statistics are a fold over the log.  The safety percentage is
    [max(0, 100 - 20 * total_collisions)], so it lies in [0, 100], is 100
    exactly when no collision was ever logged and 0 from five logged
    collisions on; [emergency_events] is the number of records with an
    emergency action, at most the number of ticks.  A tick adds the length
    of its collision list to [total_collisions], adds one to
    [emergency_events] exactly if one of its actions is an emergency
    action, and never raises the safety percentage. *)
Theorem safety_stats_over_log (s : Sim.t) :
  let st := Sim.get_safety_stats s in
  let st' := Sim.get_safety_stats (Sim.step s) in
  (0 <= Sim.safety_percentage st <= 100)%Z
  /\ (0 <= Sim.total_collisions st)%Z
  /\ (Sim.safety_percentage st = 100 <-> Sim.total_collisions st = 0)%Z
  /\ (Sim.safety_percentage st = 0 <-> 5 <= Sim.total_collisions st)%Z
  /\ (0 <= Sim.emergency_events st
      <= Z.of_nat (List.length (Sim.history s)))%Z
  /\ exists r,
       last (Sim.history (Sim.step s)) = Some r
       /\ Sim.total_collisions st'
          = (Sim.total_collisions st
             + Z.of_nat (List.length (Sim.rec_collisions r)))%Z
       /\ Sim.emergency_events st'
          = (Sim.emergency_events st
             + if Sim.any_emergency r then 1 else 0)%Z
       /\ (Sim.safety_percentage st' <= Sim.safety_percentage st)%Z.
Proof.
  cbv zeta. rewrite !get_safety_stats_formula.
  cbn [Sim.safety_percentage Sim.total_collisions Sim.emergency_events].
  pose proof (collisions_in_nonneg (Sim.history s)) as Hc.
  rewrite (emergencies_in_length (Sim.history s)).
  pose proof (List.filter_length_le Sim.any_emergency (Sim.history s)) as Hf.
  split; [lia |]. split; [lia |]. split; [lia |]. split; [lia |].
  split; [lia |].
  unfold Sim.step, Sim.step_in_order. destruct (fold_left _ _ _) as [heap acts].
  cbn [Sim.history]. eexists. split; [apply last_snoc |].
  rewrite !collisions_in_snoc. cbn [Sim.rec_collisions].
  split; [reflexivity |]. split.
  - rewrite emergencies_in_length, List.filter_app, List.length_app.
    cbn [List.filter].
    match goal with |- context [Sim.any_emergency ?r] =>
      destruct (Sim.any_emergency r) end; cbn [List.length]; lia.
  - lia.
Qed.

(** ** [run] *)

Lemma steps_S (n : nat) (s : Sim.t) : steps (S n) s = steps n (Sim.step s).
Proof. reflexivity. Qed.

Lemma sim_wf_steps (n : nat) (s : Sim.t) : sim_wf s -> sim_wf (steps n s).
Proof.
  revert s. induction n as [| n IH]; intros s H; [exact H |].
  rewrite steps_S. apply IH, sim_wf_step, H.
Qed.

Lemma steps_fields (n : nat) (s : Sim.t) :
  Sim.dt (steps n s) = Sim.dt s
  /\ Sim.time (steps n s) == Sim.time s + inject_Z (Z.of_nat n) * Sim.dt s
  /\ Sim.scenario (steps n s) = Sim.scenario s
  /\ Sim.emergency_vehicle (steps n s) = Sim.emergency_vehicle s
  /\ Sim.priority_vehicle (steps n s) = Sim.priority_vehicle s
  /\ Sim.emergency_triggered (steps n s) = Sim.emergency_triggered s
  /\ Sim.priority_added (steps n s) = Sim.priority_added s
  /\ List.length (Sim.history (steps n s))
     = (List.length (Sim.history s) + n)%nat.
Proof.
  revert s. induction n as [| n IH]; intros s.
  - cbn. repeat split; try reflexivity; [ring | lia].
  - rewrite steps_S.
    destruct (IH (Sim.step s)) as (H1 & H2 & H3 & H4 & H5 & H6 & H7 & H8).
    destruct (step_fields s) as (F1 & F2 & F3 & F4 & F5 & F6 & F7).
    rewrite H1, H3, H4, H5, H6, H7, H8, F1, F3, F4, F5, F6, F7.
    repeat split.
    + rewrite H2, F1, F2, Nat2Z.inj_succ. unfold Z.succ.
      rewrite inject_Z_plus. change (inject_Z 1) with 1. ring.
    + unfold Sim.step, Sim.step_in_order. destruct (fold_left _ _ _).
      cbn [Sim.history]. rewrite List.length_app. simpl. lia.
Qed.

(** Outside the one iteration that triggers the emergency, an iteration of
    [run] is a tick: the automatic priority assignment never fires, because
    [priority_vehicle] is set only together with [priority_added]. *)
Lemma run_iteration_plain (s : Sim.t) (i : nat) :
  sim_wf s ->
  Sim.scenario s <> "emergency"%string \/ i <> 30%nat
  \/ Sim.emergency_vehicle s = None \/ Sim.emergency_triggered s = true ->
  Sim.run_iteration s i = Some (Sim.step s).
Proof.
  intros Hwf Hc. unfold Sim.run_iteration. cbv zeta.
  pose proof (sim_wf_step s Hwf) as (_ & _ & _ & _ & _ & _ & Hpa & _).
  destruct (step_fields s) as (_ & _ & F3 & F4 & _ & F6 & _).
  rewrite F3, F4, F6.
  assert (String.eqb (Sim.scenario s) "emergency" && Nat.eqb i 30
          && Sim.truthy (Sim.emergency_vehicle s)
          && negb (Sim.emergency_triggered s) = false) as ->.
  { destruct Hc as [H | [H | [H | H]]].
    - apply String.eqb_neq in H. rewrite H. reflexivity.
    - apply Nat.eqb_neq in H. rewrite H, andb_false_r. reflexivity.
    - rewrite H. cbn [Sim.truthy]. rewrite andb_false_r. reflexivity.
    - rewrite H. apply andb_false_r. }
  assert (Sim.truthy (Sim.priority_vehicle (Sim.step s))
          && negb (Sim.priority_added (Sim.step s)) = false) as Hdead.
  { destruct (Sim.priority_added (Sim.step s)); [apply andb_false_r |].
    destruct Hpa as [-> _]. reflexivity. }
  rewrite <- andb_assoc, Hdead, andb_false_r. reflexivity.
Qed.

Lemma run_fold_plain (l : list nat) (s : Sim.t) :
  sim_wf s ->
  Sim.scenario s <> "emergency"%string \/ ~ In 30%nat l
  \/ Sim.emergency_vehicle s = None \/ Sim.emergency_triggered s = true ->
  fold_left (fun acc step_index =>
               match acc with
               | Some s0 => Sim.run_iteration s0 step_index
               | None => None
               end) l (Some s)
  = Some (steps (List.length l) s).
Proof.
  revert s. induction l as [| i l IH]; intros s Hwf Hc; [reflexivity |].
  cbn [fold_left List.length]. rewrite steps_S.
  rewrite run_iteration_plain; [| exact Hwf |].
  - apply IH; [apply sim_wf_step, Hwf |].
    destruct (step_fields s) as (_ & _ & F3 & F4 & _ & F6 & _).
    rewrite F3, F4, F6.
    destruct Hc as [H | [H | [H | H]]]; auto.
    right. left. intros Hin. apply H. right. exact Hin.
  - destruct Hc as [H | [H | [H | H]]]; auto.
    right. left. intros ->. apply H. left. reflexivity.
Qed.

Lemma run_cmds_scenario (cmds : list sim_cmd) (s : Sim.t) :
  Sim.scenario (run_cmds cmds s) = Sim.scenario s.
Proof.
  revert s. induction cmds as [| c cmds IH]; intros s; [reflexivity |].
  simpl. rewrite IH. destruct c as [[| k | k |] |]; cbn [exec_cmd exec_op].
  - apply step_fields.
  - unfold Sim.set_emergency_vehicle. destruct (Sim.has_key _ _); reflexivity.
  - unfold Sim.set_priority_vehicle. destruct (_ && _); reflexivity.
  - unfold Sim.trigger_emergency.
    destruct (Sim.emergency_vehicle s); [| reflexivity].
    destruct (_ && _); [| reflexivity].
    destruct (Sim.has_key _ _); reflexivity.
  - reflexivity.
Qed.



Lemma steps_snoc (n : nat) (s : Sim.t) :
  Sim.step (steps n s) = steps (S n) s.
Proof.
  revert s. induction n as [| n IH]; intros s; [reflexivity |].
  rewrite (steps_S (S n)), (steps_S n). apply IH.
Qed.

Lemma trigger_emergency_fires (t : Sim.t) (ev : string) :
  sim_wf t -> Sim.emergency_vehicle t = Some ev ->
  Sim.emergency_triggered t = false ->
  exists t',
    Sim.trigger_emergency t = Some (true, t')
    /\ sim_wf t'
    /\ Sim.emergency_triggered t' = true
    /\ Exists (fun v => V.id v = ev /\ V.emergency_braking v = true
                        /\ V.emergency_start_time v = Sim.time t)
         (Sim.vehicles t').
Proof.
  intros Hwf Hev Htr.
  pose proof (sim_wf_trigger_emergency t Hwf) as Hwf'.
  cbn [exec_op] in Hwf'.
  destruct Hwf as (_ & _ & Hv & _ & _ & He & _).
  rewrite Hev in He.
  assert (Sim.truthy (Some ev) = true) as Htruthy.
  { pose proof He as Hk. apply has_key_Exists in Hk.
    apply List.Exists_exists in Hk as (v & Hin & Hid).
    rewrite List.Forall_forall in Hv. destruct (Hv v Hin) as (Hne & _).
    cbn [Sim.truthy]. apply negb_true_iff, not_true_iff_false.
    rewrite String.eqb_eq. congruence. }
  revert Hwf'. unfold Sim.trigger_emergency.
  rewrite Hev, Htruthy, Htr, He. cbn [negb andb]. intros Hwf'.
  eexists. split; [reflexivity |]. split; [exact Hwf' |].
  split; [reflexivity |]. cbn [Sim.vehicles].
  apply trigger_sets_flag. exact He.
Qed.

Lemma run_iteration_trigger (t t1 : Sim.t) (ev : string) :
  Sim.scenario t = "emergency"%string ->
  Sim.emergency_vehicle t = Some ev ->
  Sim.emergency_triggered t = false ->
  Sim.trigger_emergency (Sim.step t) = Some (true, t1) ->
  Sim.truthy (Some ev) = true ->
  Sim.run_iteration t 30 = Some t1.
Proof.
  intros Hsc Hev Htr Htrig Htruthy. unfold Sim.run_iteration. cbv zeta.
  destruct (step_fields t) as (_ & _ & F3 & F4 & _ & F6 & _).
  rewrite F3, F4, F6, Hsc, Hev, Htruthy, Htr, Htrig. reflexivity.
Qed.

Lemma run_iterations_split (k : nat) (s : Sim.t) :
  sim_wf s ->
  Sim.run_iterations (30 + S k) s
  = fold_left (fun acc step_index =>
                 match acc with
                 | Some s0 => Sim.run_iteration s0 step_index
                 | None => None
                 end)
      (seq 31 k) (Sim.run_iteration (steps 30 s) 30).
Proof.
  intros Hwf. unfold Sim.run_iterations.
  rewrite seq_app, fold_left_app.
  assert (~ In 30%nat (seq 0 30)) as Hn by (rewrite in_seq; lia).
  rewrite (run_fold_plain (seq 0 30) s Hwf (or_intror (or_introl Hn))).
  rewrite List.length_seq. generalize (steps 30 s). intros t.
  change (0 + 30)%nat with 30%nat. rewrite <- cons_seq. cbn [fold_left].
  reflexivity.
Qed.

(** X14.  [run] in the emergency scenario.  From a reachable state with
    scenario "emergency", a designated emergency vehicle and no emergency
    triggered yet: up to 30 iterations are plain ticks; with more, the
    emergency is triggered once, after the 31st tick (loop index 30), so
    the designated vehicle's [emergency_start_time] is the time after 31
    ticks, and the remaining iterations are plain ticks. *)
Theorem run_triggers_emergency (n : nat) (dt0 : Q) (cmds : list sim_cmd)
    (total_steps : nat) (ev : string) :
  0 <= dt0 ->
  let s := run_cmds cmds (Sim.init n dt0 "emergency") in
  Sim.emergency_vehicle s = Some ev ->
  Sim.emergency_triggered s = false ->
  ((total_steps <= 30)%nat ->
     Sim.run_iterations total_steps s = Some (steps total_steps s))
  /\ ((30 < total_steps)%nat ->
        exists s31,
          Sim.trigger_emergency (steps 31 s) = Some (true, s31)
          /\ Sim.run_iterations total_steps s
             = Some (steps (total_steps - 31) s31)
          /\ Exists (fun v => V.id v = ev /\ V.emergency_braking v = true
                              /\ V.emergency_start_time v
                                 = Sim.time (steps 31 s))
               (Sim.vehicles s31)).
Proof.
  intros Hdt. cbv zeta.
  pose proof (sim_wf_run_cmds cmds _ (sim_wf_init n dt0 "emergency" Hdt))
    as Hwf.
  pose proof (run_cmds_scenario cmds (Sim.init n dt0 "emergency")) as Hscen.
  cbn [Sim.init Sim.scenario] in Hscen.
  revert Hwf Hscen.
  generalize (run_cmds cmds (Sim.init n dt0 "emergency")).
  intros s Hwf Hscen Hev Htr. split.
  - intros Hle. unfold Sim.run_iterations.
    rewrite run_fold_plain; [rewrite List.length_seq; reflexivity | exact Hwf |].
    right. left. rewrite in_seq. lia.
  - intros Hlt.
    assert (exists k, total_steps = (30 + S k)%nat) as [k ->]
      by (exists (total_steps - 31)%nat; lia).
    replace (30 + S k - 31)%nat with k by lia.
    rewrite (run_iterations_split k s Hwf).
    pose proof (sim_wf_steps 30 s Hwf) as Hwf30.
    pose proof (sim_wf_steps 31 s Hwf) as Hwf31.
    destruct (steps_fields 30 s) as (_ & _ & Hsc30 & Hev30 & _ & Htr30 & _).
    destruct (steps_fields 31 s) as (_ & _ & _ & Hev31 & _ & Htr31 & _).
    pose proof (steps_snoc 30 s) as Hsnoc.
    rewrite Hscen in Hsc30. rewrite Hev in Hev30, Hev31.
    rewrite Htr in Htr30, Htr31.
    revert Hwf31 Hev31 Htr31 Hsnoc. generalize (steps 31 s).
    revert Hwf30 Hsc30 Hev30 Htr30. generalize (steps 30 s).
    intros t30 Hwf30 Hsc30 Hev30 Htr30 t31 Hwf31 Hev31 Htr31 Hsnoc.
    destruct (trigger_emergency_fires t31 ev Hwf31 Hev31 Htr31)
      as (s31 & Htrig & Hwf' & Htr' & Hex).
    exists s31. split; [exact Htrig |]. split; [| exact Hex].
    assert (Sim.truthy (Some ev) = true) as Htruthy.
    { revert Htrig. unfold Sim.trigger_emergency. rewrite Hev31, Htr31.
      destruct (Sim.truthy (Some ev)); [reflexivity | discriminate]. }
    rewrite (run_iteration_trigger t30 s31 ev Hsc30 Hev30 Htr30);
      [| rewrite Hsnoc; exact Htrig | exact Htruthy].
    rewrite (run_fold_plain (seq 31 k) s31 Hwf')
      by (right; right; right; exact Htr').
    rewrite List.length_seq. reflexivity.
Qed.

Lemma run_triggers_emergency_witness :
  exists s31,
    Sim.trigger_emergency
      (steps 31 (run_cmds [Cmd (OpSetEmergencyVehicle "vehicle_1")]
                   (Sim.init 3 0.1 "emergency")))
    = Some (true, s31)
    /\ Sim.run_iterations 35
         (run_cmds [Cmd (OpSetEmergencyVehicle "vehicle_1")]
            (Sim.init 3 0.1 "emergency"))
       = Some (steps (35 - 31) s31)
    /\ Exists (fun v => V.id v = "vehicle_1"%string
                        /\ V.emergency_braking v = true
                        /\ V.emergency_start_time v
                           = Sim.time
                               (steps 31
                                  (run_cmds
                                     [Cmd (OpSetEmergencyVehicle "vehicle_1")]
                                     (Sim.init 3 0.1 "emergency"))))
         (Sim.vehicles s31).
Proof.
  assert (0 <= 0.1) as Hdt by (apply Qle_bool_iff; reflexivity).
  assert (Sim.emergency_vehicle
            (run_cmds [Cmd (OpSetEmergencyVehicle "vehicle_1")]
               (Sim.init 3 0.1 "emergency")) = Some "vehicle_1"%string)
    as Hev by (vm_compute; reflexivity).
  assert (Sim.emergency_triggered
            (run_cmds [Cmd (OpSetEmergencyVehicle "vehicle_1")]
               (Sim.init 3 0.1 "emergency")) = false)
    as Htr by (vm_compute; reflexivity).
  assert (30 < 35)%nat as Hlt by lia.
  exact (proj2 (run_triggers_emergency 3 0.1
                  [Cmd (OpSetEmergencyVehicle "vehicle_1")] 35 "vehicle_1"
                  Hdt Hev Htr) Hlt).
Defined.

(** ** The collision detector *)

Lemma boxes_overlap_iff (v1 v2 : V.t) :
  Sim.boxes_overlap v1 v2 = true
  <-> Qabs (V.x v1 - V.x v2) < 5.1 /\ Qabs (V.y v1 - V.y v2) < 2.4.
Proof.
  unfold Sim.boxes_overlap, V.get_bounding_box. cbv beta iota zeta.
  unfold V.length, V.width.
  assert (4.5 / 2 == 2.25) as Hl by reflexivity.
  assert (1.8 / 2 == 0.9) as Hw by reflexivity.
  rewrite !andb_true_iff, !Qlt_bool_iff, Hl, Hw.
  split.
  - intros [[H1 H2] [H3 H4]]. split; apply Qabs_case; intros; lra.
  - intros [Hx Hy]. revert Hx Hy.
    apply (Qabs_case (V.x v1 - V.x v2)); intros Hx0 Hx;
      apply (Qabs_case (V.y v1 - V.y v2)); intros Hy0 Hy;
      repeat split; lra.
Qed.

Lemma check_collisions_In (vs : list V.t) (a b : string) :
  In (a, b) (Sim._check_collisions vs)
  <-> exists i j v1 v2,
        (i < j)%nat /\ vs !! i = Some v1 /\ vs !! j = Some v2
        /\ V.id v1 = a /\ V.id v2 = b
        /\ Sim.boxes_overlap v1 v2 = true.
Proof.
  induction vs as [| v rest IH]; cbn [Sim._check_collisions].
  { split; [intros [] | intros (i & j & v1 & v2 & _ & H & _); discriminate]. }
  rewrite in_app_iff, in_map_iff, IH. split.
  - intros [(v2 & Heq & Hin) | (i & j & v1 & v2 & Hij & Hi & Hj & Hrest)].
    + apply filter_In in Hin as [Hin Hov].
      apply list_elem_of_In, list_elem_of_lookup in Hin as [j Hj].
      injection Heq as <- <-.
      exists 0%nat, (S j), v, v2. repeat split; try assumption. lia.
    + exists (S i), (S j), v1, v2. repeat split; try tauto. lia.
  - intros (i & j & v1 & v2 & Hij & Hi & Hj & Ha & Hb & Hov).
    destruct j as [| j]; [lia |]. cbn in Hj.
    destruct i as [| i].
    + left. injection Hi as ->. exists v2. split; [congruence |].
      apply filter_In. split; [| exact Hov].
      apply list_elem_of_In, list_elem_of_lookup. exists j. exact Hj.
    + right. exists i, j, v1, v2. repeat split; try assumption. lia.
Qed.

Lemma check_collisions_length (vs : list V.t) :
  (2 * List.length (Sim._check_collisions vs)
   <= List.length vs * (List.length vs - 1))%nat.
Proof.
  induction vs as [| v rest IH]; cbn [Sim._check_collisions]; [simpl; lia |].
  rewrite List.length_app, List.length_map.
  pose proof (List.filter_length_le (Sim.boxes_overlap v) rest) as Hf.
  cbn [List.length]. nia.
Qed.

(** X15.  The collision detector.  [_check_collisions] reports the pair of
    ids [(a, b)] exactly when some vehicle with id [a] stands earlier in the
    vehicle table than some vehicle with id [b] and their centres are less
    than 5.1 m apart along the road and less than 2.4 m apart across it
    (length 4.5 and width 1.8, each widened by the 0.3 m margin on both
    boxes); the test is symmetric in the two vehicles, and a table of [n]
    vehicles gives at most [n (n - 1) / 2] reports. *)
Theorem collision_report (vs : list V.t) :
  (forall a b,
     In (a, b) (Sim._check_collisions vs)
     <-> exists i j v1 v2,
           (i < j)%nat /\ vs !! i = Some v1 /\ vs !! j = Some v2
           /\ V.id v1 = a /\ V.id v2 = b
           /\ Qabs (V.x v1 - V.x v2) < 5.1
           /\ Qabs (V.y v1 - V.y v2) < 2.4)
  /\ (forall v1 v2, Sim.boxes_overlap v1 v2 = Sim.boxes_overlap v2 v1)
  /\ (2 * List.length (Sim._check_collisions vs)
      <= List.length vs * (List.length vs - 1))%nat.
Proof.
  split; [| split; [| apply check_collisions_length]].
  - intros a b. rewrite check_collisions_In.
    split; intros (i & j & v1 & v2 & Hij & Hi & Hj & Ha & Hb & Hov);
      exists i, j, v1, v2; repeat split; try assumption;
      apply boxes_overlap_iff in Hov; tauto.
  - intros v1 v2.
    destruct (Sim.boxes_overlap v1 v2) eqn:H12,
             (Sim.boxes_overlap v2 v1) eqn:H21; try reflexivity.
    + apply boxes_overlap_iff in H12 as [Hx Hy].
      assert (Sim.boxes_overlap v2 v1 = true) as H; [| congruence].
      apply boxes_overlap_iff.
      rewrite (Qabs_Qminus (V.x v2)), (Qabs_Qminus (V.y v2)). tauto.
    + apply boxes_overlap_iff in H21 as [Hx Hy].
      assert (Sim.boxes_overlap v1 v2 = true) as H; [| congruence].
      apply boxes_overlap_iff.
      rewrite (Qabs_Qminus (V.x v1)), (Qabs_Qminus (V.y v1)). tauto.
Qed.

(** ** The order of the vehicle ids *)

Lemma str_lt_compare (a b : string) : str_lt a b <-> String.compare a b = Lt.
Proof.
  unfold str_lt, String.ltb.
  destruct (String.compare a b); split; congruence.
Qed.

Lemma str_le_compare (a b : string) : str_le a b <-> String.compare a b <> Gt.
Proof.
  unfold str_le, String.leb.
  destruct (String.compare a b); split; congruence.
Qed.

Lemma str_compare_refl (a : string) : String.compare a a = Eq.
Proof.
  pose proof (String.compare_antisym a a) as H.
  destruct (String.compare a a); [reflexivity | discriminate H ..].
Qed.

Lemma str_le_lt_eq (a b : string) : str_le a b <-> str_lt a b \/ a = b.
Proof.
  rewrite str_le_compare, str_lt_compare. split.
  - intros H. destruct (String.compare a b) eqn:Hc.
    + right. apply String.compare_eq_iff. exact Hc.
    + left. reflexivity.
    + contradiction.
  - intros [H | ->]; [rewrite H | rewrite str_compare_refl]; discriminate.
Qed.

Lemma str_lt_irrefl (a : string) : ~ str_lt a a.
Proof. rewrite str_lt_compare, str_compare_refl. discriminate. Qed.

Lemma str_lt_trans (a b c : string) : str_lt a b -> str_lt b c -> str_lt a c.
Proof.
  rewrite !str_lt_compare.
  change String.compare with OrderedTypeEx.String_as_OT.cmp.
  rewrite !OrderedTypeEx.String_as_OT.cmp_lt.
  apply OrderedTypeEx.String_as_OT.lt_trans.
Qed.

Lemma str_lt_le (a b : string) : str_lt a b <-> str_le a b /\ a <> b.
Proof.
  rewrite str_le_lt_eq. split.
  - intros H. split; [left; exact H |]. intros ->. exact (str_lt_irrefl _ H).
  - intros [[H | H] Hne]; [exact H | contradiction].
Qed.

#[global] Instance str_le_total : Total str_le.
Proof. intros a b. apply String.leb_total. Qed.

#[global] Instance str_le_refl : Reflexive str_le.
Proof. intros a. apply str_le_lt_eq. right. reflexivity. Qed.

#[global] Instance str_le_trans : Transitive str_le.
Proof.
  intros a b c. rewrite !str_le_lt_eq.
  intros [Hab | ->] [Hbc | ->]; try tauto.
  left. exact (str_lt_trans _ _ _ Hab Hbc).
Qed.

#[global] Instance str_le_antisym : AntiSymm (=) str_le.
Proof. intros a b Hab Hba. apply String.leb_antisym; assumption. Qed.

Lemma str_le_not_lt (a b : string) : str_le a b -> ~ str_lt b a.
Proof.
  intros Hab Hba. apply str_lt_le in Hba as [Hba Hne].
  apply Hne. apply (anti_symm str_le); assumption.
Qed.

(** ** [sorted] and [index] *)

Lemma sorted_In (l : list string) (x : string) : In x (sorted l) <-> In x l.
Proof.
  unfold sorted. rewrite <- !list_elem_of_In.
  rewrite (merge_sort_Permutation str_le l). reflexivity.
Qed.

Lemma sorted_NoDup (l : list string) : NoDup l -> NoDup (sorted l).
Proof.
  unfold sorted. intros H.
  rewrite (merge_sort_Permutation str_le l). exact H.
Qed.

Lemma StronglySorted_lookup_le {A} (R : relation A) `{!Reflexive R}
    (l : list A) (i j : nat) (a b : A) :
  StronglySorted R l -> (i <= j)%nat ->
  l !! i = Some a -> l !! j = Some b -> R a b.
Proof.
  intros Hs. revert i j. induction Hs as [| x l Hs IH Hx]; intros i j Hij Hi Hj.
  - discriminate.
  - destruct i as [| i], j as [| j]; try lia.
    + cbn in Hi, Hj. injection Hi as <-. injection Hj as <-. reflexivity.
    + cbn in Hi, Hj. injection Hi as <-.
      rewrite Forall_lookup in Hx. exact (Hx j b Hj).
    + cbn in Hi, Hj. apply (IH i j); [lia | assumption | assumption].
Qed.

Lemma sorted_lookup_le (l : list string) (i j : nat) (a b : string) :
  (i <= j)%nat -> sorted l !! i = Some a -> sorted l !! j = Some b ->
  str_le a b.
Proof.
  apply StronglySorted_lookup_le; [typeclasses eauto |].
  apply StronglySorted_merge_sort; typeclasses eauto.
Qed.

Lemma index_Some (l : list string) (x : string) (i : nat) :
  index l x = Some i
  <-> l !! i = Some x /\ forall j y, (j < i)%nat -> l !! j = Some y -> y <> x.
Proof.
  revert i. induction l as [| y rest IH]; intros i; cbn [index].
  { split; [discriminate | intros [H _]; discriminate]. }
  destruct (String.eqb_spec y x) as [-> | Hne].
  - split.
    + intros H. injection H as <-. split; [reflexivity |]. intros; lia.
    + intros [Hi Hfirst]. destruct i as [| i]; [reflexivity |].
      exfalso. apply (Hfirst 0%nat x); [lia | reflexivity | reflexivity].
  - destruct (index rest x) as [k |] eqn:Hk; cbn.
    + specialize (IH k). destruct IH as [IH1 _].
      destruct (IH1 eq_refl) as [Hl Hf]. split.
      * intros H. injection H as <-. split; [exact Hl |].
        intros j z Hj Hz. destruct j as [| j].
        -- cbn in Hz. congruence.
        -- apply (Hf j); [lia | exact Hz].
      * intros [Hi Hfirst]. destruct i as [| i]; [cbn in Hi; congruence |].
        f_equal. cbn in Hi.
        destruct (Nat.lt_trichotomy i k) as [Hlt | [-> | Hgt]];
          [| reflexivity |].
        -- exfalso. exact (Hf i x Hlt Hi eq_refl).
        -- exfalso. apply (Hfirst (S k) x); [lia | exact Hl | reflexivity].
    + split; [discriminate |]. intros [Hi _].
      destruct i as [| i]; [cbn in Hi; congruence |]. cbn in Hi.
      specialize (IH i). destruct IH as [_ IH2].
      assert (forall j, rest !! j = Some x -> False) as Hno.
      { clear -Hk. revert Hk. induction rest as [| z r IHr]; intros Hk j Hj;
          [discriminate |].
        cbn [index] in Hk. destruct (String.eqb_spec z x) as [-> | Hzx];
          [discriminate |].
        destruct (index r x) eqn:Hr; [discriminate |].
        destruct j as [| j]; cbn in Hj; [congruence |].
        exact (IHr eq_refl j Hj). }
      exfalso. exact (Hno i Hi).
Qed.

Lemma index_In (l : list string) (x : string) :
  In x l -> exists i, index l x = Some i.
Proof.
  induction l as [| y rest IH]; [intros [] |]. cbn [index].
  destruct (String.eqb_spec y x) as [-> | Hne]; [eexists; reflexivity |].
  intros [H | H]; [contradiction |]. destruct (IH H) as [i ->].
  eexists; reflexivity.
Qed.

Lemma getitem_Some_In (ps : PlatoonStates) (k : string) (e : PlatoonState) :
  getitem ps k = Some e -> In k (keys ps).
Proof.
  unfold getitem, keys. intros H.
  destruct (List.find _ ps) as [[k' e'] |] eqn:Hf; [| discriminate].
  apply List.find_some in Hf as [Hin Heq]. cbn in Heq.
  apply String.eqb_eq in Heq as ->.
  apply in_map_iff. exists (k, e'). split; [reflexivity | exact Hin].
Qed.

Lemma getitem_In (ps : PlatoonStates) (k : string) :
  In k (keys ps) -> exists e, getitem ps k = Some e.
Proof.
  unfold getitem, keys. intros H. apply in_map_iff in H as ([k' e] & <- & Hin).
  destruct (List.find (fun e0 => String.eqb (fst e0) (fst (k', e))) ps)
    as [x |] eqn:Hf; [eexists; reflexivity |].
  exfalso. pose proof (List.find_none _ _ Hf _ Hin) as Hn. cbn in Hn.
  rewrite String.eqb_refl in Hn. discriminate.
Qed.

(** The key that stands just before [x] in the sorted key list. *)
Lemma sorted_predecessor (l : list string) (x k : string) :
  (exists i, index (sorted l) x = Some (S i) /\ sorted l !! i = Some k)
  <-> In x l /\ In k l /\ str_lt k x
      /\ forall k', In k' l -> str_lt k' x -> str_le k' k.
Proof.
  split.
  - intros (i & Hidx & Hk). apply index_Some in Hidx as [Hx Hfirst].
    assert (In x l) as Hxl
      by (apply sorted_In, list_elem_of_In, list_elem_of_lookup; eauto).
    assert (In k l) as Hkl
      by (apply sorted_In, list_elem_of_In, list_elem_of_lookup; eauto).
    split; [exact Hxl |]. split; [exact Hkl |]. split.
    + apply str_lt_le. split.
      * apply (sorted_lookup_le l i (S i)); [lia | exact Hk | exact Hx].
      * apply (Hfirst i k); [lia | exact Hk].
    + intros k' Hk' Hlt.
      apply sorted_In, list_elem_of_In, list_elem_of_lookup in Hk' as [j Hj].
      destruct (Nat.le_gt_cases j i) as [Hle | Hgt].
      * apply (sorted_lookup_le l j i); assumption.
      * exfalso. apply (str_le_not_lt x k'); [| exact Hlt].
        apply (sorted_lookup_le l (S i) j); [lia | exact Hx | exact Hj].
  - intros (Hxl & Hkl & Hlt & Hmax).
    apply sorted_In in Hxl. destruct (index_In _ _ Hxl) as [i Hidx].
    pose proof Hidx as Hidx'. apply index_Some in Hidx' as [Hx Hfirst].
    apply sorted_In, list_elem_of_In, list_elem_of_lookup in Hkl as [j Hj].
    assert (j < i)%nat as Hji.
    { destruct (Nat.lt_ge_cases j i) as [H | H]; [exact H |]. exfalso.
      apply (str_le_not_lt x k); [| exact Hlt].
      apply (sorted_lookup_le l i j); assumption. }
    destruct i as [| i]; [lia |]. exists i. split; [exact Hidx |].
    destruct (lookup_lt_is_Some_2 (sorted l) i) as [k0 Hk0].
    { apply lookup_lt_Some in Hx. lia. }
    rewrite Hk0. f_equal. apply (anti_symm str_le).
    + apply Hmax.
      * apply sorted_In, list_elem_of_In, list_elem_of_lookup; eauto.
      * apply str_lt_le. split.
        -- apply (sorted_lookup_le l i (S i)); [lia | exact Hk0 | exact Hx].
        -- apply (Hfirst i k0); [lia | exact Hk0].
    + apply (sorted_lookup_le l j i); [lia | exact Hj | exact Hk0].
Qed.

(** ** The verified controller *)

Lemma find_predecessor_key (self : FC.t) (ps : PlatoonStates)
    (e : PlatoonState) :
  FC._find_predecessor self ps = Some e
  <-> FC.role self = FC.FOLLOWER
      /\ exists i k,
           index (sorted (keys ps)) (FC.vehicle_id self) = Some (S i)
           /\ sorted (keys ps) !! i = Some k
           /\ getitem ps k = Some e.
Proof.
  unfold FC._find_predecessor. cbv zeta.
  destruct (FC.role self).
  { split; [discriminate | intros [H _]; discriminate]. }
  destruct (index (sorted (keys ps)) (FC.vehicle_id self)) as [[| i] |].
  - cbn. split; [discriminate | intros (_ & i & k & H & _); discriminate].
  - cbn [Nat.ltb Nat.leb]. replace (S i - 1)%nat with i by lia. split.
    + intros H. split; [reflexivity |].
      destruct (sorted (keys ps) !! i) as [k |] eqn:Hk; [| discriminate].
      exists i, k. repeat split; assumption.
    + intros (_ & i' & k & Hi & Hk & Hg). injection Hi as <-.
      rewrite Hk. exact Hg.
  - split; [discriminate | intros (_ & i & k & H & _); discriminate].
Qed.

(** X16.  [_find_predecessor] returns the state stored under the greatest
    key of [platoon_states] that is smaller, in string order, than the
    controller's own id, provided the controller is a follower and its own
    id is a key; in every other case (a leader, an id that is not a key, or
    no smaller key) it returns nothing. *)
Theorem find_predecessor_greatest_below (self : FC.t) (ps : PlatoonStates)
    (e : PlatoonState) :
  FC._find_predecessor self ps = Some e
  <-> FC.role self = FC.FOLLOWER
      /\ In (FC.vehicle_id self) (keys ps)
      /\ exists k,
           getitem ps k = Some e
           /\ str_lt k (FC.vehicle_id self)
           /\ forall k', In k' (keys ps) -> str_lt k' (FC.vehicle_id self) ->
                         str_le k' k.
Proof.
  rewrite find_predecessor_key. split.
  - intros (Hr & i & k & Hi & Hk & Hg).
    destruct (proj1 (sorted_predecessor (keys ps) (FC.vehicle_id self) k))
      as (Hx & _ & Hlt & Hmax); [exists i; split; assumption |].
    split; [exact Hr |]. split; [exact Hx |].
    exists k. repeat split; assumption.
  - intros (Hr & Hx & k & Hg & Hlt & Hmax).
    split; [exact Hr |].
    destruct (proj2 (sorted_predecessor (keys ps) (FC.vehicle_id self) k))
      as (i & Hi & Hk).
    { repeat split; try assumption. eapply getitem_Some_In; exact Hg. }
    exists i, k. repeat split; assumption.
Qed.

Lemma clip_between (x lo hi : Q) : lo <= hi -> lo <= clip x lo hi <= hi.
Proof.
  intros H. unfold clip. split.
  - apply Q.min_glb; [apply Q.le_max_r | exact H].
  - apply Q.le_min_r.
Qed.

Lemma clip_monotone (x y lo hi : Q) : x <= y -> clip x lo hi <= clip y lo hi.
Proof.
  intros H. unfold clip.
  apply Q.min_le_compat_r. apply Q.max_le_compat_r. exact H.
Qed.

Lemma calculate_safe_distance_total (p : FormalPlatooningController.SafetyParameters)
    (v_ego v_pred : Q) :
  0 < FormalPlatooningController.max_deceleration p ->
  exists d, FormalPlatooningController._calculate_safe_distance p v_ego v_pred
            = Some d.
Proof.
  intros Hp. unfold FormalPlatooningController._calculate_safe_distance.
  cbv zeta.
  destruct (Qeq_bool (2 * FormalPlatooningController.max_deceleration p) 0)
    eqn:Hz; [| eexists; reflexivity].
  apply Qeq_bool_iff in Hz. lra.
Qed.

(** X17.  Every call of [compute_verified_action] returns an action, with
    [safety_verified] set and an acceleration between [-max_deceleration]
    and [max_acceleration].  It stamps the state with the current time and
    changes nothing else of the controller but the two counters: a
    non-emergency action leaves both as they were; an emergency action is
    either the fallback at half the maximum deceleration, counted as one
    safety violation, or full braking at [-max_deceleration], counted as
    one emergency event. *)
Theorem verified_action_envelope (self : FC.t) (ps : PlatoonStates) (t : Q) :
  let p := FC.safety_params self in
  0 < FormalPlatooningController.max_deceleration p ->
  0 <= FormalPlatooningController.max_acceleration p ->
  exists action self',
    FC.compute_verified_action self ps t = Some (action, self')
    /\ FC.safety_verified action = true
    /\ - FormalPlatooningController.max_deceleration p
       <= FC.action_acceleration action
       <= FormalPlatooningController.max_acceleration p
    /\ FC.vehicle_id self' = FC.vehicle_id self
    /\ FC.role self' = FC.role self
    /\ FC.safety_params self' = p
    /\ FC.state self' = FC.state (FC.set_timestamp self t)
    /\ (if FC.emergency action
        then (FC.action_acceleration action
              = - FormalPlatooningController.max_deceleration p * 0.5
              /\ FC.safety_violations self' = (FC.safety_violations self + 1)%Z
              /\ FC.emergency_events self' = FC.emergency_events self)
             \/ (FC.action_acceleration action
                 = - FormalPlatooningController.max_deceleration p
                 /\ FC.safety_violations self' = FC.safety_violations self
                 /\ FC.emergency_events self'
                    = (FC.emergency_events self + 1)%Z)
        else FC.safety_violations self' = FC.safety_violations self
             /\ FC.emergency_events self' = FC.emergency_events self).
Proof.
  cbv zeta. intros Hd Ha.
  assert (- FormalPlatooningController.max_deceleration (FC.safety_params self)
          <= FormalPlatooningController.max_acceleration (FC.safety_params self))
    as Hlohi by lra.
  unfold FC.compute_verified_action. cbv zeta.
  destruct (FC._verify_assumptions (FC.set_timestamp self t) ps);
    cbn [negb].
  2:{ eexists _, _. split; [reflexivity |].
      cbn. repeat split; try reflexivity; try lra. left. repeat split. }
  cbn [FC.set_timestamp FC.role].
  destruct (FC.role self) eqn:Hr.
  { eexists _, _. split; [reflexivity |].
    cbn [FC._compute_leader_action FC.safety_verified FC.action_acceleration
         FC.emergency FC.vehicle_id FC.role FC.safety_params FC.state
         FC.set_timestamp FC.safety_violations FC.emergency_events].
    unfold FC._apply_bounds. cbn [FC.safety_params FC.set_timestamp].
    split; [reflexivity |]. split; [apply clip_between; exact Hlohi |].
    repeat split; exact Hr. }
  unfold FC._compute_follower_action.
  destruct (FC._find_predecessor (FC.set_timestamp self t) ps) as [pred |].
  2:{ eexists _, _. split; [reflexivity |].
      cbn. repeat split; try reflexivity; try exact Hr; try lra.
      left. repeat split. }
  cbv zeta. cbn [FC.set_timestamp FC.safety_params FC.state FC.velocity
                 FC.position].
  destruct (calculate_safe_distance_total (FC.safety_params self)
              (FC.velocity (FC.state self)) (ps_velocity pred) Hd)
    as [sd ->].
  destruct (_ <? sd).
  - eexists _, _. split; [reflexivity |].
    cbn. repeat split; try reflexivity; try exact Hr; try lra.
    right. repeat split.
  - eexists _, _. split; [reflexivity |].
    cbn [FC.safety_verified FC.action_acceleration
         FC.emergency FC.vehicle_id FC.role FC.safety_params FC.state
         FC.set_timestamp FC.safety_violations FC.emergency_events].
    unfold FC._apply_bounds. cbn [FC.safety_params FC.set_timestamp].
    split; [reflexivity |]. split; [apply clip_between; exact Hlohi |].
    repeat split; exact Hr.
Qed.

Lemma verified_action_envelope_witness :
  exists action self',
    FC.compute_verified_action follower_1 platoon_line 0
    = Some (action, self')
    /\ FC.safety_verified action = true
    /\ - 4 <= FC.action_acceleration action <= 2
    /\ FC.vehicle_id self' = "vehicle_1"%string
    /\ FC.role self' = FC.FOLLOWER
    /\ FC.safety_params self' = FormalPlatooningController.default_params
    /\ FC.state self' = FC.state (FC.set_timestamp follower_1 0)
    /\ (if FC.emergency action
        then (FC.action_acceleration action = - 4 * 0.5
              /\ FC.safety_violations self' = (0 + 1)%Z
              /\ FC.emergency_events self' = 0%Z)
             \/ (FC.action_acceleration action = - 4
                 /\ FC.safety_violations self' = 0%Z
                 /\ FC.emergency_events self' = (0 + 1)%Z)
        else FC.safety_violations self' = 0%Z
             /\ FC.emergency_events self' = 0%Z).
Proof.
  assert (0 < FormalPlatooningController.max_deceleration
                (FC.safety_params follower_1)) as Hd by reflexivity.
  assert (0 <= FormalPlatooningController.max_acceleration
                 (FC.safety_params follower_1)) as Ha by discriminate.
  exact (verified_action_envelope follower_1 platoon_line 0 Hd Ha).
Defined.

Lemma verify_assumptions_stale (self : FC.t) (ps : PlatoonStates) :
  FC._verify_assumptions self ps = false
  <-> stale (FC.safety_params self) ps (FC.timestamp (FC.state self)).
Proof.
  unfold FC._verify_assumptions, stale. split.
  - intros H.
    destruct (forallb _ ps) eqn:Hf in H; [discriminate |]. clear H.
    apply not_true_iff_false in Hf. rewrite forallb_forall in Hf.
    induction ps as [| [k e] ps IH].
    + exfalso. apply Hf. intros x [].
    + destruct (FormalPlatooningController.communication_delay
                  (FC.safety_params self)
                <? FC.timestamp (FC.state self) - ps_timestamp e) eqn:Hlt.
      * exists k, e. split; [left; reflexivity |].
        apply Qlt_bool_iff. exact Hlt.
      * destruct IH as (k' & e' & Hin & Hs).
        { intros Hall. apply Hf. intros x [<- | Hx].
          - cbn [snd]. rewrite Hlt. reflexivity.
          - apply Hall, Hx. }
        exists k', e'. split; [right; exact Hin | exact Hs].
  - intros (k & e & Hin & Hs). apply not_true_iff_false.
    rewrite forallb_forall. intros Hall. specialize (Hall _ Hin).
    cbn [snd] in Hall. apply Qlt_bool_iff in Hs. rewrite Hs in Hall.
    discriminate.
Qed.

(** X18.  When the action of [compute_verified_action] is an emergency
    action: exactly when some state of [platoon_states] is older than the
    communication delay, whatever the role, or when the controller is a
    follower that either finds no predecessor or is closer to it than the
    safe distance for the two velocities. *)
Theorem verified_emergency_iff (self : FC.t) (ps : PlatoonStates) (t : Q) :
  let p := FC.safety_params self in
  0 < FormalPlatooningController.max_deceleration p ->
  exists action self',
    FC.compute_verified_action self ps t = Some (action, self')
    /\ (FC.emergency action = true
        <-> stale p ps t
            \/ (FC.role self = FC.FOLLOWER
                /\ match FC._find_predecessor self ps with
                   | None => True
                   | Some predecessor =>
                       exists safe_distance,
                         FormalPlatooningController._calculate_safe_distance
                           p (FC.velocity (FC.state self))
                           (ps_velocity predecessor) = Some safe_distance
                         /\ ps_position predecessor
                            - FC.position (FC.state self) < safe_distance
                   end)).
Proof.
  cbv zeta. intros Hd.
  pose proof (verify_assumptions_stale (FC.set_timestamp self t) ps) as Hst.
  cbn [FC.set_timestamp FC.safety_params FC.state FC.timestamp] in Hst.
  unfold FC.compute_verified_action. cbv zeta.
  destruct (FC._verify_assumptions (FC.set_timestamp self t) ps);
    cbn [negb].
  2:{ eexists _, _. split; [reflexivity |]. cbn [FC._emergency_safe_action
        FC.emergency fst]. split; [| reflexivity].
      intros _. left. apply Hst. reflexivity. }
  assert (~ stale (FC.safety_params self) ps t) as Hfresh
    by (intros H; apply Hst in H; discriminate H).
  cbn [FC.set_timestamp FC.role].
  destruct (FC.role self) eqn:Hr.
  { eexists _, _. split; [reflexivity |].
    cbn [FC._compute_leader_action FC.emergency]. split; [discriminate |].
    intros [H | [H _]]; [contradiction | discriminate]. }
  unfold FC._compute_follower_action.
  assert (FC._find_predecessor (FC.set_timestamp self t) ps
          = FC._find_predecessor self ps) as -> by reflexivity.
  destruct (FC._find_predecessor self ps) as [pred |].
  2:{ eexists _, _. split; [reflexivity |]. cbn [FC._emergency_safe_action
        FC.emergency fst]. split; [| reflexivity].
      intros _. right. split; [reflexivity | exact I]. }
  cbv zeta. cbn [FC.set_timestamp FC.safety_params FC.state FC.velocity
                 FC.position].
  destruct (calculate_safe_distance_total (FC.safety_params self)
              (FC.velocity (FC.state self)) (ps_velocity pred) Hd)
    as [sd Hsd]. rewrite Hsd.
  destruct (_ <? sd) eqn:Hlt.
  - eexists _, _. split; [reflexivity |]. cbn [FC.emergency].
    split; [| reflexivity]. intros _. right. split; [reflexivity |].
    exists sd. split; [reflexivity |]. apply Qlt_bool_iff. exact Hlt.
  - eexists _, _. split; [reflexivity |]. cbn [FC.emergency].
    split; [discriminate |].
    intros [H | [_ (sd' & Heq & Hlt')]]; [contradiction |].
    injection Heq as <-. apply Qlt_bool_iff in Hlt'. congruence.
Qed.

Lemma verified_emergency_iff_witness :
  exists action self',
    FC.compute_verified_action follower_1 platoon_line 0
    = Some (action, self')
    /\ (FC.emergency action = true
        <-> stale FormalPlatooningController.default_params platoon_line 0
            \/ (FC.role follower_1 = FC.FOLLOWER
                /\ match FC._find_predecessor follower_1 platoon_line with
                   | None => True
                   | Some predecessor =>
                       exists safe_distance,
                         FormalPlatooningController._calculate_safe_distance
                           FormalPlatooningController.default_params
                           (FC.velocity (FC.state follower_1))
                           (ps_velocity predecessor) = Some safe_distance
                         /\ ps_position predecessor
                            - FC.position (FC.state follower_1)
                            < safe_distance
                   end)).
Proof.
  assert (0 < FormalPlatooningController.max_deceleration
                (FC.safety_params follower_1)) as Hd by reflexivity.
  exact (verified_emergency_iff follower_1 platoon_line 0 Hd).
Defined.

(** X19.  The nearer a controller is to its predecessor, the harder it
    brakes.  Of two calls that differ only in the own position recorded by
    [update_state], the one with the position further ahead commands an
    acceleration that is not larger, and it is an emergency whenever the
    other one is. *)
Theorem closer_brakes_harder (self : FC.t) (ps : PlatoonStates)
    (t x1 x2 v a : Q) :
  let p := FC.safety_params self in
  0 < FormalPlatooningController.max_deceleration p ->
  0 <= FormalPlatooningController.max_acceleration p ->
  x1 <= x2 ->
  exists a1 s1 a2 s2,
    FC.compute_verified_action (FC.update_state self x1 v a) ps t
    = Some (a1, s1)
    /\ FC.compute_verified_action (FC.update_state self x2 v a) ps t
       = Some (a2, s2)
    /\ FC.action_acceleration a2 <= FC.action_acceleration a1
    /\ (FC.emergency a1 = true -> FC.emergency a2 = true).
Proof.
  cbv zeta. intros Hd Ha Hx.
  assert (- FormalPlatooningController.max_deceleration (FC.safety_params self)
          <= FormalPlatooningController.max_acceleration (FC.safety_params self))
    as Hlohi by lra.
  unfold FC.compute_verified_action. cbv zeta.
  assert (forall x,
            FC._verify_assumptions
              (FC.set_timestamp (FC.update_state self x v a) t) ps
            = FC._verify_assumptions (FC.set_timestamp self t) ps) as Hva
    by reflexivity.
  rewrite (Hva x1), (Hva x2). clear Hva.
  destruct (FC._verify_assumptions (FC.set_timestamp self t) ps);
    cbn [negb].
  2:{ eexists _, _, _, _. split; [reflexivity |]. split; [reflexivity |].
      cbn [FC._emergency_safe_action FC.action_acceleration FC.emergency
           fst FC.safety_params FC.set_timestamp FC.update_state].
      split; [apply Qle_refl | tauto]. }
  cbn [FC.set_timestamp FC.update_state FC.role].
  destruct (FC.role self).
  { eexists _, _, _, _. split; [reflexivity |]. split; [reflexivity |].
    cbn [FC._compute_leader_action FC.action_acceleration FC.emergency].
    unfold FC._apply_bounds.
    cbn [FC.safety_params FC.state FC.velocity].
    split; [apply Qle_refl | tauto]. }
  unfold FC._compute_follower_action.
  assert (forall s, FC.vehicle_id s = FC.vehicle_id self ->
                    FC.role s = FC.role self ->
                    FC._find_predecessor s ps = FC._find_predecessor self ps)
    as Hfp.
  { intros s Hid Hrole. unfold FC._find_predecessor. rewrite Hid, Hrole.
    reflexivity. }
  rewrite (Hfp (FC.set_timestamp (FC.update_state self x1 v a) t)
             eq_refl eq_refl),
          (Hfp (FC.set_timestamp (FC.update_state self x2 v a) t)
             eq_refl eq_refl).
  clear Hfp.
  destruct (FC._find_predecessor self ps) as [pred |].
  2:{ eexists _, _, _, _. split; [reflexivity |]. split; [reflexivity |].
      cbn [FC._emergency_safe_action FC.action_acceleration FC.emergency
           fst FC.safety_params].
      split; [apply Qle_refl | tauto]. }
  cbv zeta. cbn [FC.safety_params FC.state FC.velocity FC.position
                 FC.set_timestamp FC.update_state].
  destruct (calculate_safe_distance_total (FC.safety_params self) v
              (ps_velocity pred) Hd) as [sd ->].
  destruct (ps_position pred - x1 <? sd) eqn:H1,
           (ps_position pred - x2 <? sd) eqn:H2;
    eexists _, _, _, _; (split; [reflexivity |]); (split; [reflexivity |]);
    cbn [FC.action_acceleration FC.emergency]; unfold FC._apply_bounds;
    cbn [FC.safety_params FC.set_timestamp FC.update_state].
  - split; [apply Qle_refl | tauto].
  - apply Qlt_bool_iff in H1. apply Qlt_bool_false_iff in H2. lra.
  - split; [| discriminate]. apply clip_between. exact Hlohi.
  - split; [| discriminate]. apply clip_monotone.
    unfold FC._control_law. cbv zeta. lra.
Qed.

Lemma closer_brakes_harder_witness :
  exists a1 s1 a2 s2,
    FC.compute_verified_action (FC.update_state follower_1 30 18 0)
      platoon_line 0 = Some (a1, s1)
    /\ FC.compute_verified_action (FC.update_state follower_1 40 18 0)
         platoon_line 0 = Some (a2, s2)
    /\ FC.action_acceleration a2 <= FC.action_acceleration a1
    /\ (FC.emergency a1 = true -> FC.emergency a2 = true).
Proof.
  assert (0 < FormalPlatooningController.max_deceleration
                (FC.safety_params follower_1)) as Hd by reflexivity.
  assert (0 <= FormalPlatooningController.max_acceleration
                 (FC.safety_params follower_1)) as Ha by discriminate.
  assert (30 <= 40) as Hx by discriminate.
  exact (closer_brakes_harder follower_1 platoon_line 0 30 40 18 0 Hd Ha Hx).
Defined.

Lemma replace_entry_keys (ps : PlatoonStates) (k : string) (x v : Q) :
  keys (replace_entry ps k x v) = keys ps.
Proof.
  unfold keys, replace_entry. rewrite List.map_map. apply List.map_ext.
  intros e. destruct (String.eqb (fst e) k); reflexivity.
Qed.

Lemma replace_entry_getitem (ps : PlatoonStates) (k k' : string) (x v : Q) :
  k' <> k -> getitem (replace_entry ps k x v) k' = getitem ps k'.
Proof.
  intros Hne. unfold getitem, replace_entry.
  induction ps as [| [k0 e] ps IH]; [reflexivity |].
  cbn [List.map List.find fst].
  destruct (String.eqb_spec k0 k) as [-> | Hk0]; cbn [fst].
  - destruct (String.eqb_spec k k') as [-> | _]; [contradiction | exact IH].
  - destruct (String.eqb k0 k'); [reflexivity | exact IH].
Qed.

Lemma replace_entry_verify (self : FC.t) (ps : PlatoonStates) (k : string)
    (x v : Q) :
  FC._verify_assumptions self (replace_entry ps k x v)
  = FC._verify_assumptions self ps.
Proof.
  unfold FC._verify_assumptions, replace_entry.
  induction ps as [| [k0 e] ps IH]; [reflexivity |].
  cbn [List.map forallb fst]. rewrite IH.
  destruct (String.eqb k0 k); reflexivity.
Qed.

Lemma replace_entry_predecessor (self : FC.t) (ps : PlatoonStates) (x v : Q) :
  FC._find_predecessor self (replace_entry ps (FC.vehicle_id self) x v)
  = FC._find_predecessor self ps.
Proof.
  assert (forall e,
            FC._find_predecessor self
              (replace_entry ps (FC.vehicle_id self) x v) = Some e
            <-> FC._find_predecessor self ps = Some e) as Hiff.
  { intros e. rewrite !find_predecessor_key, replace_entry_keys.
    split; intros (Hr & i & k & Hi & Hk & Hg); (split; [exact Hr |]);
      exists i, k; (split; [exact Hi |]); (split; [exact Hk |]);
      pose proof Hi as Hi'; apply index_Some in Hi' as [_ Hfirst];
      specialize (Hfirst i k (Nat.lt_succ_diag_r i) Hk);
      [rewrite <- (replace_entry_getitem ps _ k x v Hfirst)
      | rewrite (replace_entry_getitem ps _ k x v Hfirst)]; exact Hg. }
  destruct (FC._find_predecessor self ps) as [e |].
  - apply Hiff. reflexivity.
  - destruct (FC._find_predecessor self _) as [e |]; [| reflexivity].
    symmetry. apply Hiff. reflexivity.
Qed.

(** X20.  The controller never reads what [platoon_states] says about its
    own position and velocity: replacing both under its own id changes
    neither the action nor the controller that results.  Its own position
    and velocity are those last given to [update_state]. *)
Theorem own_entry_not_read (self : FC.t) (ps : PlatoonStates) (t x v : Q) :
  FC.compute_verified_action self
    (replace_entry ps (FC.vehicle_id self) x v) t
  = FC.compute_verified_action self ps t.
Proof.
  unfold FC.compute_verified_action. cbv zeta.
  rewrite replace_entry_verify. unfold FC._compute_follower_action.
  change (FC.vehicle_id self) with (FC.vehicle_id (FC.set_timestamp self t)).
  rewrite replace_entry_predecessor. reflexivity.
Qed.

(** ** The safety monitor *)

Lemma check_safe_distances_cons2 (ps : PlatoonStates) (a b : string)
    (rest : list string) :
  SafetyMonitor.check_safe_distances ps (a :: b :: rest)
  = match getitem ps a, getitem ps b with
    | Some front, Some rear =>
        match SafetyMonitor.check_safe_distances ps (b :: rest) with
        | Some violations =>
            Some (if ps_position front - ps_position rear
                     <? SafetyMonitor._calculate_safe_distance
                          (ps_velocity rear) (ps_velocity front)
                  then SafetyMonitor.SAFE_DISTANCE_VIOLATION (a, b)
                         (ps_position front - ps_position rear)
                         (SafetyMonitor._calculate_safe_distance
                            (ps_velocity rear) (ps_velocity front))
                       :: violations
                  else violations)
        | None => None
        end
    | _, _ => None
    end.
Proof. reflexivity. Qed.

Lemma check_safe_distances_total (ps : PlatoonStates) (ids : list string) :
  Forall (fun k => In k (keys ps)) ids ->
  exists vs, SafetyMonitor.check_safe_distances ps ids = Some vs.
Proof.
  induction ids as [| a ids IH]; intros Hall; [eexists; reflexivity |].
  destruct ids as [| b rest]; [eexists; reflexivity |].
  rewrite check_safe_distances_cons2.
  apply Forall_cons in Hall as [Ha Hall].
  destruct (IH Hall) as [vs ->].
  apply Forall_cons in Hall as [Hb _].
  destruct (getitem_In ps a Ha) as [front ->].
  destruct (getitem_In ps b Hb) as [rear ->].
  eexists; reflexivity.
Qed.

Lemma check_safe_distances_In (ps : PlatoonStates) (ids : list string)
    (vs : list SafetyMonitor.Violation) (v : SafetyMonitor.Violation) :
  SafetyMonitor.check_safe_distances ps ids = Some vs ->
  In v vs
  <-> exists i a b front rear,
        ids !! i = Some a /\ ids !! S i = Some b
        /\ getitem ps a = Some front /\ getitem ps b = Some rear
        /\ ps_position front - ps_position rear
           < SafetyMonitor._calculate_safe_distance
               (ps_velocity rear) (ps_velocity front)
        /\ v = SafetyMonitor.SAFE_DISTANCE_VIOLATION (a, b)
                 (ps_position front - ps_position rear)
                 (SafetyMonitor._calculate_safe_distance
                    (ps_velocity rear) (ps_velocity front)).
Proof.
  revert vs. induction ids as [| a ids IH]; intros vs Hc.
  { injection Hc as <-. split; [intros [] |].
    intros (i & a & b & f & r & H & _). discriminate. }
  destruct ids as [| b rest].
  { injection Hc as <-. split; [intros [] |].
    intros (i & a' & b & f & r & _ & H & _). discriminate. }
  rewrite check_safe_distances_cons2 in Hc.
  destruct (getitem ps a) as [front |] eqn:Hfa; [| discriminate].
  destruct (getitem ps b) as [rear |] eqn:Hfb; [| discriminate].
  destruct (SafetyMonitor.check_safe_distances ps (b :: rest)) as [vs' |];
    [| discriminate].
  specialize (IH vs' eq_refl). injection Hc as <-.
  assert (In v vs'
          <-> exists i a0 b0 front0 rear0,
                (a :: b :: rest) !! S i = Some a0
                /\ (a :: b :: rest) !! S (S i) = Some b0
                /\ getitem ps a0 = Some front0 /\ getitem ps b0 = Some rear0
                /\ ps_position front0 - ps_position rear0
                   < SafetyMonitor._calculate_safe_distance
                       (ps_velocity rear0) (ps_velocity front0)
                /\ v = SafetyMonitor.SAFE_DISTANCE_VIOLATION (a0, b0)
                         (ps_position front0 - ps_position rear0)
                         (SafetyMonitor._calculate_safe_distance
                            (ps_velocity rear0) (ps_velocity front0)))
    as IH' by exact IH.
  clear IH.
  destruct (_ <? _) eqn:Hlt.
  - cbn [In]. rewrite IH'. split.
    + intros [<- | (i & H)].
      * exists 0%nat, a, b, front, rear.
        split; [reflexivity |]. split; [reflexivity |].
        split; [exact Hfa |]. split; [exact Hfb |].
        split; [apply Qlt_bool_iff; exact Hlt | reflexivity].
      * exists (S i). exact H.
    + intros ([| i] & a0 & b0 & f0 & r0 & Ha0 & Hb0 & Hf0 & Hr0 & Hl & ->).
      * left. cbn in Ha0, Hb0. injection Ha0 as <-. injection Hb0 as <-.
        rewrite Hfa in Hf0. rewrite Hfb in Hr0.
        injection Hf0 as <-. injection Hr0 as <-. reflexivity.
      * right. exists i, a0, b0, f0, r0. repeat split; assumption.
  - rewrite IH'. split.
    + intros (i & H). exists (S i). exact H.
    + intros ([| i] & a0 & b0 & f0 & r0 & Ha0 & Hb0 & Hf0 & Hr0 & Hl & ->).
      * exfalso. cbn in Ha0, Hb0. injection Ha0 as <-. injection Hb0 as <-.
        rewrite Hfa in Hf0. rewrite Hfb in Hr0.
        injection Hf0 as <-. injection Hr0 as <-.
        apply Qlt_bool_iff in Hl. congruence.
      * exists i, a0, b0, f0, r0. repeat split; assumption.
Qed.

Lemma check_safe_distances_length (ps : PlatoonStates) (ids : list string)
    (vs : list SafetyMonitor.Violation) :
  SafetyMonitor.check_safe_distances ps ids = Some vs ->
  (List.length vs <= List.length ids - 1)%nat.
Proof.
  revert vs. induction ids as [| a ids IH]; intros vs Hc.
  { injection Hc as <-. cbn. lia. }
  destruct ids as [| b rest].
  { injection Hc as <-. cbn. lia. }
  rewrite check_safe_distances_cons2 in Hc.
  destruct (getitem ps a); [| discriminate].
  destruct (getitem ps b); [| discriminate].
  destruct (SafetyMonitor.check_safe_distances ps (b :: rest)) as [vs' |];
    [| discriminate].
  specialize (IH vs' eq_refl). cbn [List.length] in *.
  injection Hc as <-. destruct (_ <? _); cbn [List.length]; lia.
Qed.

Lemma check_velocity_bounds_In (ps : PlatoonStates)
    (v : SafetyMonitor.Violation) :
  In v (SafetyMonitor.check_velocity_bounds ps)
  <-> exists vid e, In (vid, e) ps /\ ps_velocity e < 0
                    /\ v = SafetyMonitor.NEGATIVE_VELOCITY vid (ps_velocity e).
Proof.
  unfold SafetyMonitor.check_velocity_bounds. rewrite in_flat_map. split.
  - intros ([vid e] & Hin & Hv). cbn [fst snd] in Hv.
    destruct (ps_velocity e <? 0) eqn:Hlt; [| destruct Hv].
    destruct Hv as [<- | []]. exists vid, e.
    split; [exact Hin |]. split; [apply Qlt_bool_iff; exact Hlt | reflexivity].
  - intros (vid & e & Hin & Hlt & ->). exists (vid, e).
    split; [exact Hin |]. cbn [fst snd].
    apply Qlt_bool_iff in Hlt. rewrite Hlt. left. reflexivity.
Qed.

Lemma check_velocity_bounds_length (ps : PlatoonStates) :
  (List.length (SafetyMonitor.check_velocity_bounds ps) <= List.length ps)%nat.
Proof.
  unfold SafetyMonitor.check_velocity_bounds.
  induction ps as [| e ps IH]; [cbn; lia |].
  cbn [flat_map]. rewrite List.length_app. cbn [List.length].
  destruct (_ <? 0); cbn [List.length]; lia.
Qed.

Lemma sorted_length (l : list string) :
  List.length (sorted l) = List.length l.
Proof.
  unfold sorted. apply Permutation_length, merge_sort_Permutation.
Qed.

Lemma sorted_keys_Forall (ps : PlatoonStates) :
  Forall (fun k => In k (keys ps)) (sorted (keys ps)).
Proof.
  apply Forall_forall. intros k Hk.
  apply list_elem_of_In in Hk. exact (proj1 (sorted_In _ _) Hk).
Qed.

Lemma check_safe_distances_kind (ps : PlatoonStates) (ids : list string)
    (vs : list SafetyMonitor.Violation) :
  SafetyMonitor.check_safe_distances ps ids = Some vs ->
  Forall (fun v => SafetyMonitor.is_distance_violation v = true) vs.
Proof.
  intros Hc. apply Forall_forall. intros v Hin. apply list_elem_of_In in Hin.
  apply (check_safe_distances_In ps ids vs v Hc) in Hin
    as (i & a & b & f & r & _ & _ & _ & _ & _ & ->). reflexivity.
Qed.

Lemma check_velocity_bounds_kind (ps : PlatoonStates) :
  Forall (fun v => SafetyMonitor.is_distance_violation v = false)
    (SafetyMonitor.check_velocity_bounds ps).
Proof.
  apply Forall_forall. intros v Hin. apply list_elem_of_In in Hin.
  apply check_velocity_bounds_In in Hin as (vid & e & _ & _ & ->).
  reflexivity.
Qed.

Lemma filter_all {A} (f : A -> bool) (l : list A) :
  Forall (fun v => f v = true) l -> List.filter f l = l.
Proof.
  induction 1 as [| x l Hx _ IH]; [reflexivity |].
  cbn. rewrite Hx, IH. reflexivity.
Qed.

Lemma filter_none {A} (f : A -> bool) (l : list A) :
  Forall (fun v => f v = false) l -> List.filter f l = [].
Proof.
  induction 1 as [| x l Hx _ IH]; [reflexivity |].
  cbn. rewrite Hx, IH. reflexivity.
Qed.

Lemma last_cons_default {A} (l : list A) (x d d' : A) :
  List.last (x :: l) d = List.last (x :: l) d'.
Proof.
  revert x. induction l as [| y l IH]; intros x; [reflexivity |].
  change (List.last (y :: l) d = List.last (y :: l) d'). apply IH.
Qed.

Lemma last_app_default {A} (l1 l2 : list A) (d : A) :
  List.last (l1 ++ l2) d = List.last l2 (List.last l1 d).
Proof.
  destruct l2 as [| c l2]; [rewrite app_nil_r; reflexivity |].
  induction l1 as [| a l1 IH]; [reflexivity |].
  rewrite (last_cons_default l2 c _ (List.last l1 d)), <- IH.
  destruct l1; reflexivity.
Qed.

(** X21.  [verify_safety] always returns, and appends what it returns to
    the history.  It reports a SAFE_DISTANCE_VIOLATION for the pair
    [(a, b)] exactly when [a] and [b] are neighbours in the sorted list of
    ids and the position stored under [a] is less than the safe distance
    (for the velocity under [b] behind the velocity under [a]) ahead of the
    position stored under [b]; it reports a NEGATIVE_VELOCITY exactly for
    the items whose velocity is negative; the distance violations come
    first; and there are fewer reports than twice the number of
    vehicles. *)
Theorem verify_safety_report (self : SafetyMonitor.t) (ps : PlatoonStates) :
  exists violations self',
    SafetyMonitor.verify_safety self ps = Some (violations, self')
    /\ SafetyMonitor.violation_history self'
       = SafetyMonitor.violation_history self ++ violations
    /\ (forall a b g s,
          In (SafetyMonitor.SAFE_DISTANCE_VIOLATION (a, b) g s) violations
          <-> exists i front rear,
                sorted (keys ps) !! i = Some a
                /\ sorted (keys ps) !! S i = Some b
                /\ getitem ps a = Some front /\ getitem ps b = Some rear
                /\ g = ps_position front - ps_position rear
                /\ s = SafetyMonitor._calculate_safe_distance
                         (ps_velocity rear) (ps_velocity front)
                /\ g < s)
    /\ (forall vid v,
          In (SafetyMonitor.NEGATIVE_VELOCITY vid v) violations
          <-> exists e, In (vid, e) ps /\ v = ps_velocity e /\ v < 0)
    /\ violations
       = List.filter SafetyMonitor.is_distance_violation violations
         ++ List.filter (fun v => negb (SafetyMonitor.is_distance_violation v))
              violations
    /\ (List.length violations <= 2 * List.length ps - 1)%nat.
Proof.
  unfold SafetyMonitor.verify_safety. cbv zeta.
  destruct (check_safe_distances_total ps (sorted (keys ps))
              (sorted_keys_Forall ps)) as [dv Hdv].
  rewrite Hdv. eexists _, _. split; [reflexivity |].
  cbn [SafetyMonitor.violation_history]. split; [reflexivity |].
  pose proof (fun v => check_safe_distances_In ps (sorted (keys ps)) dv v Hdv)
    as Hd.
  pose proof (check_velocity_bounds_In ps) as Hv.
  pose proof (check_safe_distances_kind ps _ dv Hdv) as Hkd.
  pose proof (check_velocity_bounds_kind ps) as Hkv.
  split; [| split; [| split]].
  - intros a b g s. rewrite in_app_iff, Hd, Hv. split.
    + intros [(i & a0 & b0 & f & r & Ha & Hb & Hf & Hr & Hlt & Heq)
             | (vid & e & _ & _ & Heq)]; [| discriminate Heq].
      injection Heq as -> -> -> ->. exists i, f, r.
      repeat split; assumption.
    + intros (i & f & r & Ha & Hb & Hf & Hr & -> & -> & Hlt). left.
      exists i, a, b, f, r. repeat split; assumption.
  - intros vid v. rewrite in_app_iff, Hd, Hv. split.
    + intros [(i & a0 & b0 & f & r & _ & _ & _ & _ & _ & Heq)
             | (vid' & e & Hin & Hlt & Heq)]; [discriminate Heq |].
      injection Heq as -> ->. exists e. repeat split; assumption.
    + intros (e & Hin & -> & Hlt). right. exists vid, e.
      repeat split; assumption.
  - rewrite !List.filter_app.
    rewrite (filter_all _ dv Hkd), (filter_none _ _ Hkv), app_nil_r.
    rewrite (filter_none
               (fun v => negb (SafetyMonitor.is_distance_violation v)) dv),
            (filter_all
               (fun v => negb (SafetyMonitor.is_distance_violation v))
               (SafetyMonitor.check_velocity_bounds ps)).
    + reflexivity.
    + eapply Forall_impl; [exact Hkv |]. cbv beta. intros v ->. reflexivity.
    + eapply Forall_impl; [exact Hkd |]. cbv beta. intros v ->. reflexivity.
  - rewrite List.length_app.
    pose proof (check_safe_distances_length ps _ dv Hdv) as H1.
    pose proof (check_velocity_bounds_length ps) as H2.
    rewrite sorted_length in H1. unfold keys in H1.
    rewrite List.length_map in H1.
    destruct ps as [| e ps]; [cbn in *; lia |]. cbn [List.length] in *. lia.
Qed.

Lemma verify_safety_facts (self : SafetyMonitor.t) (ps : PlatoonStates) :
  exists violations self',
    SafetyMonitor.verify_safety self ps = Some (violations, self')
    /\ forall a b g s,
         In (SafetyMonitor.SAFE_DISTANCE_VIOLATION (a, b) g s) violations
         <-> exists i front rear,
               sorted (keys ps) !! i = Some a
               /\ sorted (keys ps) !! S i = Some b
               /\ getitem ps a = Some front /\ getitem ps b = Some rear
               /\ g = ps_position front - ps_position rear
               /\ s = SafetyMonitor._calculate_safe_distance
                        (ps_velocity rear) (ps_velocity front)
               /\ g < s.
Proof.
  unfold SafetyMonitor.verify_safety. cbv zeta.
  destruct (check_safe_distances_total ps (sorted (keys ps))
              (sorted_keys_Forall ps)) as [dv Hdv].
  rewrite Hdv. eexists _, _. split; [reflexivity |].
  intros a b g s.
  rewrite in_app_iff, (check_safe_distances_In ps _ dv _ Hdv),
          check_velocity_bounds_In. split.
  - intros [(i & a0 & b0 & f & r & Ha & Hb & Hf & Hr & Hlt & Heq)
           | (vid & e & _ & _ & Heq)]; [| discriminate Heq].
    injection Heq as -> -> -> ->. exists i, f, r.
    repeat split; assumption.
  - intros (i & f & r & Ha & Hb & Hf & Hr & -> & -> & Hlt). left.
    exists i, a, b, f, r. repeat split; assumption.
Qed.

(** X22.  The statistics of the monitor.  The distance violations never
    outnumber the violations, and there is a last violation exactly when
    there is one at all.  One call of [verify_safety] adds the number of
    violations it returns to the total, adds at most one distance violation
    per pair of neighbours, and makes the last violation it returns, if it
    returns any, the last violation of the statistics. *)
Theorem monitor_stats_after_check (self : SafetyMonitor.t)
    (ps : PlatoonStates) :
  let st := SafetyMonitor.get_safety_stats self in
  (SafetyMonitor.distance_violations st
   <= SafetyMonitor.total_violations st)%nat
  /\ (SafetyMonitor.total_violations st = 0%nat
      <-> SafetyMonitor.last_violation st = None)
  /\ exists violations self',
       SafetyMonitor.verify_safety self ps = Some (violations, self')
       /\ let st' := SafetyMonitor.get_safety_stats self' in
          SafetyMonitor.total_violations st'
          = (SafetyMonitor.total_violations st
             + List.length violations)%nat
          /\ (SafetyMonitor.distance_violations st
              <= SafetyMonitor.distance_violations st'
              <= SafetyMonitor.distance_violations st
                 + (List.length ps - 1))%nat
          /\ SafetyMonitor.last_violation st'
             = List.last (List.map Some violations)
                 (SafetyMonitor.last_violation st).
Proof.
  cbv zeta. unfold SafetyMonitor.get_safety_stats.
  cbn [SafetyMonitor.total_violations SafetyMonitor.distance_violations
       SafetyMonitor.last_violation].
  split; [apply List.filter_length_le |]. split.
  { destruct (SafetyMonitor.violation_history self) as [| v l].
    - split; reflexivity.
    - split; [discriminate |]. intros H. exfalso. revert v H.
      induction l as [| w l IH]; intros v; [discriminate |].
      change (List.last (List.map Some (w :: l)) None = None -> False).
      apply IH. }
  unfold SafetyMonitor.verify_safety. cbv zeta.
  destruct (check_safe_distances_total ps (sorted (keys ps))
              (sorted_keys_Forall ps)) as [dv Hdv].
  rewrite Hdv. eexists _, _. split; [reflexivity |].
  cbn [SafetyMonitor.violation_history].
  pose proof (check_safe_distances_kind ps _ dv Hdv) as Hkd.
  pose proof (check_velocity_bounds_kind ps) as Hkv.
  pose proof (check_safe_distances_length ps _ dv Hdv) as Hlen.
  rewrite sorted_length in Hlen. unfold keys in Hlen.
  rewrite List.length_map in Hlen.
  split; [apply List.length_app |]. split.
  - rewrite !List.filter_app, !List.length_app.
    rewrite (filter_all _ dv Hkd), (filter_none _ _ Hkv).
    cbn [List.length]. lia.
  - rewrite List.map_app. apply last_app_default.
Qed.

Lemma safe_distance_default (v_ego v_pred : Q) :
  FormalPlatooningController._calculate_safe_distance
    FormalPlatooningController.default_params v_ego v_pred
  = Some (SafetyMonitor._calculate_safe_distance v_ego v_pred).
Proof. reflexivity. Qed.

(** X23.  The controller and the monitor agree.  Take a follower with the
    default parameters whose stored position and velocity are those that
    [platoon_states] holds under its id, and states that are not stale.
    Then [compute_verified_action] counts an emergency event exactly when
    [verify_safety] on the same [platoon_states] reports a
    SAFE_DISTANCE_VIOLATION whose rear vehicle is that follower. *)
Theorem controller_and_monitor_agree (self : FC.t) (mon : SafetyMonitor.t)
    (ps : PlatoonStates) (t : Q) (own : PlatoonState) :
  NoDup (keys ps) ->
  FC.role self = FC.FOLLOWER ->
  FC.safety_params self = FormalPlatooningController.default_params ->
  ~ stale FormalPlatooningController.default_params ps t ->
  getitem ps (FC.vehicle_id self) = Some own ->
  ps_position own = FC.position (FC.state self) ->
  ps_velocity own = FC.velocity (FC.state self) ->
  exists action self' violations mon',
    FC.compute_verified_action self ps t = Some (action, self')
    /\ SafetyMonitor.verify_safety mon ps = Some (violations, mon')
    /\ (FC.emergency_events self' = (FC.emergency_events self + 1)%Z
        <-> exists front g s,
              In (SafetyMonitor.SAFE_DISTANCE_VIOLATION
                    (front, FC.vehicle_id self) g s) violations).
Proof.
  intros Hnd Hr Hp Hfresh Hown Hpos Hvel.
  destruct (verify_safety_facts mon ps) as (violations & mon' & Hvs & Hd).
  pose proof (verify_assumptions_stale (FC.set_timestamp self t) ps) as Hst.
  cbn [FC.set_timestamp FC.safety_params FC.state FC.timestamp] in Hst.
  rewrite Hp in Hst.
  assert (FC._verify_assumptions (FC.set_timestamp self t) ps = true) as Hva.
  { destruct (FC._verify_assumptions _ ps); [reflexivity |].
    exfalso. apply Hfresh, Hst. reflexivity. }
  assert (NoDup (sorted (keys ps))) as Hnds by (apply sorted_NoDup, Hnd).
  (* where the own id stands in the sorted list *)
  assert (forall i front,
            sorted (keys ps) !! i = Some front ->
            sorted (keys ps) !! S i = Some (FC.vehicle_id self) ->
            index (sorted (keys ps)) (FC.vehicle_id self) = Some (S i))
    as Hidx.
  { intros i front _ Hi. apply index_Some. split; [exact Hi |].
    intros j y Hj Hy ->.
    pose proof (NoDup_lookup _ _ _ _ Hnds Hy Hi). lia. }
  unfold FC.compute_verified_action. cbv zeta. rewrite Hva. cbn [negb].
  cbn [FC.set_timestamp FC.role]. rewrite Hr.
  unfold FC._compute_follower_action.
  assert (FC._find_predecessor (FC.set_timestamp self t) ps
          = FC._find_predecessor self ps) as -> by reflexivity.
  destruct (FC._find_predecessor self ps) as [pred |] eqn:Hpred.
  2:{ eexists _, _, violations, mon'. split; [reflexivity |].
      split; [exact Hvs |]. cbn [FC._emergency_safe_action snd
        FC.emergency_events FC.set_timestamp]. split; [lia |].
      intros (front & g & s & Hin). exfalso.
      apply Hd in Hin as (i & f & r & Ha & Hb & Hf & _).
      assert (FC._find_predecessor self ps = Some f) as Hsome;
        [| congruence].
      apply find_predecessor_key. split; [exact Hr |].
      exists i, front. split; [exact (Hidx i front Ha Hb) |].
      split; assumption. }
  apply find_predecessor_key in Hpred as (_ & i & k & Hi & Hk & Hg).
  pose proof Hi as Hi'. apply index_Some in Hi' as [Hself _].
  cbv zeta. cbn [FC.set_timestamp FC.safety_params FC.state FC.velocity
                 FC.position].
  rewrite Hp, safe_distance_default.
  destruct (_ <? _) eqn:Hlt.
  - eexists _, _, violations, mon'. split; [reflexivity |].
    split; [exact Hvs |]. cbn [FC.emergency_events FC.set_timestamp].
    split; [| reflexivity].
    intros _. exists k. eexists _, _. apply Hd.
    exists i, pred, own. split; [exact Hk |]. split; [exact Hself |].
    split; [exact Hg |]. split; [exact Hown |].
    split; [reflexivity |]. split; [reflexivity |].
    rewrite Hpos, Hvel. apply Qlt_bool_iff. exact Hlt.
  - eexists _, _, violations, mon'. split; [reflexivity |].
    split; [exact Hvs |]. cbn [FC.emergency_events FC.set_timestamp].
    split; [lia |].
    intros (front & g & s & Hin). exfalso.
    apply Hd in Hin as (i' & f & r & Ha & Hb & Hf & Hr' & -> & -> & Hl).
    pose proof (NoDup_lookup _ _ _ _ Hnds Hb Hself) as Heq.
    assert (i' = i) as -> by lia.
    rewrite Hk in Ha. injection Ha as <-.
    rewrite Hg in Hf. injection Hf as <-.
    rewrite Hown in Hr'. injection Hr' as <-.
    rewrite Hpos, Hvel in Hl. apply Qlt_bool_iff in Hl. congruence.
Qed.

Lemma controller_and_monitor_agree_witness :
  exists action self' violations mon',
    FC.compute_verified_action follower_1 platoon_line 0
    = Some (action, self')
    /\ SafetyMonitor.verify_safety SafetyMonitor.init platoon_line
       = Some (violations, mon')
    /\ (FC.emergency_events self' = (FC.emergency_events follower_1 + 1)%Z
        <-> exists front g s,
              In (SafetyMonitor.SAFE_DISTANCE_VIOLATION
                    (front, FC.vehicle_id follower_1) g s) violations).
Proof.
  assert (NoDup (keys platoon_line)) as Hnd
    by (apply (bool_decide_eq_true_1 _); vm_compute; reflexivity).
  assert (~ stale FormalPlatooningController.default_params platoon_line 0)
    as Hfresh.
  { intros (k & e & Hin & Hlt).
    destruct Hin as [H | [H | [H | []]]]; injection H as <- <-;
      vm_compute in Hlt; discriminate Hlt. }
  exact (controller_and_monitor_agree follower_1 SafetyMonitor.init
           platoon_line 0 (mkPlatoonState 35 18 0)
           Hnd eq_refl eq_refl Hfresh eq_refl eq_refl eq_refl).
Defined.
